(** * Endpoint path templating and parameter extraction (package [util]),
      and the token lease check (package [vault])

    A shallow embedding of [ParsePath] and [PathParameters] from the
    provider's [util] package and of [tokenCheckLease] / [tokenRead] from the
    token resource, together with the parts of Go's [strings], [regexp] and
    [time] packages they call.

    Go strings are byte sequences: they are modelled as [list ascii].  All
    separators the code looks for (['/'], ['{'], ['}']) are single ASCII
    bytes, so byte-wise and rune-wise scanning agree. *)

From Stdlib Require Import Ascii String ZArith Lia.
From stdpp Require Import base option list gmap strings.

Local Open Scope char_scope.
Local Open Scope list_scope.

(** ** Go strings *)

Abbreviation gostring := (list ascii).

(** A Go string literal. *)
Definition str (s : string) : gostring := list_ascii_of_string s.

Definition is_brace (c : ascii) : bool := Ascii.eqb c "{" || Ascii.eqb c "}".

(** The placeholder token of a field, [fmt.Sprintf("{%s}", field)]. *)
Abbreviation tok field := ("{"%char :: field ++ ["}"%char]).

(** ** Package [strings] *)

Module strings.

(** [strings.HasPrefix(s, prefix)]. *)
Fixpoint HasPrefix (s prefix : gostring) {struct prefix} : bool :=
  match prefix, s with
  | [], _ => true
  | _ :: _, [] => false
  | p :: prefix', c :: s' => Ascii.eqb c p && HasPrefix s' prefix'
  end.

(** [strings.Split(s, sep)] for a one-byte separator, the only kind the
    package passes: the segments between the separators, [n + 1] of them for
    [n] separators (so [Split("", "/")] is the one empty string). *)
Fixpoint Split (s : gostring) (sep : ascii) : list gostring :=
  match s with
  | [] => [[]]
  | c :: s' =>
      if Ascii.eqb c sep then [] :: Split s' sep
      else match Split s' sep with
           | seg :: segs => (c :: seg) :: segs
           | [] => [[c]]
           end
  end.

(** [strings.Join(elems, sep)]. *)
Fixpoint Join (elems : list gostring) (sep : gostring) : gostring :=
  match elems with
  | [] => []
  | [e] => e
  | e :: es => e ++ sep ++ Join es sep
  end.

(** The scanner behind [strings.FieldsFunc]: [cur] is the field being
    read. *)
Fixpoint fields_from (f : ascii -> bool) (cur s : gostring) : list gostring :=
  match s with
  | [] => match cur with [] => [] | _ => [cur] end
  | c :: s' =>
      if f c then
        match cur with
        | [] => fields_from f [] s'
        | _ => cur :: fields_from f [] s'
        end
      else fields_from f (cur ++ [c]) s'
  end.

(** [strings.FieldsFunc(s, f)]: the maximal non-empty runs of bytes that do
    not satisfy [f]. *)
Definition FieldsFunc (s : gostring) (f : ascii -> bool) : list gostring :=
  fields_from f [] s.

(** Left-to-right replacement of the non-overlapping occurrences of a
    non-empty [old]; [skip] counts the bytes of an occurrence that has
    just been replaced and are still to be stepped over. *)
Fixpoint replace_from (old new : gostring) (skip : nat) (s : gostring) : gostring :=
  match s with
  | [] => []
  | c :: s' =>
      match skip with
      | S k => replace_from old new k s'
      | O =>
          if HasPrefix s old
          then new ++ replace_from old new (length old - 1) s'
          else c :: replace_from old new 0 s'
      end
  end.

(** [strings.Replace(s, old, new, -1)], which is [strings.ReplaceAll].  For
    an empty [old] Go inserts [new] before every character and at the end;
    no caller here passes an empty [old]. *)
Definition ReplaceAll (s old new : gostring) : gostring :=
  match old with
  | [] => new ++ flat_map (fun c => c :: new) s
  | _ :: _ => replace_from old new 0 s
  end.

(** [strings.Contains(s, substr)]. *)
Fixpoint Contains (s substr : gostring) : bool :=
  HasPrefix s substr ||
  match s with
  | [] => false
  | _ :: s' => Contains s' substr
  end.

End strings.

(** ** The field lookup of [schema.ResourceData] *)

(** The configured fields of a resource.  Path parameters are string-typed
    schema fields ("All path parameters must be strings so it's safe to assume
    here"), so the store maps field names to strings. *)
Abbreviation ResourceData := (gmap gostring gostring).

(** [d.GetOk(key)]: the value and whether it is set to something other than
    the zero value of its type (the empty string).  [None] stands for
    [ok == false], in which case the caller ignores the value. *)
Definition GetOk (d : ResourceData) (key : gostring) : option gostring :=
  match d !! key with
  | Some [] => None
  | Some v => Some v
  | None => None
  end.

(** ** Results of Go calls that may panic *)

Inductive go (A : Type) : Type :=
| Returns (a : A)
| PanicIndexOutOfRange (index length : nat).
Arguments Returns {A} a.
Arguments PanicIndexOutOfRange {A} index length.

(** ** [ParsePath] *)

(** The [for _, field := range fields] loop of [ParsePath]: every field that
    is set replaces all occurrences of its placeholder token. *)
Fixpoint substitute (d : ResourceData) (fields : list gostring) (recomprised : gostring)
  : gostring :=
  match fields with
  | [] => recomprised
  | field :: rest =>
      match GetOk d field with
      | None => substitute d rest recomprised
      | Some val =>
          substitute d rest
            (strings.ReplaceAll recomprised (tok field) val)
      end
  end.

(** The second half of [ParsePath], from [strings.FieldsFunc] on. *)
Definition resolve (d : ResourceData) (recomprised : gostring) : gostring :=
  substitute d (strings.FieldsFunc recomprised is_brace) recomprised.

Definition ParsePath (userSuppliedPath endpoint : gostring) (d : ResourceData)
  : go gostring :=
  let fields := strings.Split endpoint "/" in
  match fields with
  | _ :: _ :: rest =>
      (* fields[1] = userSuppliedPath; "/" + strings.Join(fields[1:], "/") *)
      let recomprised := "/" :: strings.Join (userSuppliedPath :: rest) ["/"] in
      Returns (resolve d recomprised)
  | _ => PanicIndexOutOfRange 1 (length fields)
  end.

(** ** Package [regexp]

    [PathParameters] hands [regexp.Compile] a pattern it assembles from the
    endpoint.  The model covers the syntax such patterns are made of: literal
    ASCII characters that mean themselves, the named group [(?P<name>.+)]
    that a placeholder is rewritten to, and the same group with [.*] for
    [.+], which an endpoint can bring with it.  A pattern that uses anything
    else of the regexp syntax, or that has two groups with nothing between
    them, is reported as [Unmodelled]; nothing is said about it. *)

Module regexp.

(** One element of a compiled pattern. *)
Inductive inst : Type :=
| Lit (c : ascii)                (* a character matching itself *)
| Group (name : gostring)        (* (?P<name>.+) *)
| GroupStar (name : gostring).   (* the same with [.*] for [.+] *)

Abbreviation Regexp := (list inst).

Inductive compiled : Type :=
| Compiled (re : Regexp)
| SyntaxError                (* regexp/syntax error: invalid named capture *)
| Unmodelled.

(** Characters with a meaning of their own in the regexp syntax. *)
Definition is_meta (c : ascii) : bool :=
  match c with
  | "\" | "." | "+" | "*" | "?" | "(" | ")" | "|"
  | "[" | "]" | "{" | "}" | "^" | "$" => true
  | _ => false
  end.

(** An ASCII character that stands for itself in a pattern. *)
Definition is_plain (c : ascii) : bool :=
  (nat_of_ascii c <? 128)%nat && negb (is_meta c).

(** [isalnum] or ['_']: the characters of a capture name. *)
Definition is_word (c : ascii) : bool :=
  let n := nat_of_ascii c in
  ((48 <=? n) && (n <=? 57) || (65 <=? n) && (n <=? 90)
   || (97 <=? n) && (n <=? 122) || (n =? 95))%nat.

(** [isValidCaptureName] of regexp/syntax. *)
Definition isValidCaptureName (name : gostring) : bool :=
  match name with
  | [] => false
  | _ => forallb is_word name
  end.

(** [strings.IndexRune(t, c)]. *)
Fixpoint index (c : ascii) (t : gostring) : option nat :=
  match t with
  | [] => None
  | x :: t' => if Ascii.eqb x c then Some 0 else S <$> index c t'
  end.

Definition emit (i : inst) (r : compiled) : compiled :=
  match r with
  | Compiled re => Compiled (i :: re)
  | other => other
  end.

(** The body of a group, [.+] or [.*], by its first three characters. *)
Definition group_of (body : gostring) : option (gostring -> inst) :=
  if strings.HasPrefix body (str ".+)") then Some Group
  else if strings.HasPrefix body (str ".*)") then Some GroupStar
  else None.

(** The parser, left to right.  At ["(?P<"] it reads the name up to the
    first ['>'] as regexp/syntax does and rejects a missing ['>'] or an
    invalid name; the group's body must be [.+] or [.*].  A group that is
    followed at once by another group is left [Unmodelled]: between two
    groups Go's [.] ends at a UTF-8 code point, and the matcher below reads
    bytes; next to a literal ASCII character or the end of the pattern the
    two agree.  [skip] counts the characters of a group that are still to be
    stepped over. *)
Fixpoint parse (skip : nat) (p : gostring) : compiled :=
  match p with
  | [] => Compiled []
  | c :: t =>
      match skip with
      | S k => parse k t
      | O =>
          if Ascii.eqb c "(" then
            if strings.HasPrefix t (str "?P<") then
              let u := drop 3 t in
              match index ">" u with
              | None => SyntaxError
              | Some n =>
                  let name := take n u in
                  if isValidCaptureName name then
                    let body := drop (S n) u in
                    match group_of body with
                    | Some group =>
                        if strings.HasPrefix (drop 3 body) ["("] then Unmodelled
                        else emit (group name) (parse (3 + n + 4) t)
                    | None => Unmodelled
                    end
                  else SyntaxError
              end
            else Unmodelled
          else if is_plain c then emit (Lit c) (parse 0 t)
          else Unmodelled
      end
  end.

(** [regexp.Compile(expr)]. *)
Definition Compile (expr : gostring) : compiled := parse 0 expr.

(** [re.SubexpNames()]: the empty name of the whole match at index 0, then
    the names of the groups in order. *)
Fixpoint group_names (re : Regexp) : list gostring :=
  match re with
  | [] => []
  | Lit _ :: re' => group_names re'
  | Group name :: re' => name :: group_names re'
  | GroupStar name :: re' => name :: group_names re'
  end.

Definition SubexpNames (re : Regexp) : list gostring := [] :: group_names re.

(** [.] matches any character but a newline. *)
Definition is_newline (c : ascii) : bool := Ascii.eqb c "010".

(** The greedy [.+] of a group followed by the rest of the pattern [k]: it
    takes as many characters as it can and gives them back one at a time
    while [k] fails.  The result is the capture, the text [k] matched and
    the captures of [k]. *)
Fixpoint greedy (k : gostring -> option (gostring * list gostring)) (s : gostring)
  : option (gostring * gostring * list gostring) :=
  match s with
  | [] => None
  | c :: s' =>
      if is_newline c then None
      else match greedy k s' with
           | Some (cap, m, caps) => Some (c :: cap, m, caps)
           | None =>
               match k s' with
               | Some (m, caps) => Some ([c], m, caps)
               | None => None
               end
           end
  end.

(** The match a backtracking search finds first at the start of [s]: the
    text matched and the captures of the groups.  The pattern is not
    anchored at its end. *)
Fixpoint match_here (re : Regexp) (s : gostring) : option (gostring * list gostring) :=
  match re with
  | [] => Some ([], [])
  | Lit c :: re' =>
      match s with
      | c' :: s' =>
          if Ascii.eqb c' c then
            match match_here re' s' with
            | Some (m, caps) => Some (c' :: m, caps)
            | None => None
            end
          else None
      | [] => None
      end
  | Group _ :: re' =>
      match greedy (match_here re') s with
      | Some (cap, m, caps) => Some (cap ++ m, cap :: caps)
      | None => None
      end
  | GroupStar _ :: re' =>
      (* [.*] is [.+] or, when that fails, nothing *)
      match greedy (match_here re') s with
      | Some (cap, m, caps) => Some (cap ++ m, cap :: caps)
      | None =>
          match match_here re' s with
          | Some (m, caps) => Some (m, [] :: caps)
          | None => None
          end
      end
  end.

(** The leftmost match: the first position of [s] at which [match_here]
    succeeds. *)
Fixpoint find (re : Regexp) (s : gostring) : option (gostring * list gostring) :=
  match match_here re s with
  | Some r => Some r
  | None =>
      match s with
      | [] => None
      | _ :: s' => find re s'
      end
  end.

(** [re.FindStringSubmatch(s)]: the matched text followed by the captures,
    or [nil] when nothing matches. *)
Definition FindStringSubmatch (re : Regexp) (s : gostring) : list gostring :=
  match find re s with
  | Some (m, caps) => m :: caps
  | None => []
  end.

End regexp.

(** ** [PathParameters] *)

Inductive error : Type :=
| CompileError                                   (* the error of regexp.Compile *)
| ParseError (vaultPath endpoint : gostring).    (* could not parse %q into %q *)

Inductive extraction : Type :=
| Extracted (result : gmap gostring gostring)    (* result, nil *)
| Failed (err : error)                           (* nil, err *)
| IndexOutOfRange (index length : nat)           (* runtime panic *)
| NotModelled.                                   (* pattern outside the regexp model *)

(** The first loop of [PathParameters] on one element of [fields]. *)
Definition convert (field : gostring) : gostring :=
  if strings.HasPrefix field ["{"] then
    strings.ReplaceAll (strings.ReplaceAll field ["{"] (str "(?P<")) ["}"] (str ">.+)")
  else field.

(** [fields\[1\] = "{path}"] followed by the first loop and the join. *)
Definition pattern_of (fields : list gostring) : gostring :=
  strings.Join (convert <$> <[1 := str "{path}"]> fields) ["/"].

(** The second loop of [PathParameters], from index [i] of the subexpression
    names on. *)
Fixpoint collect (vaultPath endpoint : gostring) (names : list gostring) (i : nat)
    (match_ : list gostring) (result : gmap gostring gostring) : extraction :=
  match names with
  | [] => Extracted result
  | fieldName :: names' =>
      if (i =? 0)%nat || bool_decide (fieldName = []) then
        collect vaultPath endpoint names' (S i) match_ result
      else
        match match_ !! i with
        | None => Failed (ParseError vaultPath endpoint)     (* i >= len(match) *)
        | Some v =>
            collect vaultPath endpoint names' (S i) match_ (<[fieldName := v]> result)
        end
  end.

Definition PathParameters (endpoint vaultPath : gostring) : extraction :=
  let fields := strings.Split endpoint "/" in
  match fields with
  | _ :: _ :: _ =>
      let pattern := pattern_of fields in
      match regexp.Compile pattern with
      | regexp.SyntaxError => Failed CompileError
      | regexp.Unmodelled => NotModelled
      | regexp.Compiled endpointReg =>
          let match_ := regexp.FindStringSubmatch endpointReg vaultPath in
          collect vaultPath endpoint (regexp.SubexpNames endpointReg) 0 match_ ∅
      end
  | _ => IndexOutOfRange 1 (length fields)
  end.

(** ** The token resource: [tokenCheckLease] and [tokenRead] *)

Module token.

Local Open Scope Z_scope.

(** *** Package [time]

    A [time.Time] is an instant, counted in nanoseconds; a [time.Duration]
    is an [int64] count of nanoseconds, so its arithmetic wraps around.
    [Time.Add] is exact on the instants that [time.Parse] and [time.Now]
    produce. *)

Definition wrap64 (x : Z) : Z := (x + 2 ^ 63) mod 2 ^ 64 - 2 ^ 63.

Definition Second : Z := 1000000000.
Definition Minute : Z := 60 * Second.

(** [a * b] on [time.Duration]. *)
Definition Duration_mul (a b : Z) : Z := wrap64 (a * b).

Definition Add (t d : Z) : Z := t + d.
Definition Before (t u : Z) : bool := t <? u.
Definition After (t u : Z) : bool := u <? t.

(** The fields of the token resource the lease check reads and writes. *)
Record ResourceData : Type := mkData {
  Id : gostring;
  lease_started : gostring;
  lease_duration : Z;
  client_token : gostring
}.

Definition set_lease_started (v : gostring) (d : ResourceData) : ResourceData :=
  mkData (Id d) v (lease_duration d) (client_token d).
Definition set_lease_duration (v : Z) (d : ResourceData) : ResourceData :=
  mkData (Id d) (lease_started d) v (client_token d).
Definition set_client_token (v : gostring) (d : ResourceData) : ResourceData :=
  mkData (Id d) (lease_started d) (lease_duration d) v.
Definition SetId (v : gostring) (d : ResourceData) : ResourceData :=
  mkData v (lease_started d) (lease_duration d) (client_token d).

(** What a token call of the Vault client returns on success. *)
Record Secret : Type := mkSecret {
  Data_lease_duration : Z;
  Auth_ClientToken : gostring;
  Auth_Accessor : gostring
}.

(** The calls [tokenRead] makes on the client. *)
Inductive call : Type :=
| CallLookupAccessor (accessor : gostring)
| CallRenew (token : gostring) (increment : Z).

Section WithEnvironment.

(** [time.Parse(time.RFC3339, s)] and [t.Format(time.RFC3339)]. *)
Variable Parse : gostring -> option Z.
Variable Format : Z -> gostring.

(** The Vault client: [LookupAccessor] and [Renew], [None] for an error. *)
Variable LookupAccessor : gostring -> option Secret.
Variable Renew : gostring -> Z -> option Secret.

(** Lines 232 to 247 of [tokenRead], which copy the response into the
    state. *)
Variable store_response : Secret -> ResourceData -> ResourceData.

(** [started.Add(time.Second * time.Duration(duration))]. *)
Definition lease_expiry (started duration : Z) : Z :=
  Add started (Duration_mul Second duration).

(** [tokenCheckLease], with [time.Now()] read as the one instant [now].
    The state is returned because an unparsable [lease_started] is
    cleared. *)
Definition tokenCheckLease (d : ResourceData) (now : Z) : bool * ResourceData :=
  let startedStr := lease_started d in
  let duration := lease_duration d in
  match startedStr with
  | [] => (false, d)
  | _ =>
      match Parse startedStr with
      | None => (false, set_lease_started [] d)
      | Some started =>
          if Before (Add (lease_expiry started duration) (Minute * 5)) now
          then (false, d)
          else if After (lease_expiry started duration) (Add now (Minute * -5))
          then (false, d)
          else (true, d)
      end
  end.

(** [tokenRead]: the state it leaves and the client calls it made. *)
Definition tokenRead (d : ResourceData) (now : Z) : ResourceData * list call :=
  let id := Id d in
  match LookupAccessor id with
  | None => (SetId [] d, [CallLookupAccessor id])
  | Some resp =>
      let '(expiring, d) := tokenCheckLease d now in
      if expiring then
        match Renew (client_token d) (lease_duration d) with
        | None =>
            (SetId [] d,
             [CallLookupAccessor id; CallRenew (client_token d) (lease_duration d)])
        | Some renewed =>
            let d' :=
              SetId (Auth_Accessor renewed)
                (set_client_token (Auth_ClientToken renewed)
                   (set_lease_started (Format now)
                      (set_lease_duration (Data_lease_duration renewed) d))) in
            (store_response renewed d',
             [CallLookupAccessor id; CallRenew (client_token d) (lease_duration d)])
        end
      else (store_response resp d, [CallLookupAccessor id])
  end.

Definition is_renew (c : call) : bool :=
  match c with CallRenew _ _ => true | _ => false end.

End WithEnvironment.

End token.

(** ** The token resource: [tokenCreate] *)

Module token_create.

Local Open Scope Z_scope.

(** The configured fields of the token resource that [tokenCreate] reads. *)
Record Config : Type := mkConfig {
  role_name : gostring;
  policies : list gostring;
  ttl : gostring;
  explicit_max_ttl : gostring;
  period : gostring;
  no_parent : bool;
  no_default_policy : bool;
  renewable : bool;
  display_name : gostring;
  num_uses : Z
}.

(** [api.TokenCreateRequest]; a nil slice is the empty list, a nil
    [*bool] is [None]. *)
Record TokenCreateRequest : Type := mkRequest {
  Policies : list gostring;
  TTL : gostring;
  ExplicitMaxTTL : gostring;
  Period : gostring;
  NoParent : bool;
  NoDefaultPolicy : bool;
  DisplayName : gostring;
  NumUses : Z;
  Renewable : option bool
}.

(** [d.GetOk] on a string, a bool and an int field: the value, when it is
    not the zero value of its type. *)
Definition GetOk_string (v : gostring) : option gostring :=
  match v with [] => None | _ => Some v end.
Definition GetOk_bool (v : bool) : option bool := if v then Some v else None.
Definition GetOk_int (v : Z) : option Z := if v =? 0 then None else Some v.

(** The request [tokenCreate] builds: every field starts at its zero value
    and is assigned when [GetOk] finds it set. *)
Definition createRequest (cfg : Config) : TokenCreateRequest :=
  mkRequest
    (match policies cfg with [] => [] | ps => ps end)
    (match GetOk_string (ttl cfg) with Some v => v | None => [] end)
    (match GetOk_string (explicit_max_ttl cfg) with Some v => v | None => [] end)
    (match GetOk_string (period cfg) with Some v => v | None => [] end)
    (match GetOk_bool (no_parent cfg) with Some v => v | None => false end)
    (match GetOk_bool (no_default_policy cfg) with Some v => v | None => false end)
    (match GetOk_string (display_name cfg) with Some v => v | None => [] end)
    (match GetOk_int (num_uses cfg) with Some v => v | None => 0 end)
    (match GetOk_bool (renewable cfg) with Some v => Some v | None => None end).

(** [resp.Auth] of the secret a create call returns. *)
Record SecretAuth : Type := mkAuth {
  LeaseDuration : Z;
  ClientToken : gostring;
  Accessor : gostring
}.

(** The create call [tokenCreate] makes. *)
Inductive create_call : Type :=
| CallCreate (request : TokenCreateRequest)
| CallCreateWithRole (request : TokenCreateRequest) (role : gostring).

Section WithEnvironment.

Variable Parse : gostring -> option Z.
Variable Format : Z -> gostring.
Variable Create : TokenCreateRequest -> option SecretAuth.
Variable CreateWithRole : TokenCreateRequest -> gostring -> option SecretAuth.
Variable LookupAccessor : gostring -> option token.Secret.
Variable Renew : gostring -> Z -> option token.Secret.
Variable store_response : token.Secret -> token.ResourceData -> token.ResourceData.

(** [tokenCreate], with [time.Now()] read as the one instant [now]: the
    create call made and, unless it failed and the error was returned, what
    the [tokenRead] that ends the function leaves and calls. *)
Definition tokenCreate (cfg : Config) (d : token.ResourceData) (now : Z)
  : create_call * option (token.ResourceData * list token.call) :=
  let role := role_name cfg in
  let request := createRequest cfg in
  let '(made, resp) :=
    match role with
    | [] => (CallCreate request, Create request)
    | _ => (CallCreateWithRole request role, CreateWithRole request role)
    end in
  match resp with
  | None => (made, None)
  | Some auth =>
      let d :=
        token.SetId (Accessor auth)
          (token.set_client_token (ClientToken auth)
             (token.set_lease_started (Format now)
                (token.set_lease_duration (LeaseDuration auth) d))) in
      (made,
       Some (token.tokenRead Parse Format LookupAccessor Renew store_response d now))
  end.

End WithEnvironment.

End token_create.

(** ** More of package [strings] *)

Module gostrings.

(** [strings.HasSuffix(s, suffix)]:
    [len(s) >= len(suffix) && s\[len(s)-len(suffix):\] == suffix]. *)
Definition HasSuffix (s suffix : gostring) : bool :=
  (length suffix <=? length s)%nat
  && bool_decide (drop (length s - length suffix) s = suffix).

(** [strings.TrimSuffix(s, suffix)]. *)
Definition TrimSuffix (s suffix : gostring) : gostring :=
  if HasSuffix s suffix then take (length s - length suffix) s else s.

(** The scanner of [strings.Split] for a separator of any length: [cur] is
    the segment being read and [skip] counts the bytes of a separator just
    found that are still to be stepped over. *)
Fixpoint split_from (sep : gostring) (skip : nat) (cur s : gostring) : list gostring :=
  match s with
  | [] => [cur]
  | c :: s' =>
      match skip with
      | S k => split_from sep k cur s'
      | O =>
          if strings.HasPrefix s sep
          then cur :: split_from sep (length sep - 1) [] s'
          else split_from sep 0 (cur ++ [c]) s'
      end
  end.

(** [strings.Split(s, sep)]: the segments between the non-overlapping
    occurrences of [sep], read from the left.  With an empty [sep] Go splits
    after each character. *)
Definition Split (s sep : gostring) : list gostring :=
  match sep with
  | [] => (fun c => [c]) <$> s
  | _ :: _ => split_from sep 0 [] s
  end.

End gostrings.

(** ** The other helpers of package [util] *)

Module util.

Section slices.

(** The elements of a [\[\]interface{}], compared by [reflect.DeepEqual]:
    values on which it is equality (strings, numbers, booleans, and slices
    and maps of them). *)
Context {A : Type} `{EqDecision A}.

(** The loop of [SliceHasElement], at index [i]. *)
Fixpoint has_element_from (i : Z) (items : list A) (search : A) : bool * Z :=
  match items with
  | [] => (false, (-1)%Z)
  | ele :: rest =>
      if decide (ele = search) then (true, i)
      else has_element_from (i + 1)%Z rest search
  end.

Definition SliceHasElement (items : list A) (search : A) : bool * Z :=
  has_element_from 0%Z items search.

Definition SliceAppendIfMissing (items : list A) (search : A) : list A :=
  if (SliceHasElement items search).1 then items else items ++ [search].

(** [SliceRemoveIfPresent] writes into the slice it is given: the result is
    the caller's slice as the call leaves it, and the slice returned.  The
    index [len(list)-1] is in range whenever the element was found. *)
Definition SliceRemoveIfPresent (items : list A) (search : A) : go (list A * list A) :=
  let '(found, index) := SliceHasElement items search in
  if found then
    match items !! (length items - 1)%nat with
    | Some lastItem =>
        let items' := <[Z.to_nat index := lastItem]> items in
        Returns (items', take (length items - 1) items')
    | None => PanicIndexOutOfRange (length items - 1) (length items)
    end
  else Returns (items, items).

End slices.

(** The loop of [CalculateConflictsWith]. *)
Fixpoint conflicts (self : gostring) (group : list gostring) : list gostring :=
  match group with
  | [] => []
  | item :: rest =>
      if bool_decide (item = self) then conflicts self rest
      else item :: conflicts self rest
  end.

Definition CalculateConflictsWith (self : gostring) (group : list gostring)
  : list gostring :=
  if (length group <? 2)%nat then [] else conflicts self group.

(** [fmt.Sprintf(`"%s"`, value)]. *)
Definition quoted (value : gostring) : gostring := "034"%char :: value ++ ["034"%char].

Definition ArrayToTerraformList (values : list gostring) : gostring :=
  "["%char :: strings.Join (quoted <$> values) (str ", ") ++ ["]"%char].

(** An [interface{}] as the conversions below see it: a string or not. *)
Inductive value : Type :=
| VString (s : gostring)
| VOther.

(** The outcome of code with type assertions [v.(string)]. *)
Inductive asserted (A : Type) : Type :=
| Asserted (a : A)
| PanicInterfaceConversion.
Arguments Asserted {A} a.
Arguments PanicInterfaceConversion {A}.

(** [ToStringArray]: [output\[i\] = item.(string)] for each item in turn. *)
Fixpoint ToStringArray (input : list value) : asserted (list gostring) :=
  match input with
  | [] => Asserted []
  | VString s :: rest =>
      match ToStringArray rest with
      | Asserted output => Asserted (s :: output)
      | PanicInterfaceConversion => PanicInterfaceConversion
      end
  | VOther :: _ => PanicInterfaceConversion
  end.

(** The loop of [JsonStringArrayToStringArray]:
    [strList = append(strList, v.(string))]. *)
Fixpoint append_strings (strList : list gostring) (jsonList : list value)
  : asserted (list gostring) :=
  match jsonList with
  | [] => Asserted strList
  | VString s :: rest => append_strings (strList ++ [s]) rest
  | VOther :: _ => PanicInterfaceConversion
  end.

Definition JsonStringArrayToStringArray (jsonList : list value)
  : asserted (list gostring) :=
  append_strings [] jsonList.

Section duration.

(** [d.String()] of [time.Duration]. *)
Variable DurationString : Z -> gostring.

Definition ShortDur (d : Z) : gostring :=
  let s := DurationString d in
  let s := if gostrings.HasSuffix s (str "m0s") then take (length s - 2) s else s in
  let s := if gostrings.HasSuffix s (str "h0m") then take (length s - 2) s else s in
  s.

End duration.

(** An [error] as the checks below see it: [None] is the nil error,
    [Some msg] an error whose [Error()] is [msg]. *)
Inductive answered : Type :=
| Answer (b : bool)
| PanicNilDereference.

(** [Is404] calls [err.Error()] at once. *)
Definition Is404 (err : option gostring) : answered :=
  match err with
  | None => PanicNilDereference
  | Some msg => Answer (strings.Contains msg (str "Code: 404"))
  end.

Definition IsExpiredTokenErr (err : option gostring) : bool :=
  match err with
  | None => false
  | Some msg =>
      if strings.Contains msg (str "invalid accessor") then true
      else if strings.Contains msg (str "failed to find accessor entry") then true
      else false
  end.

End util.

(** ** Package [codegen] *)

Module codegen.

Definition repoName : gostring := str "terraform-provider-vault".

(** [pathToHomeDir], for the working directory [os.Getwd] returned. *)
Definition pathToHomeDir (wd : gostring) : go gostring :=
  let pathParts := gostrings.Split wd repoName in
  match pathParts !! 0%nat with
  | Some part => Returns (part ++ repoName)
  | None => PanicIndexOutOfRange 0 (length pathParts)
  end.

Definition stripCurlyBraces (path : gostring) : gostring :=
  let path := strings.ReplaceAll path ["{"] [] in
  let path := strings.ReplaceAll path ["}"] [] in
  path.

(** [codeFilePath] and [docFilePath], given the home directory and the text
    [tmplType.String()] of the template type. *)
Definition codeFilePath (homeDir tmplType path : gostring) : gostring :=
  stripCurlyBraces (homeDir ++ str "/generated/" ++ tmplType ++ path ++ str ".go").

Definition docFilePath (homeDir tmplType path : gostring) : gostring :=
  let result := homeDir ++ str "/website/docs/generated/" ++ tmplType ++ path ++ str ".md" in
  stripCurlyBraces result.

End codegen.

(** ** The auth backend resource *)

Module authbackend.

(** The [DiffSuppressFunc] of the field "path". *)
Definition pathDiffSuppress (old new : gostring) : bool :=
  bool_decide (old ++ ["/"] = new) || bool_decide (new ++ ["/"] = old).

(** The fields of the auth backend resource, but for the block [tune]. *)
Record ResourceData : Type := mkData {
  Id : gostring;
  type : gostring;
  path : gostring;
  description : gostring;
  local : bool;
  accessor : gostring
}.

Definition SetId (v : gostring) (d : ResourceData) : ResourceData :=
  mkData v (type d) (path d) (description d) (local d) (accessor d).
Definition set_type (v : gostring) (d : ResourceData) : ResourceData :=
  mkData (Id d) v (path d) (description d) (local d) (accessor d).
Definition set_path (v : gostring) (d : ResourceData) : ResourceData :=
  mkData (Id d) (type d) v (description d) (local d) (accessor d).
Definition set_description (v : gostring) (d : ResourceData) : ResourceData :=
  mkData (Id d) (type d) (path d) v (local d) (accessor d).
Definition set_local (v : bool) (d : ResourceData) : ResourceData :=
  mkData (Id d) (type d) (path d) (description d) v (accessor d).
Definition set_accessor (v : gostring) (d : ResourceData) : ResourceData :=
  mkData (Id d) (type d) (path d) (description d) (local d) v.

(** [api.AuthMount], but for its [Config], which only the block [tune]
    reads. *)
Record AuthMount : Type := mkMount {
  AuthType : gostring;
  Description : gostring;
  Local : bool;
  Accessor : gostring
}.

(** What a resource function returns: nil or an error, and the state it
    leaves. *)
Inductive outcome : Type :=
| Nil (d : ResourceData)
| Error (d : ResourceData).

Section WithEnvironment.

(** The map [client.Sys().ListAuth()] returns, its entries in the order the
    [range] statement visits them; [None] for an error. *)
Variable ListAuth : option (list (gostring * AuthMount)).

(** Lines 138 to 155 of [authBackendRead], which rebuild the block [tune]
    from the mount's [Config] and return the error of [d.Set], if any. *)
Variable store_tune : AuthMount -> ResourceData -> outcome.

(** The [for path, auth := range auths] loop of [authBackendRead] and the
    lines after it. *)
Fixpoint range_auths (targetPath : gostring) (auths : list (gostring * AuthMount))
    (d : ResourceData) : outcome :=
  match auths with
  | [] => Nil (SetId [] d)
  | (path, auth) :: auths' =>
      let path := gostrings.TrimSuffix path ["/"] in
      if bool_decide (path = targetPath) then
        store_tune auth
          (set_accessor (Accessor auth)
             (set_local (Local auth)
                (set_description (Description auth)
                   (set_path path (set_type (AuthType auth) d)))))
      else range_auths targetPath auths' d
  end.

Definition authBackendRead (d : ResourceData) : outcome :=
  let targetPath := Id d in
  match ListAuth with
  | None => Error d
  | Some auths => range_auths targetPath auths d
  end.

End WithEnvironment.

End authbackend.

(** ** Vocabulary of the specification *)

(** An endpoint template by its segments: "a segment may be a literal or a
    [{name}] placeholder". *)
Inductive segment : Type :=
| Literal (text : gostring)
| Placeholder (name : gostring).

Definition segment_text (seg : segment) : gostring :=
  match seg with
  | Literal text => text
  | Placeholder name => tok name
  end.

(** The endpoint string of a template: its segments separated by ['/']. *)
Definition endpoint_of (segs : list segment) : gostring :=
  strings.Join (segment_text <$> segs) ["/"].

(** Literal text that stands for itself in a pattern and stays within its
    segment. *)
Definition is_literal_char (c : ascii) : bool :=
  regexp.is_plain c && negb (Ascii.eqb c "/").

(** A segment the pattern syntax can take as it is: literal text with no
    character of the regexp syntax, or a placeholder whose name is a word of
    letters, digits and ['_']. *)
Definition plain_segment (seg : segment) : bool :=
  match seg with
  | Literal text => forallb is_literal_char text
  | Placeholder name => regexp.isValidCaptureName name
  end.

(** The text of a compiled pattern. *)
Definition inst_text (i : regexp.inst) : gostring :=
  match i with
  | regexp.Lit c => [c]
  | regexp.Group name => str "(?P<" ++ name ++ str ">.+)"
  | regexp.GroupStar name => str "(?P<" ++ name ++ str ">.*)"
  end.

Definition unparse (re : regexp.Regexp) : gostring := flat_map inst_text re.

Definition wf_inst (i : regexp.inst) : bool :=
  match i with
  | regexp.Lit c => regexp.is_plain c
  | regexp.Group name => regexp.isValidCaptureName name
  | regexp.GroupStar name => regexp.isValidCaptureName name
  end.

(** No group of the pattern is followed at once by another group. *)
Definition is_group (i : regexp.inst) : bool :=
  match i with
  | regexp.Lit _ => false
  | _ => true
  end.

Fixpoint separated (re : regexp.Regexp) : bool :=
  match re with
  | [] => true
  | i :: re' =>
      match re' with
      | j :: _ => negb (is_group i && is_group j) && separated re'
      | [] => true
      end
  end.

(** Every group of the pattern is a [.+]. *)
Definition no_star (i : regexp.inst) : bool :=
  match i with
  | regexp.GroupStar _ => false
  | _ => true
  end.

(** The compiled pattern of a template: the segments' own elements with a
    literal ['/'] between two segments. *)
Definition segment_insts (seg : segment) : regexp.Regexp :=
  match seg with
  | Literal text => regexp.Lit <$> text
  | Placeholder name => [regexp.Group name]
  end.

Fixpoint template_insts (segs : list segment) : regexp.Regexp :=
  match segs with
  | [] => []
  | [seg] => segment_insts seg
  | seg :: segs' => segment_insts seg ++ regexp.Lit "/" :: template_insts segs'
  end.

(** [PathParameters] reads the segment at index 1 as the placeholder
    [{path}]. *)
Definition endpoint_regexp (segs : list segment) : regexp.Regexp :=
  template_insts (<[1 := Placeholder (str "path")]> segs).

(** [matches re s caps]: the whole of [s] matches [re], its groups capturing
    [caps]. *)
Inductive matches : regexp.Regexp -> gostring -> list gostring -> Prop :=
| matches_nil : matches [] [] []
| matches_lit c re s caps :
    matches re s caps -> matches (regexp.Lit c :: re) (c :: s) caps
| matches_group name re cap s caps :
    cap <> [] -> Forall (fun c => regexp.is_newline c = false) cap ->
    matches re s caps ->
    matches (regexp.Group name :: re) (cap ++ s) (cap :: caps)
| matches_star name re cap s caps :
    Forall (fun c => regexp.is_newline c = false) cap ->
    matches re s caps ->
    matches (regexp.GroupStar name :: re) (cap ++ s) (cap :: caps).

(** A path with its placeholders marked: literal text and [{name}] tokens. *)
Inductive chunk : Type :=
| Text (t : gostring)
| Token (name : gostring).

Definition chunk_text (c : chunk) : gostring :=
  match c with
  | Text t => t
  | Token name => tok name
  end.

Definition chunks_text (cs : list chunk) : gostring := flat_map chunk_text cs.

Definition brace_free (s : gostring) : bool := forallb (fun c => negb (is_brace c)) s.

Definition chunk_ok (c : chunk) : bool :=
  match c with
  | Text t => brace_free t
  | Token name => brace_free name
  end.

Fixpoint token_names (cs : list chunk) : list gostring :=
  match cs with
  | [] => []
  | Text _ :: cs' => token_names cs'
  | Token name :: cs' => name :: token_names cs'
  end.

(** Replacing the token of [f] in a marked path. *)
Definition subst_chunk (f new : gostring) (c : chunk) : chunk :=
  match c with
  | Token n => if decide (n = f) then Text new else Token n
  | Text t => Text t
  end.

(** Text that [.+] can capture in one piece. *)
Definition no_newline (s : gostring) : bool :=
  forallb (fun c => negb (regexp.is_newline c)) s.

(** The number of ['/'] in a string, and of literal ['/'] in a pattern. *)
Definition slashes (s : gostring) : nat := count_occ Ascii.ascii_dec s "/".

Fixpoint lit_slashes (re : regexp.Regexp) : nat :=
  match re with
  | [] => 0
  | regexp.Lit c :: re' => (if Ascii.eqb c "/" then 1 else 0) + lit_slashes re'
  | regexp.Group _ :: re' => lit_slashes re'
  | regexp.GroupStar _ :: re' => lit_slashes re'
  end.

(** The text of literal segments that come before, and after, a placeholder. *)
Definition text_before (segs : list gostring) : gostring :=
  flat_map (fun seg => seg ++ ["/"]) segs.

Definition text_after (segs : list gostring) : gostring :=
  flat_map (fun seg => "/" :: seg) segs.

(** A template with the one placeholder [{name}] after the mount segment. *)
Definition single_placeholder (mountSegment : gostring) (before : list gostring)
    (name : gostring) (after : list gostring) : list segment :=
  Literal [] :: Literal mountSegment ::
    (Literal <$> before) ++ Placeholder name :: (Literal <$> after).

(** [sep] occurs in [s] at index [n] and at no index before. *)
Definition first_at (sep s : gostring) (n : nat) : bool :=
  forallb (fun i => negb (strings.HasPrefix (drop i s) sep)) (seq 0 n)
  && strings.HasPrefix (drop n s) sep.

(** What a segment leaves in a file name: its text, or the placeholder's
    name. *)
Definition segment_name (seg : segment) : gostring :=
  match seg with
  | Literal text => text
  | Placeholder name => name
  end.

(** What a chunk of a marked path reads as once the fields of [d] are filled
    in: a token whose name is not empty and is set gives its value, every
    other chunk its own text. *)
Definition render_chunk (d : ResourceData) (c : chunk) : gostring :=
  match c with
  | Text t => t
  | Token [] => tok []
  | Token name =>
      match GetOk d name with
      | Some value => value
      | None => tok name
      end
  end.

Definition render (d : ResourceData) (cs : list chunk) : gostring :=
  flat_map (render_chunk d) cs.

(** The names of the placeholders of a template, in order. *)
Fixpoint placeholder_names (segs : list segment) : list gostring :=
  match segs with
  | [] => []
  | Literal _ :: segs' => placeholder_names segs'
  | Placeholder name :: segs' => name :: placeholder_names segs'
  end.

(** * Properties *)

(** ** Facts about package [strings] *)

Section strings_facts.

Import strings.

Lemma ascii_eqb_eq (a b : ascii) : Ascii.eqb a b = true <-> a = b.
Proof. apply Ascii.eqb_eq. Qed.

Lemma ascii_eqb_neq (a b : ascii) : Ascii.eqb a b = false <-> a <> b.
Proof. apply Ascii.eqb_neq. Qed.

Lemma HasPrefix_spec (s p : gostring) :
  HasPrefix s p = true <-> exists r, s = p ++ r.
Proof.
  revert s. induction p as [|x p IH]; intros s; simpl.
  - split; [by exists s|done].
  - destruct s as [|c s].
    + split; [discriminate | intros [r Hr]; discriminate].
    + rewrite andb_true_iff, ascii_eqb_eq, IH. split.
      * intros [-> [r ->]]. eauto.
      * intros [r Hr]. injection Hr as -> ->. eauto.
Qed.

Lemma HasPrefix_app (p r : gostring) : HasPrefix (p ++ r) p = true.
Proof. apply HasPrefix_spec. eauto. Qed.

Lemma Split_not_nil (s : gostring) (sep : ascii) : Split s sep <> [].
Proof.
  induction s as [|c s IH]; simpl; [done|].
  destruct (Ascii.eqb c sep); [done|]. by destruct (Split s sep).
Qed.

Lemma Split_cons_ne (c : ascii) (s : gostring) (sep : ascii) :
  c <> sep ->
  exists seg segs, Split s sep = seg :: segs /\ Split (c :: s) sep = (c :: seg) :: segs.
Proof.
  intros Hc. simpl. apply ascii_eqb_neq in Hc. rewrite Hc.
  destruct (Split s sep) as [|seg segs] eqn:E; [by apply Split_not_nil in E|eauto].
Qed.

Lemma Split_no_sep (s : gostring) (sep : ascii) : sep ∉ s -> Split s sep = [s].
Proof.
  induction s as [|c s IH]; intros Hs; [done|].
  apply not_elem_of_cons in Hs as [Hc Hs].
  destruct (Split_cons_ne c s sep) as (seg & segs & E & ->); [done|].
  rewrite IH in E by done. by injection E as <- <-.
Qed.

Lemma Split_app_sep (a b : gostring) (sep : ascii) :
  sep ∉ a -> Split (a ++ sep :: b) sep = a :: Split b sep.
Proof.
  induction a as [|c a IH]; intros Ha.
  - simpl. by rewrite (proj2 (ascii_eqb_eq sep sep)).
  - apply not_elem_of_cons in Ha as [Hc Ha].
    destruct (Split_cons_ne c (a ++ sep :: b) sep) as (seg & segs & E & E'); [done|].
    rewrite <- app_comm_cons, E'. rewrite IH in E by done. by injection E as <- <-.
Qed.

(** The segments of a string with a separator in it are at least two. *)
Lemma Split_with_sep (s : gostring) (sep : ascii) :
  sep ∈ s ->
  exists a b rest, Split s sep = a :: b :: rest /\ sep ∉ a.
Proof.
  intros Hs. apply list_elem_of_split_l in Hs as (a & r & -> & Ha).
  rewrite Split_app_sep by done.
  destruct (Split r sep) as [|b rest] eqn:E; [by apply Split_not_nil in E|].
  eauto.
Qed.

Lemma Join_cons (e e' : gostring) (es : list gostring) (sep : gostring) :
  Join (e :: e' :: es) sep = e ++ sep ++ Join (e' :: es) sep.
Proof. done. Qed.

Lemma Split_Join (segs : list gostring) (sep : ascii) :
  segs <> [] -> Forall (fun seg => sep ∉ seg) segs ->
  Split (Join segs [sep]) sep = segs.
Proof.
  induction segs as [|e [|e' es] IH]; intros Hne Hall; [done| |].
  - simpl. apply Split_no_sep. by inversion Hall.
  - rewrite Join_cons. simpl app at 2. inversion Hall; subst.
    rewrite Split_app_sep by done. f_equal. by apply IH.
Qed.

Lemma Join_Split (s : gostring) (sep : ascii) : Join (Split s sep) [sep] = s.
Proof.
  induction s as [|c s IH]; [done|]. simpl Split.
  destruct (Ascii.eqb_spec c sep) as [->|Hc].
  - destruct (Split s sep) as [|b rest] eqn:E; [by apply Split_not_nil in E|].
    rewrite Join_cons, IH. done.
  - destruct (Split s sep) as [|seg [|b rest]] eqn:E; [by apply Split_not_nil in E| |].
    + simpl in *. by rewrite IH.
    + rewrite Join_cons in *. rewrite <- IH. done.
Qed.

Lemma Split_segments_no_sep (s : gostring) (sep : ascii) :
  Forall (fun seg => sep ∉ seg) (Split s sep).
Proof.
  induction s as [|c s IH]; simpl.
  - repeat constructor. apply not_elem_of_nil.
  - destruct (Ascii.eqb_spec c sep) as [->|Hc].
    + constructor; [apply not_elem_of_nil|done].
    + assert (sep <> c) as Hc' by congruence.
      destruct (Split s sep) as [|seg segs].
      * repeat constructor. apply not_elem_of_cons. split; [done|apply not_elem_of_nil].
      * inversion IH; subst. constructor; [|done]. by apply not_elem_of_cons.
Qed.

End strings_facts.

(** ** The mount segment at index 1 *)

Section index_one.

Import strings.

Lemma ParsePath_returns (mount endpoint : gostring) (d : ResourceData) :
  "/" ∈ endpoint ->
  exists seg0 seg1 rest,
    Split endpoint "/" = seg0 :: seg1 :: rest /\
    ParsePath mount endpoint d = Returns (resolve d ("/" :: Join (mount :: rest) ["/"])).
Proof.
  intros H. destruct (Split_with_sep _ _ H) as (a & b & rest & E & _).
  exists a, b, rest. split; [done|]. unfold ParsePath. by rewrite E.
Qed.

Lemma ParsePath_panics (mount endpoint : gostring) (d : ResourceData) :
  "/" ∉ endpoint -> ParsePath mount endpoint d = PanicIndexOutOfRange 1 1.
Proof. intros H. unfold ParsePath. by rewrite Split_no_sep. Qed.

Lemma PathParameters_panics (endpoint vaultPath : gostring) :
  "/" ∉ endpoint -> PathParameters endpoint vaultPath = IndexOutOfRange 1 1.
Proof. intros H. unfold PathParameters. by rewrite Split_no_sep. Qed.

Lemma collect_no_panic vaultPath endpoint names i match_ result index len :
  collect vaultPath endpoint names i match_ result <> IndexOutOfRange index len.
Proof.
  revert i result. induction names as [|n names IH]; intros i result; simpl; [done|].
  destruct (_ || _); [apply IH|]. destruct (match_ !! i); [apply IH|done].
Qed.

Lemma PathParameters_in_range (endpoint vaultPath : gostring) index len :
  "/" ∈ endpoint -> PathParameters endpoint vaultPath <> IndexOutOfRange index len.
Proof.
  intros H. destruct (Split_with_sep _ _ H) as (a & b & rest & E & _).
  unfold PathParameters. rewrite E.
  destruct (regexp.Compile _); [apply collect_no_panic|done|done].
Qed.

(** C7.  Both functions index segment 1 of the split endpoint unchecked.  An
    endpoint with a ['/'] in it splits into at least two segments, so the
    access is in range: [ParsePath] returns and [PathParameters] does not
    panic.  An endpoint without a ['/'] splits into the one segment, and both
    functions panic with index 1 out of range for length 1 instead of
    returning an error. *)
Theorem index_one_unchecked (endpoint : gostring) :
  ("/" ∈ endpoint ->
     1 < length (Split endpoint "/") /\
     (forall mount d, exists p, ParsePath mount endpoint d = Returns p) /\
     (forall vaultPath index len,
        PathParameters endpoint vaultPath <> IndexOutOfRange index len)) /\
  ("/" ∉ endpoint ->
     length (Split endpoint "/") = 1 /\
     (forall mount d, ParsePath mount endpoint d = PanicIndexOutOfRange 1 1) /\
     (forall vaultPath, PathParameters endpoint vaultPath = IndexOutOfRange 1 1)).
Proof.
  split; intros H.
  - split; [|split].
    + destruct (Split_with_sep _ _ H) as (a & b & rest & -> & _). simpl. lia.
    + intros mount d.
      destruct (ParsePath_returns mount endpoint d H) as (? & ? & ? & _ & ->). eauto.
    + intros. by apply PathParameters_in_range.
  - split; [|split].
    + by rewrite Split_no_sep.
    + intros. by apply ParsePath_panics.
    + intros. by apply PathParameters_panics.
Qed.

End index_one.

(** ** Facts about the regexp model *)

Section regexp_facts.

Import regexp.

Lemma parse_skip_drop (k : nat) (p : gostring) : parse k p = parse 0 (drop k p).
Proof.
  revert k. induction p as [|c t IH]; intros k.
  - by destruct k.
  - destruct k as [|k]; [done|]. simpl drop. rewrite <- IH. done.
Qed.

Lemma index_app (c : ascii) (a b : gostring) :
  c ∉ a -> index c (a ++ c :: b) = Some (length a).
Proof.
  induction a as [|x a IH]; intros Ha; simpl.
  - by rewrite (proj2 (ascii_eqb_eq c c)).
  - apply not_elem_of_cons in Ha as [Hx Ha].
    assert (x <> c) as Hx' by congruence. apply ascii_eqb_neq in Hx'.
    rewrite Hx', IH by done. done.
Qed.

Lemma index_Some (c : ascii) (t : gostring) (n : nat) :
  index c t = Some n -> exists a b, t = a ++ c :: b /\ length a = n.
Proof.
  revert n. induction t as [|x t IH]; intros n; simpl; [done|].
  destruct (Ascii.eqb_spec x c) as [->|Hx].
  - intros [= <-]. by exists [], t.
  - destruct (index c t) as [m|] eqn:E; [|done]. simpl. intros [= <-].
    destruct (IH m eq_refl) as (a & b & -> & <-). by exists (x :: a), b.
Qed.

Lemma word_not_gt (name : gostring) : forallb is_word name = true -> ">" ∉ name.
Proof.
  intros H Hin. rewrite forallb_forall in H.
  apply list_elem_of_In in Hin. apply H in Hin. discriminate.
Qed.

Lemma valid_name_word (name : gostring) :
  isValidCaptureName name = true -> name <> [] /\ forallb is_word name = true.
Proof. destruct name; [done|]. intros H. split; done. Qed.

Lemma drop_past (a : gostring) (c : ascii) (b : gostring) :
  drop (S (length a)) (a ++ c :: b) = b.
Proof. induction a; simpl; done. Qed.

Lemma take_before (a : gostring) (c : ascii) (b : gostring) :
  take (length a) (a ++ c :: b) = a.
Proof. induction a; simpl; [done|]. by f_equal. Qed.

Lemma parse_group (name rest : gostring) :
  isValidCaptureName name = true -> strings.HasPrefix rest ["("%char] = false ->
  parse 0 ("("%char :: str "?P<" ++ name ++ ">"%char :: str ".+)" ++ rest)
  = emit (Group name) (parse 0 rest).
Proof.
  intros Hwf Hrest. destruct (valid_name_word _ Hwf) as [_ Hw]. apply word_not_gt in Hw.
  cbn [parse]. rewrite (proj2 (ascii_eqb_eq "(" "(")) by done.
  rewrite HasPrefix_app. change (drop 3 (str "?P<" ++ ?x)) with x.
  rewrite index_app by done. rewrite take_before, Hwf, drop_past. cbv zeta.
  unfold group_of. rewrite HasPrefix_app.
  change (drop 3 (str ".+)" ++ rest)) with rest. rewrite Hrest.
  f_equal. rewrite parse_skip_drop. f_equal.
  change (drop (3 + length name + 4) (str "?P<" ++ ?x)) with (drop (length name + 4) x).
  replace (length name + 4) with (S (length name) + 3) by lia.
  rewrite <- drop_drop, drop_past. done.
Qed.

Lemma parse_group_star (name rest : gostring) :
  isValidCaptureName name = true -> strings.HasPrefix rest ["("%char] = false ->
  parse 0 ("("%char :: str "?P<" ++ name ++ ">"%char :: str ".*)" ++ rest)
  = emit (GroupStar name) (parse 0 rest).
Proof.
  intros Hwf Hrest. destruct (valid_name_word _ Hwf) as [_ Hw]. apply word_not_gt in Hw.
  cbn [parse]. rewrite (proj2 (ascii_eqb_eq "(" "(")) by done.
  rewrite HasPrefix_app. change (drop 3 (str "?P<" ++ ?x)) with x.
  rewrite index_app by done. rewrite take_before, Hwf, drop_past. cbv zeta.
  change (group_of (str ".*)" ++ rest)) with (Some GroupStar).
  change (drop 3 (str ".*)" ++ rest)) with rest. rewrite Hrest.
  f_equal. rewrite parse_skip_drop. f_equal.
  change (drop (3 + length name + 4) (str "?P<" ++ ?x)) with (drop (length name + 4) x).
  replace (length name + 4) with (S (length name) + 3) by lia.
  rewrite <- drop_drop, drop_past. done.
Qed.

Lemma parse_inst (i : inst) (rest : gostring) :
  wf_inst i = true -> (is_group i = true -> strings.HasPrefix rest ["("%char] = false) ->
  parse 0 (inst_text i ++ rest) = emit i (parse 0 rest).
Proof.
  destruct i as [c|name|name]; intros Hwf Hrest; simpl in Hwf.
  - simpl. destruct (Ascii.eqb_spec c "(") as [->|_]; [discriminate|]. by rewrite Hwf.
  - rewrite <- parse_group by auto. f_equal.
    unfold inst_text. rewrite <- !app_assoc. done.
  - rewrite <- parse_group_star by auto. f_equal.
    unfold inst_text. rewrite <- !app_assoc. done.
Qed.

Lemma separated_head (i : inst) (re : Regexp) :
  forallb wf_inst re = true -> separated (i :: re) = true -> is_group i = true ->
  strings.HasPrefix (unparse re) ["("%char] = false.
Proof.
  destruct re as [|j re]; [done|]. cbn [forallb separated].
  intros [Hj _]%andb_true_iff [Hsep _]%andb_true_iff Hi. rewrite Hi in Hsep.
  destruct j as [c|n|n]; [|done|done]. simpl in Hj. unfold unparse. simpl.
  destruct (Ascii.eqb_spec c "(") as [->|_]; [discriminate|done].
Qed.

Lemma separated_tail (i : inst) (re : Regexp) :
  separated (i :: re) = true -> separated re = true.
Proof. destruct re as [|j re]; [done|]. cbn [separated]. by intros [_ ?]%andb_true_iff. Qed.

Lemma parse_unparse (re : Regexp) :
  forallb wf_inst re = true -> separated re = true -> Compile (unparse re) = Compiled re.
Proof.
  unfold Compile. induction re as [|i re IH]; intros Hwf Hsep; [done|].
  simpl in Hwf. apply andb_true_iff in Hwf as [Hi Hre].
  unfold unparse. simpl flat_map. fold (unparse re).
  rewrite parse_inst by (done || by apply (separated_head i)).
  rewrite IH by (done || by apply (separated_tail i)). done.
Qed.

Lemma emit_Compiled (i : inst) (r : compiled) (re : Regexp) :
  emit i r = Compiled re -> exists re', r = Compiled re' /\ re = i :: re'.
Proof. destruct r; simpl; [|done|done]. intros [= <-]. eauto. Qed.

Lemma parse_Compiled (p : gostring) (re : Regexp) :
  parse 0 p = Compiled re -> p = unparse re /\ forallb wf_inst re = true.
Proof.
  remember (length p) as n eqn:Hn. revert p re Hn.
  induction n as [n IH] using lt_wf_ind. intros p re Hn.
  destruct p as [|c t]; [by intros [= <-]|]. cbn [parse].
  destruct (Ascii.eqb_spec c "(") as [->|Hc].
  - destruct (strings.HasPrefix t (str "?P<")) eqn:Hpre; [|done].
    apply HasPrefix_spec in Hpre as [u ->]. change (drop 3 (str "?P<" ++ u)) with u.
    destruct (index ">" u) as [k|] eqn:Hi; [|done].
    destruct (index_Some _ _ _ Hi) as (name & b & -> & <-).
    rewrite take_before, drop_past.
    destruct (isValidCaptureName name) eqn:Hv; [|done].
    cbv zeta. unfold group_of.
    destruct (strings.HasPrefix b (str ".+)")) eqn:Hbody.
    + apply HasPrefix_spec in Hbody as [r ->]. change (drop 3 (str ".+)" ++ r)) with r.
      destruct (strings.HasPrefix r ["("%char]); [done|].
      intros He. apply emit_Compiled in He as (re' & He & ->).
      rewrite parse_skip_drop in He.
      change (drop (3 + length name + 4) (str "?P<" ++ ?x))
        with (drop (length name + 4) x) in He.
      replace (length name + 4) with (S (length name) + 3) in He by lia.
      rewrite <- drop_drop, drop_past in He. change (drop 3 (str ".+)" ++ r)) with r in He.
      destruct (IH (length r)) with (p := r) (re := re') as [-> Hwf]; [|done|done|].
      { subst n. simpl. rewrite !length_app. simpl. lia. }
      split; [|simpl; by rewrite Hv].
      unfold unparse at 2. simpl flat_map. fold (unparse re').
      by rewrite <- !app_assoc.
    + destruct (strings.HasPrefix b (str ".*)")) eqn:Hstar; [|done].
      apply HasPrefix_spec in Hstar as [r ->]. change (drop 3 (str ".*)" ++ r)) with r.
      destruct (strings.HasPrefix r ["("%char]); [done|].
      intros He. apply emit_Compiled in He as (re' & He & ->).
      rewrite parse_skip_drop in He.
      change (drop (3 + length name + 4) (str "?P<" ++ ?x))
        with (drop (length name + 4) x) in He.
      replace (length name + 4) with (S (length name) + 3) in He by lia.
      rewrite <- drop_drop, drop_past in He. change (drop 3 (str ".*)" ++ r)) with r in He.
      destruct (IH (length r)) with (p := r) (re := re') as [-> Hwf]; [|done|done|].
      { subst n. simpl. rewrite !length_app. simpl. lia. }
      split; [|simpl; by rewrite Hv].
      unfold unparse at 2. simpl flat_map. fold (unparse re').
      by rewrite <- !app_assoc.
  - destruct (is_plain c) eqn:Hp; [|done].
    intros He. apply emit_Compiled in He as (re' & He & ->).
    destruct (IH (length t)) with (p := t) (re := re') as [-> Hwf]; [|done|done|].
    { subst n. simpl. lia. }
    split; [done|]. simpl. by rewrite Hp.
Qed.

(** *** The matcher *)

Lemma greedy_sound k s cap m caps :
  greedy k s = Some (cap, m, caps) ->
  cap <> [] /\ Forall (fun c => is_newline c = false) cap /\
  exists rest, s = cap ++ rest /\ k rest = Some (m, caps).
Proof.
  revert cap. induction s as [|c s IH]; intros cap; simpl; [done|].
  destruct (is_newline c) eqn:Hc; [done|].
  destruct (greedy k s) as [[[cap' m'] caps']|] eqn:E.
  - intros [= <- <- <-]. destruct (IH cap' eq_refl) as (Hne & Hall & rest & -> & Hk).
    split; [done|]. split; [by constructor|]. by exists rest.
  - destruct (k s) as [[m' caps']|] eqn:Ek; [|done].
    intros [= <- <- <-]. split; [done|]. split; [by repeat constructor|]. by exists s.
Qed.


(** The longest capture wins: when [k] accepts what follows [cap] and
    rejects what follows every longer capture, the group captures [cap]. *)
Lemma greedy_longest k cap rest r :
  cap <> [] -> Forall (fun c => is_newline c = false) cap ->
  k rest = Some r ->
  (forall x rest', x <> [] -> rest = x ++ rest' -> k rest' = None) ->
  greedy k (cap ++ rest) = Some (cap, r.1, r.2).
Proof.
  intros Hne Hall Hk Hlonger.
  assert (greedy k rest = None) as Hrest.
  { clear Hk. induction rest as [|c rest IH]; [done|]. simpl.
    destruct (is_newline c); [done|]. rewrite IH.
    - by rewrite (Hlonger [c] rest).
    - intros x rest' Hx ->. by apply (Hlonger (c :: x) rest'). }
  induction cap as [|c cap IH]; [done|].
  inversion Hall as [|? ? Hc Hall']; subst. simpl. rewrite Hc.
  destruct cap as [|c' cap].
  - simpl. rewrite Hrest, Hk. by destruct r.
  - rewrite IH; done.
Qed.

Lemma match_here_sound re s m caps :
  match_here re s = Some (m, caps) ->
  matches re m caps /\ exists post, s = m ++ post.
Proof.
  revert s m caps. induction re as [|[c|name|name] re IH]; intros s m caps; simpl.
  - intros [= <- <-]. split; [constructor|by exists s].
  - destruct s as [|c' s]; [done|]. destruct (Ascii.eqb_spec c' c) as [->|]; [|done].
    destruct (match_here re s) as [[m' caps']|] eqn:E; [|done].
    intros [= <- <-]. destruct (IH _ _ _ E) as [Hm [post ->]].
    split; [by constructor|by exists post].
  - destruct (greedy (match_here re) s) as [[[cap m'] caps']|] eqn:E; [|done].
    intros [= <- <-]. apply greedy_sound in E as (Hne & Hall & rest & -> & Hk).
    destruct (IH _ _ _ Hk) as [Hm [post ->]].
    split; [by constructor|]. exists post. by rewrite app_assoc.
  - destruct (greedy (match_here re) s) as [[[cap m'] caps']|] eqn:E.
    + intros [= <- <-]. apply greedy_sound in E as (Hne & Hall & rest & -> & Hk).
      destruct (IH _ _ _ Hk) as [Hm [post ->]].
      split; [by constructor|]. exists post. by rewrite app_assoc.
    + destruct (match_here re s) as [[m' caps']|] eqn:Ek; [|done].
      intros [= <- <-]. destruct (IH _ _ _ Ek) as [Hm [post ->]].
      split; [|by exists post]. by apply (matches_star name re [] _ caps').
Qed.


Lemma find_sound re s m caps :
  find re s = Some (m, caps) ->
  matches re m caps /\ exists pre post, s = pre ++ m ++ post.
Proof.
  induction s as [|c s IH]; simpl.
  - destruct (match_here re []) as [[m' caps']|] eqn:E; [|done]. intros [= <- <-].
    apply match_here_sound in E as [Hm [post ->]]. split; [done|]. by exists [], post.
  - destruct (match_here re (c :: s)) as [[m' caps']|] eqn:E.
    + intros [= <- <-]. apply match_here_sound in E as [Hm [post ->]].
      split; [done|]. by exists [], post.
    + intros H. destruct (IH H) as [Hm (pre & post & ->)].
      split; [done|]. by exists (c :: pre), post.
Qed.


Lemma find_here re s r : match_here re s = Some r -> find re s = Some r.
Proof. intros H. destruct s; simpl; by rewrite H. Qed.

Lemma matches_caps re m caps :
  matches re m caps ->
  length caps = length (group_names re) /\
  (forallb no_star re = true -> Forall (fun cap => cap <> []) caps).
Proof.
  induction 1 as [|? ? ? ? _ [IH1 IH2]|? ? ? ? ? ? ? _ [IH1 IH2]
                 |? ? ? ? ? ? _ [IH1 IH2]]; simpl.
  - by split.
  - by split.
  - split; [by rewrite IH1|]. intros Hre. constructor; auto.
  - split; [by rewrite IH1|done].
Qed.

End regexp_facts.

(** ** The extractor *)

Section extractor.

Import strings regexp.

Lemma ReplaceAll_char (s : gostring) (x : ascii) (new : gostring) :
  ReplaceAll s [x] new = flat_map (fun c => if Ascii.eqb c x then new else [c]) s.
Proof.
  unfold ReplaceAll. induction s as [|c s IH]; [done|]. simpl.
  rewrite andb_true_r. destruct (Ascii.eqb c x); by rewrite IH.
Qed.

Lemma convert_other (field : gostring) :
  HasPrefix field ["{"] = false -> convert field = field.
Proof. unfold convert. by intros ->. Qed.

Lemma convert_no_slash (field : gostring) : "/" ∉ field -> "/" ∉ convert field.
Proof.
  intros H. unfold convert. destruct (HasPrefix field ["{"]); [|done].
  rewrite !ReplaceAll_char. intros Hin.
  apply list_elem_of_In, in_flat_map in Hin as (c & Hc & Hin).
  destruct (Ascii.eqb c "}").
  - vm_compute in Hin. intuition discriminate.
  - destruct Hin as [->|[]].
    apply in_flat_map in Hc as (c' & Hc' & Hin). destruct (Ascii.eqb c' "{").
    + vm_compute in Hin. intuition discriminate.
    + destruct Hin as [->|[]]. by apply list_elem_of_In in Hc'.
Qed.

Lemma pattern_of_cons (a b : gostring) (rest : list gostring) :
  exists tail,
    pattern_of (a :: b :: rest) = convert a ++ "/"%char :: str "(?P<path>.+)" ++ tail.
Proof.
  change (pattern_of (a :: b :: rest))
    with (Join (convert a :: convert (str "{path}") :: (convert <$> rest)) ["/"]).
  rewrite Join_cons. replace (convert (str "{path}")) with (str "(?P<path>.+)") by done.
  destruct (convert <$> rest) as [|r rs].
  - exists []. by rewrite app_nil_r.
  - exists ("/"%char :: Join (r :: rs) ["/"]). by rewrite Join_cons.
Qed.

Lemma app_inj_sep (x : ascii) (a a' r r' : gostring) :
  x ∉ a -> x ∉ a' -> a ++ x :: r = a' ++ x :: r' -> a = a' /\ r = r'.
Proof.
  revert a'. induction a as [|c a IH]; intros [|c' a'] Ha Ha'; simpl.
  - by intros [= <-].
  - intros [= <- _]. by apply not_elem_of_cons in Ha' as [? _].
  - intros [= -> _]. by apply not_elem_of_cons in Ha as [? _].
  - intros [= <- H]. apply not_elem_of_cons in Ha as [_ Ha].
    apply not_elem_of_cons in Ha' as [_ Ha']. destruct (IH a' Ha Ha' H) as [-> ->]. done.
Qed.

Lemma app_prefix_no_sep (x : ascii) (t a b r : gostring) :
  x ∉ t -> x ∉ a -> t ++ r = a ++ x :: b ->
  exists a', a = t ++ a' /\ r = a' ++ x :: b.
Proof.
  revert a. induction t as [|y t IH]; intros a Ht Ha; simpl.
  - intros ->. by exists a.
  - apply not_elem_of_cons in Ht as [Hy Ht]. destruct a as [|z a]; simpl.
    + by intros [= <- _].
    + intros [= <- H]. apply not_elem_of_cons in Ha as [_ Ha].
      destruct (IH a Ht Ha H) as (a' & -> & ->). by exists a'.
Qed.

Lemma group_text_no_slash (name : gostring) :
  isValidCaptureName name = true -> "/" ∉ inst_text (Group name).
Proof.
  intros Hv. destruct (valid_name_word _ Hv) as [_ Hw]. rewrite forallb_forall in Hw.
  unfold inst_text. rewrite !not_elem_of_app. split; [|split].
  - intros Hin. apply list_elem_of_In in Hin. simpl in Hin. intuition discriminate.
  - intros Hin. apply list_elem_of_In, Hw in Hin. discriminate.
  - intros Hin. apply list_elem_of_In in Hin. simpl in Hin. intuition discriminate.
Qed.

Lemma star_text_no_slash (name : gostring) :
  isValidCaptureName name = true -> "/" ∉ inst_text (GroupStar name).
Proof.
  intros Hv. destruct (valid_name_word _ Hv) as [_ Hw]. rewrite forallb_forall in Hw.
  unfold inst_text. rewrite !not_elem_of_app. split; [|split].
  - intros Hin. apply list_elem_of_In in Hin. simpl in Hin. intuition discriminate.
  - intros Hin. apply list_elem_of_In, Hw in Hin. discriminate.
  - intros Hin. apply list_elem_of_In in Hin. simpl in Hin. intuition discriminate.
Qed.

Lemma unparse_cons (i : inst) (re : Regexp) :
  unparse (i :: re) = inst_text i ++ unparse re.
Proof. done. Qed.

Lemma unparse_app (ra rb : Regexp) : unparse (ra ++ rb) = unparse ra ++ unparse rb.
Proof. apply flat_map_app. Qed.

(** A ['/'] of a compiled pattern is a literal of its own: the text splits
    there into two compiled patterns. *)
Lemma unparse_split (re : Regexp) (a b : gostring) :
  forallb wf_inst re = true -> "/" ∉ a -> unparse re = a ++ "/"%char :: b ->
  exists ra rb, re = ra ++ Lit "/" :: rb /\ unparse ra = a /\ unparse rb = b.
Proof.
  revert a. induction re as [|i re IH]; intros a Hwf Ha.
  - by destruct a.
  - simpl in Hwf. apply andb_true_iff in Hwf as [Hi Hwf].
    rewrite unparse_cons. destruct i as [c|name|name].
    + destruct a as [|c' a]; simpl.
      * intros [= -> H]. by exists [], re.
      * intros [= -> H]. apply not_elem_of_cons in Ha as [_ Ha].
        destruct (IH a Hwf Ha H) as (ra & rb & -> & <- & <-). by exists (Lit c' :: ra), rb.
    + intros H. apply app_prefix_no_sep in H as (a' & -> & H');
        [|by apply group_text_no_slash|done].
      apply not_elem_of_app in Ha as [_ Ha].
      destruct (IH a' Hwf Ha H') as (ra & rb & -> & <- & <-).
      by exists (Group name :: ra), rb.
    + intros H. apply app_prefix_no_sep in H as (a' & -> & H');
        [|by apply star_text_no_slash|done].
      apply not_elem_of_app in Ha as [_ Ha].
      destruct (IH a' Hwf Ha H') as (ra & rb & -> & <- & <-).
      by exists (GroupStar name :: ra), rb.
Qed.

Lemma group_names_app (ra rb : Regexp) :
  group_names (ra ++ rb) = group_names ra ++ group_names rb.
Proof. induction ra as [|[c|n|n] ra IH]; simpl; [done|done|by f_equal|by f_equal]. Qed.

(** The pattern of an endpoint always has the group [path]. *)
Lemma pattern_has_path (a b : gostring) (rest : list gostring) (re : Regexp) :
  "/" ∉ a -> Compile (pattern_of (a :: b :: rest)) = Compiled re ->
  str "path" ∈ group_names re.
Proof.
  intros Ha Hc. destruct (pattern_of_cons a b rest) as [tail Hp]. rewrite Hp in Hc.
  apply parse_Compiled in Hc as [Hu Hwf]. symmetry in Hu.
  apply unparse_split in Hu as (ra & rb & -> & _ & Hrb); [|done|by apply convert_no_slash].
  rewrite forallb_app in Hwf. apply andb_true_iff in Hwf as [_ Hwf]. simpl in Hwf.
  assert (">"%char ∉ str "path") as Hgt.
  { intros Hin. apply list_elem_of_In in Hin. simpl in Hin. intuition discriminate. }
  destruct rb as [|[c|name|name] rb]; [done| | |].
  - injection Hrb as -> _. done.
  - simpl in Hwf. apply andb_true_iff in Hwf as [Hn _].
    destruct (valid_name_word _ Hn) as [_ Hw]. apply word_not_gt in Hw.
    unfold unparse in Hrb. simpl in Hrb. injection Hrb as Hrb.
    rewrite <- app_assoc in Hrb.
    change (name ++ str ">.+)" ++ flat_map inst_text rb)
      with (name ++ ">"%char :: str ".+)" ++ flat_map inst_text rb) in Hrb.
    change ("p"%char :: "a"%char :: "t"%char :: "h"%char :: ">"%char :: ?x)
      with (str "path" ++ ">"%char :: x) in Hrb.
    apply app_inj_sep in Hrb as [-> _]; [|done|done].
    rewrite group_names_app. simpl. apply elem_of_app. right. left.
  - simpl in Hwf. apply andb_true_iff in Hwf as [Hn _].
    destruct (valid_name_word _ Hn) as [_ Hw]. apply word_not_gt in Hw.
    unfold unparse in Hrb. simpl in Hrb. injection Hrb as Hrb.
    rewrite <- app_assoc in Hrb.
    change (name ++ str ">.*)" ++ flat_map inst_text rb)
      with (name ++ ">"%char :: str ".*)" ++ flat_map inst_text rb) in Hrb.
    change ("p"%char :: "a"%char :: "t"%char :: "h"%char :: ">"%char :: ?x)
      with (str "path" ++ ">"%char :: x) in Hrb.
    apply app_inj_sep in Hrb as [_ Hrb]; [|done|done]. discriminate.
Qed.

Lemma collect_values (P : gostring -> Prop) vaultPath endpoint names i match_ result m :
  (forall k v, result !! k = Some v -> P v) ->
  (forall j v, 0 < j -> match_ !! j = Some v -> P v) ->
  collect vaultPath endpoint names i match_ result = Extracted m ->
  forall k v, m !! k = Some v -> P v.
Proof.
  intros Hres Hmatch. revert i result Hres.
  induction names as [|n names IH]; intros i result Hres; simpl.
  - by intros [= <-].
  - destruct (Nat.eqb_spec i 0) as [->|Hi]; simpl; [by apply IH|].
    case_bool_decide; [by apply IH|].
    destruct (match_ !! i) as [v|] eqn:E; [|done]. apply IH.
    intros k v'. rewrite lookup_insert. case_decide.
    + intros [= <-]. apply (Hmatch i); [lia|done].
    + apply Hres.
Qed.



Lemma PathParameters_Extracted (endpoint vaultPath : gostring) result :
  PathParameters endpoint vaultPath = Extracted result ->
  exists a b rest re,
    Split endpoint "/" = a :: b :: rest /\
    Compile (pattern_of (a :: b :: rest)) = Compiled re /\
    collect vaultPath endpoint (SubexpNames re) 0
      (FindStringSubmatch re vaultPath) ∅ = Extracted result.
Proof.
  unfold PathParameters. destruct (Split endpoint "/") as [|a [|b rest]]; [done|done|].
  destruct (Compile _) as [re| |] eqn:Hc; [|done|done]. intros H. by exists a, b, rest, re.
Qed.


(** The values read from a match of a pattern whose groups are all [.+]. *)
Lemma collect_nonempty (vaultPath endpoint : gostring) (re : Regexp)
    (result : gmap gostring gostring) :
  forallb no_star re = true ->
  collect vaultPath endpoint (SubexpNames re) 0 (FindStringSubmatch re vaultPath) ∅
  = Extracted result ->
  forall name value, result !! name = Some value -> value <> [].
Proof.
  intros Hre Hc. eapply collect_values; [| |exact Hc].
  - intros k v. by rewrite lookup_empty.
  - intros j v Hj. unfold FindStringSubmatch.
    destruct (find re vaultPath) as [[m caps]|] eqn:E; [|done].
    apply find_sound in E as [Hm _]. apply matches_caps in Hm as [_ Hne].
    destruct j as [|j]; [lia|]. simpl. intros Hl.
    specialize (Hne Hre). rewrite Forall_forall in Hne. apply Hne.
    by eapply list_elem_of_lookup_2.
Qed.

End extractor.

Section anchoring.

Import strings regexp.

(** C2, as the code has it.  The pattern starts with the ['/'] that follows
    the empty first segment, so the concrete path must carry its leading
    ['/']: [PathParameters("/transform/role/{name}", "/transform/role/my-role")]
    returns exactly the map with "path" bound to "transform" and "name" bound
    to "my-role", the mount segment being captured under the fixed key
    "path". *)
Theorem extract_role_path :
  PathParameters (str "/transform/role/{name}") (str "/transform/role/my-role")
  = Extracted (<[str "name" := str "my-role"]> (<[str "path" := str "transform"]> ∅)).
Proof. vm_compute. reflexivity. Qed.

(** Without the leading ['/'] nothing in the path can start a match, as the
    only ['/'] followed by "role/" is the one the pattern needs after a
    non-empty mount capture. *)
Lemma extract_role_path_without_slash :
  PathParameters (str "/transform/role/{name}") (str "transform/role/my-role")
  = Failed (ParseError (str "transform/role/my-role") (str "/transform/role/{name}")).
Proof. vm_compute. reflexivity. Qed.



End anchoring.

(** ** Templates of the documented grammar *)

Section templates.

Import strings regexp.

Lemma flat_map_self {A} (f : A -> list A) (l : list A) :
  (forall x, x ∈ l -> f x = [x]) -> flat_map f l = l.
Proof.
  induction l as [|x l IH]; intros H; [done|]. simpl.
  rewrite (H x) by left. simpl. f_equal. apply IH. intros y Hy. apply H. by right.
Qed.

Lemma literal_char_facts (c : ascii) :
  is_literal_char c = true -> is_plain c = true /\ c <> "/"%char /\ is_brace c = false.
Proof.
  unfold is_literal_char. rewrite andb_true_iff, negb_true_iff, ascii_eqb_neq.
  intros [Hp Hs]. split; [done|]. split; [done|].
  unfold is_brace. destruct (Ascii.eqb_spec c "{") as [->|]; [done|].
  destruct (Ascii.eqb_spec c "}") as [->|]; done.
Qed.

Lemma word_facts (c : ascii) :
  is_word c = true -> c <> "/"%char /\ is_brace c = false /\ is_plain c = true.
Proof.
  destruct c as [[] [] [] [] [] [] [] []]; vm_compute; intros H;
    (discriminate H || (split; [discriminate|split; reflexivity])).
Qed.

Lemma plain_segment_no_slash (seg : segment) :
  plain_segment seg = true -> "/" ∉ segment_text seg.
Proof.
  destruct seg as [t|n]; simpl; intros H Hin.
  - rewrite forallb_forall in H. apply list_elem_of_In, H in Hin. done.
  - destruct (valid_name_word _ H) as [_ Hw]. rewrite forallb_forall in Hw.
    apply elem_of_cons in Hin as [|Hin]; [done|].
    apply elem_of_app in Hin as [Hin|Hin].
    + apply list_elem_of_In, Hw, word_facts in Hin as [? _]. done.
    + apply list_elem_of_In in Hin. simpl in Hin. intuition discriminate.
Qed.

Lemma Split_endpoint_of (segs : list segment) :
  segs <> [] -> forallb plain_segment segs = true ->
  Split (endpoint_of segs) "/" = segment_text <$> segs.
Proof.
  intros Hne Hall. unfold endpoint_of. apply Split_Join.
  - by destruct segs.
  - apply Forall_fmap, Forall_forall. intros seg Hin. apply plain_segment_no_slash.
    rewrite forallb_forall in Hall. by apply Hall, list_elem_of_In.
Qed.

Lemma unparse_lits (t : gostring) : unparse (Lit <$> t) = t.
Proof. induction t as [|c t IH]; [done|]. rewrite fmap_cons, unparse_cons, IH. done. Qed.

Lemma convert_placeholder (n : gostring) :
  (forall c, c ∈ n -> is_brace c = false) ->
  convert ("{"%char :: n ++ ["}"%char]) = str "(?P<" ++ n ++ str ">.+)".
Proof.
  intros Hb. unfold convert. change (HasPrefix _ ["{"%char]) with true. cbv iota.
  rewrite !ReplaceAll_char.
  change ("{"%char :: n ++ ["}"%char]) with (["{"%char] ++ n ++ ["}"%char]).
  rewrite !flat_map_app. rewrite (flat_map_self _ n).
  2:{ intros c Hc. apply Hb in Hc. unfold is_brace in Hc.
      apply orb_false_iff in Hc as [-> _]. done. }
  rewrite (flat_map_self _ n).
  2:{ intros c Hc. apply Hb in Hc. unfold is_brace in Hc.
      apply orb_false_iff in Hc as [_ ->]. done. }
  done.
Qed.

Lemma convert_segment (seg : segment) :
  plain_segment seg = true -> convert (segment_text seg) = unparse (segment_insts seg).
Proof.
  destruct seg as [t|n]; intros H.
  - unfold segment_text, segment_insts. rewrite unparse_lits. apply convert_other.
    destruct t as [|c t]; [done|]. simpl in *. apply andb_true_iff in H as [Hc _].
    apply literal_char_facts in Hc as (_ & _ & Hb). unfold is_brace in Hb.
    apply orb_false_iff in Hb as [-> _]. done.
  - destruct (valid_name_word _ H) as [_ Hw]. rewrite forallb_forall in Hw.
    unfold segment_text, segment_insts. rewrite convert_placeholder.
    + unfold unparse. simpl. by rewrite app_nil_r.
    + intros c Hc. by apply list_elem_of_In, Hw, word_facts in Hc as (_ & ? & _).
Qed.

Lemma Join_convert (segs : list segment) :
  forallb plain_segment segs = true ->
  Join (convert <$> (segment_text <$> segs)) ["/"] = unparse (template_insts segs).
Proof.
  induction segs as [|seg [|seg' segs] IH]; intros H; [done| |].
  - simpl in *. apply andb_true_iff in H as [H _]. by apply convert_segment.
  - apply andb_true_iff in H as [H H']. change (template_insts (seg :: seg' :: segs))
      with (segment_insts seg ++ Lit "/" :: template_insts (seg' :: segs)).
    rewrite unparse_app, unparse_cons, <- IH by done.
    rewrite !fmap_cons, Join_cons, convert_segment by done. done.
Qed.

Lemma plain_segment_wf (seg : segment) :
  plain_segment seg = true -> forallb wf_inst (segment_insts seg) = true.
Proof.
  destruct seg as [t|n]; simpl; intros H; [|by rewrite H].
  induction t as [|c t IH]; [done|]. simpl in *. apply andb_true_iff in H as [Hc H].
  apply literal_char_facts in Hc as (-> & _). by apply IH.
Qed.

Lemma template_insts_wf (segs : list segment) :
  forallb plain_segment segs = true -> forallb wf_inst (template_insts segs) = true.
Proof.
  induction segs as [|seg [|seg' segs] IH]; intros H; [done| |].
  - simpl in *. apply andb_true_iff in H as [H _]. by apply plain_segment_wf.
  - apply andb_true_iff in H as [H H']. change (template_insts (seg :: seg' :: segs))
      with (segment_insts seg ++ Lit "/" :: template_insts (seg' :: segs)).
    rewrite forallb_app, plain_segment_wf by done. simpl. by apply IH.
Qed.

Lemma separated_lit (c : ascii) (re : Regexp) :
  separated (Lit c :: re) = separated re.
Proof. by destruct re. Qed.

Lemma separated_lits (t : gostring) (re : Regexp) :
  separated ((Lit <$> t) ++ re) = separated re.
Proof.
  induction t as [|c t IH]; [done|]. rewrite fmap_cons, <- app_comm_cons.
  by rewrite separated_lit.
Qed.

Lemma separated_segment (seg : segment) (re : Regexp) :
  separated (segment_insts seg ++ Lit "/" :: re) = separated re.
Proof.
  destruct seg as [t|n]; simpl.
  - by rewrite separated_lits, separated_lit.
  - by destruct re.
Qed.

(** The groups of a template's pattern have a ['/'] between them and are
    all [.+]. *)
Lemma template_insts_separated (segs : list segment) :
  separated (template_insts segs) = true.
Proof.
  induction segs as [|seg [|seg' segs] IH]; [done| |].
  - destruct seg as [t|n]; simpl; [|done].
    rewrite <- (app_nil_r (Lit <$> t)). by rewrite separated_lits.
  - change (template_insts (seg :: seg' :: segs))
      with (segment_insts seg ++ Lit "/" :: template_insts (seg' :: segs)).
    by rewrite separated_segment.
Qed.

Lemma template_insts_no_star (segs : list segment) :
  forallb no_star (template_insts segs) = true.
Proof.
  assert (forall seg, forallb no_star (segment_insts seg) = true) as Hseg.
  { intros [t|n]; simpl; [|done]. induction t as [|c t IH]; [done|]. by rewrite fmap_cons. }
  induction segs as [|seg [|seg' segs] IH]; [done|apply Hseg|].
  change (template_insts (seg :: seg' :: segs))
    with (segment_insts seg ++ Lit "/" :: template_insts (seg' :: segs)).
  rewrite forallb_app, Hseg. simpl. apply IH.
Qed.

Lemma forallb_insert {A} (f : A -> bool) (l : list A) (i : nat) (x : A) :
  forallb f l = true -> f x = true -> forallb f (<[i := x]> l) = true.
Proof.
  revert i. induction l as [|y l IH]; intros i Hl Hx; [done|]. simpl in Hl.
  apply andb_true_iff in Hl as [Hy Hl]. destruct i as [|i]; simpl.
  - by rewrite Hx.
  - rewrite Hy. by apply IH.
Qed.

(** The pattern of a plain template compiles, to the elements of its
    segments. *)
Lemma plain_template_pattern (segs : list segment) :
  segs <> [] -> forallb plain_segment segs = true ->
  Compile (pattern_of (Split (endpoint_of segs) "/")) = Compiled (endpoint_regexp segs).
Proof.
  intros Hne Hall. rewrite Split_endpoint_of by done. unfold pattern_of, endpoint_regexp.
  change (str "{path}") with (segment_text (Placeholder (str "path"))).
  rewrite <- list_fmap_insert.
  assert (forallb plain_segment (<[1:=Placeholder (str "path")]> segs) = true) as Hall'
    by (by apply forallb_insert).
  rewrite Join_convert by done.
  apply parse_unparse; [by apply template_insts_wf|apply template_insts_separated].
Qed.

Lemma collect_cases vaultPath endpoint names i match_ result :
  (exists m, collect vaultPath endpoint names i match_ result = Extracted m) \/
  collect vaultPath endpoint names i match_ result = Failed (ParseError vaultPath endpoint).
Proof.
  revert i result. induction names as [|n names IH]; intros i result; simpl; [eauto|].
  destruct (_ || _); [apply IH|]. destruct (match_ !! i); [apply IH|by right].
Qed.

(** A placeholder whose name has a hyphen is rewritten to a group the regexp
    syntax rejects: the endpoint follows the grammar, and [PathParameters]
    returns the compilation error. *)
Lemma hyphenated_placeholder_fails_to_compile :
  endpoint_of [Literal []; Literal (str "transform"); Literal (str "role");
               Placeholder (str "role-name")]
  = str "/transform/role/{role-name}" /\
  PathParameters (str "/transform/role/{role-name}") (str "/transform/role/my-role")
  = Failed CompileError.
Proof. split; vm_compute; reflexivity. Qed.

(** C4, as the code has it.  The pattern is the endpoint's own text with the
    placeholders rewritten and nothing escaped, so it compiles when the text
    is inert: for every template of at least two segments whose literal
    segments have no character of the regexp syntax and whose placeholder
    names are non-empty words of letters, digits and ['_'], the pattern
    compiles, and for every concrete path [PathParameters] returns a parameter
    map or the parse error, never the compilation error. *)
Theorem plain_template_never_compile_error (segs : list segment) (vaultPath : gostring) :
  1 < length segs -> forallb plain_segment segs = true ->
  Compile (pattern_of (Split (endpoint_of segs) "/")) = Compiled (endpoint_regexp segs) /\
  ((exists result, PathParameters (endpoint_of segs) vaultPath = Extracted result) \/
   PathParameters (endpoint_of segs) vaultPath
   = Failed (ParseError vaultPath (endpoint_of segs))).
Proof.
  intros Hlen Hall. assert (segs <> []) as Hne by (intros ->; simpl in Hlen; lia).
  pose proof (plain_template_pattern segs Hne Hall) as Hc. split; [done|].
  unfold PathParameters. rewrite Split_endpoint_of in * by done.
  destruct segs as [|s0 [|s1 segs]]; [simpl in Hlen; lia..|].
  rewrite !fmap_cons. rewrite !fmap_cons in Hc. rewrite Hc. apply collect_cases.
Qed.

Lemma plain_template_never_compile_error_witness :
  Compile (pattern_of (Split (endpoint_of
     [Literal []; Literal (str "transform"); Literal (str "role");
      Placeholder (str "name")]) "/"))
  = Compiled (endpoint_regexp
     [Literal []; Literal (str "transform"); Literal (str "role");
      Placeholder (str "name")]) /\
  ((exists result,
      PathParameters (endpoint_of
        [Literal []; Literal (str "transform"); Literal (str "role");
         Placeholder (str "name")]) (str "/transform/role/my-role") = Extracted result) \/
   PathParameters (endpoint_of
     [Literal []; Literal (str "transform"); Literal (str "role");
      Placeholder (str "name")]) (str "/transform/role/my-role")
   = Failed (ParseError (str "/transform/role/my-role")
       (endpoint_of [Literal []; Literal (str "transform"); Literal (str "role");
                     Placeholder (str "name")]))).
Proof.
  apply (plain_template_never_compile_error
           [Literal []; Literal (str "transform"); Literal (str "role");
            Placeholder (str "name")] (str "/transform/role/my-role")).
  - simpl. lia.
  - reflexivity.
Defined.

End templates.

(** ** What a template's pattern matches and captures *)

Section template_matches.

Import strings regexp.

(** An endpoint that brings a group of its own, with the body [.*]: the
    pattern compiles, the group matches the empty text after the last
    ['/'], and the map returned has an empty value. *)
Lemma star_group_captures_empty_value :
  PathParameters (str "/t/(?P<x>.*)") (str "/m/")
  = Extracted (<[str "x" := []]> (<[str "path" := str "m"]> ∅)).
Proof. vm_compute. reflexivity. Qed.

(** C8, as the code has it.  For a template of plain segments (literal ASCII
    text with no character of the regexp syntax, or a placeholder [{name}]
    with a word for its name), every group of the pattern is a [.+] that a
    placeholder or the mount segment was rewritten to: whenever
    [PathParameters] succeeds, every value of the map it returns is a
    non-empty string, and the keys of the map are pairwise distinct. *)
Theorem captured_values_nonempty (segs : list segment) (vaultPath : gostring)
    (result : gmap gostring gostring) :
  forallb plain_segment segs = true ->
  PathParameters (endpoint_of segs) vaultPath = Extracted result ->
  (forall name value, result !! name = Some value -> value <> []) /\
  NoDup (map_to_list result).*1.
Proof.
  intros Hplain H. split; [|apply NoDup_fst_map_to_list].
  apply PathParameters_Extracted in H as (a & b & rest & re & Hs & Hre & Hc).
  assert (segs <> []) as Hne by (intros ->; discriminate).
  rewrite <- Hs, plain_template_pattern in Hre by done. injection Hre as <-.
  apply (collect_nonempty vaultPath (endpoint_of segs) (endpoint_regexp segs)); [|done].
  apply template_insts_no_star.
Qed.

(** The theorem at the endpoint of the role resource. *)
Lemma captured_values_nonempty_witness :
  (forall name value,
     (<[str "name" := str "my-role"]> (<[str "path" := str "transform"]> ∅)
        : gmap gostring gostring) !! name = Some value -> value <> []) /\
  NoDup (map_to_list
           (<[str "name" := str "my-role"]> (<[str "path" := str "transform"]> ∅)
              : gmap gostring gostring)).*1.
Proof.
  apply (captured_values_nonempty
           [Literal []; Literal (str "transform"); Literal (str "role");
            Placeholder (str "name")] (str "/transform/role/my-role")).
  - reflexivity.
  - vm_compute. reflexivity.
Defined.



End template_matches.

(** ** Facts about the templater *)

Section templater_facts.

Import strings.

Lemma brace_free_app (a b : gostring) :
  brace_free (a ++ b) = brace_free a && brace_free b.
Proof. apply forallb_app. Qed.

Lemma brace_free_elem (s : gostring) (c : ascii) :
  brace_free s = true -> c ∈ s -> is_brace c = false.
Proof.
  unfold brace_free. rewrite forallb_forall. intros H Hc.
  apply list_elem_of_In, H in Hc. by apply negb_true_iff.
Qed.

Lemma brace_free_no_open (s : gostring) : brace_free s = true -> "{" ∉ s.
Proof. intros H Hin. by apply (brace_free_elem _ _ H) in Hin. Qed.

Lemma brace_free_no_close (s : gostring) : brace_free s = true -> "}" ∉ s.
Proof. intros H Hin. by apply (brace_free_elem _ _ H) in Hin. Qed.

Lemma ReplaceAll_tok (s f new : gostring) :
  ReplaceAll s (tok f) new = replace_from (tok f) new 0 s.
Proof. done. Qed.

Lemma replace_from_skip (old new x rest : gostring) :
  replace_from old new (length x) (x ++ rest) = replace_from old new 0 rest.
Proof. induction x as [|c x IH]; [by destruct rest|]. simpl. apply IH. Qed.

(** Text without a ['{'] is copied: no occurrence of a token starts in it. *)
Lemma replace_from_text (f new x rest : gostring) :
  "{" ∉ x ->
  replace_from (tok f) new 0 (x ++ rest) = x ++ replace_from (tok f) new 0 rest.
Proof.
  induction x as [|c x IH]; intros Hx; [done|].
  apply not_elem_of_cons in Hx as [Hc Hx].
  simpl. assert (c <> "{"%char) as Hc' by congruence. apply ascii_eqb_neq in Hc'.
  rewrite Hc'. simpl. f_equal. by apply IH.
Qed.

Lemma prefix_before_sep (x : ascii) (t a b r : gostring) :
  x ∉ t -> t ++ r = a ++ x :: b -> exists a', a = t ++ a' /\ r = a' ++ x :: b.
Proof.
  revert a. induction t as [|y t IH]; intros a Ht; simpl.
  - intros ->. by exists a.
  - apply not_elem_of_cons in Ht as [Hy Ht]. destruct a as [|z a]; simpl.
    + by intros [= <- _].
    + intros [= <- H]. destruct (IH a Ht H) as (a' & -> & ->). by exists a'.
Qed.

Lemma tok_prefix_inv (f n rest : gostring) :
  brace_free f = true -> brace_free n = true ->
  HasPrefix (tok n ++ rest) (tok f) = true -> n = f.
Proof.
  intros Hf Hn H. apply HasPrefix_spec in H as [r H]. injection H as H.
  rewrite <- !app_assoc in H. simpl in H.
  apply app_inj_sep in H as [-> _]; [done|..]; by apply brace_free_no_close.
Qed.

(** A token is replaced when it is the token of the field, and copied
    otherwise. *)
Lemma replace_from_token (f new n rest : gostring) :
  brace_free f = true -> brace_free n = true ->
  replace_from (tok f) new 0 (tok n ++ rest)
  = (if decide (n = f) then new else tok n) ++ replace_from (tok f) new 0 rest.
Proof.
  intros Hf Hn. case_decide as Hnf.
  - subst n. change (tok f ++ rest) with ("{"%char :: (f ++ ["}"%char]) ++ rest).
    cbn [replace_from].
    change ("{"%char :: (f ++ ["}"%char]) ++ rest) with (tok f ++ rest).
    rewrite HasPrefix_app. f_equal.
    replace (length (tok f) - 1) with (length (f ++ ["}"%char])) by (simpl; lia).
    apply replace_from_skip.
  - change (tok n ++ rest) with ("{"%char :: (n ++ ["}"%char]) ++ rest).
    cbn [replace_from].
    change ("{"%char :: (n ++ ["}"%char]) ++ rest) with (tok n ++ rest).
    destruct (HasPrefix (tok n ++ rest) (tok f)) eqn:E.
    { by apply tok_prefix_inv in E. }
    change (tok n ++ ?x) with ("{"%char :: (n ++ ["}"%char]) ++ x). f_equal.
    rewrite <- !app_assoc. rewrite replace_from_text by (by apply brace_free_no_open).
    by f_equal.
Qed.

Lemma ReplaceAll_chunks (f new : gostring) (cs : list chunk) :
  brace_free f = true -> forallb chunk_ok cs = true ->
  ReplaceAll (chunks_text cs) (tok f) new = chunks_text (subst_chunk f new <$> cs).
Proof.
  intros Hf. rewrite ReplaceAll_tok. induction cs as [|c cs IH]; intros Hcs; [done|].
  simpl in Hcs. apply andb_true_iff in Hcs as [Hc Hcs].
  unfold chunks_text. rewrite fmap_cons. simpl flat_map.
  fold (chunks_text cs). fold (chunks_text (subst_chunk f new <$> cs)).
  rewrite <- IH by done. destruct c as [t|n]; simpl in Hc.
  - simpl chunk_text. by apply replace_from_text, brace_free_no_open.
  - unfold chunk_text at 1. rewrite replace_from_token by done.
    unfold subst_chunk. by case_decide.
Qed.

Lemma subst_chunk_ok (f new : gostring) (cs : list chunk) :
  brace_free new = true -> forallb chunk_ok cs = true ->
  forallb chunk_ok (subst_chunk f new <$> cs) = true.
Proof.
  intros Hnew. induction cs as [|c cs IH]; intros Hcs; [done|].
  cbn [forallb] in Hcs. apply andb_true_iff in Hcs as [Hc Hcs].
  rewrite fmap_cons. cbn [forallb]. rewrite IH, andb_true_r by done.
  destruct c as [t|n]; [done|]. unfold subst_chunk. by case_decide.
Qed.

Lemma subst_chunk_names (f new : gostring) (cs : list chunk) (n : gostring) :
  n ∈ token_names (subst_chunk f new <$> cs) -> n ∈ token_names cs /\ n <> f.
Proof.
  induction cs as [|c cs IH]; [by intros ?%elem_of_nil|]. rewrite fmap_cons.
  destruct c as [t|m]; [apply IH|]. unfold subst_chunk at 1. cbn [token_names].
  case_decide as Hm; cbn [token_names].
  - intros H. destruct (IH H). split; [by right|done].
  - intros [->|H]%elem_of_cons; [split; [by left|done]|].
    destruct (IH H). split; [by right|done].
Qed.

Lemma subst_chunk_absent (f new : gostring) (cs : list chunk) :
  f ∉ token_names cs -> subst_chunk f new <$> cs = cs.
Proof.
  induction cs as [|c cs IH]; intros H; [done|]. rewrite fmap_cons.
  destruct c as [t|m]; cbn [token_names] in H.
  - by rewrite IH.
  - apply not_elem_of_cons in H as [Hm H]. rewrite IH by done.
    unfold subst_chunk. case_decide; [congruence|done].
Qed.

(** *** The fields of [strings.FieldsFunc] *)

Lemma fields_from_brace_free (cur s : gostring) :
  brace_free cur = true ->
  Forall (fun f => brace_free f = true /\ f <> []) (fields_from is_brace cur s).
Proof.
  revert cur. induction s as [|c s IH]; intros cur Hcur; simpl.
  - destruct cur; [constructor|]. by repeat constructor.
  - destruct (is_brace c) eqn:Hc.
    + destruct cur; [by apply IH|]. constructor; [done|by apply IH].
    + apply IH. rewrite brace_free_app, Hcur. simpl. by rewrite Hc.
Qed.

Lemma FieldsFunc_brace_free (s : gostring) :
  Forall (fun f => brace_free f = true /\ f <> []) (FieldsFunc s is_brace).
Proof. by apply fields_from_brace_free. Qed.

Lemma fields_from_text (cur x s : gostring) :
  brace_free x = true -> fields_from is_brace cur (x ++ s) = fields_from is_brace (cur ++ x) s.
Proof.
  revert cur. induction x as [|c x IH]; intros cur Hx; simpl.
  - by rewrite app_nil_r.
  - simpl in Hx. apply andb_true_iff in Hx as [Hc Hx]. apply negb_true_iff in Hc.
    rewrite Hc, IH by done. by rewrite <- app_assoc.
Qed.

Lemma fields_from_token (cur n s : gostring) :
  brace_free n = true -> n <> [] ->
  exists before, fields_from is_brace cur (tok n ++ s)
                 = before ++ n :: fields_from is_brace [] s.
Proof.
  intros Hn Hne. change (tok n ++ s) with ("{"%char :: (n ++ ["}"%char]) ++ s).
  rewrite <- app_assoc. cbn [fields_from]. change (is_brace "{") with true. cbv iota.
  assert (fields_from is_brace [] (n ++ ["}"%char] ++ s) = n :: fields_from is_brace [] s) as E.
  { rewrite fields_from_text by done. simpl. change (is_brace "}") with true. cbv iota.
    by destruct n. }
  rewrite E. destruct cur; [by exists []|by eexists [_]].
Qed.

(** The name of every token of a marked path is among its fields. *)
Lemma token_names_fields (cs : list chunk) (n : gostring) :
  forallb chunk_ok cs = true -> n ∈ token_names cs -> n <> [] ->
  n ∈ FieldsFunc (chunks_text cs) is_brace.
Proof.
  intros Hcs Hn Hne. unfold FieldsFunc.
  enough (forall cur, n ∈ fields_from is_brace cur (chunks_text cs)) by done.
  revert Hcs Hn. induction cs as [|c cs IH]; intros Hcs Hn cur; [by apply elem_of_nil in Hn|].
  cbn [forallb] in Hcs. apply andb_true_iff in Hcs as [Hc Hcs].
  unfold chunks_text. cbn [flat_map]. fold (chunks_text cs).
  destruct c as [t|m]; cbn [token_names chunk_text chunk_ok] in *.
  - rewrite fields_from_text by done. by apply IH.
  - destruct (decide (m = [])) as [->|Hm].
    + apply elem_of_cons in Hn as [->|Hn]; [done|].
      cbn [fields_from app]. change (is_brace "{") with true. change (is_brace "}") with true.
      cbv iota. destruct cur; [by apply IH|]. right. by apply IH.
    + destruct (fields_from_token cur m (chunks_text cs) Hc Hm) as [before ->].
      apply elem_of_app. right. apply elem_of_cons in Hn as [->|Hn]; [by left|].
      right. by apply IH.
Qed.

(** *** The substitution loop *)

Lemma substitute_text (d : ResourceData) (fields : list gostring) (x s : gostring) :
  "{" ∉ x -> substitute d fields (x ++ s) = x ++ substitute d fields s.
Proof.
  intros Hx. revert s. induction fields as [|f fields IH]; intros s; [done|].
  cbn [substitute]. destruct (GetOk d f) as [v|]; [|apply IH].
  rewrite !ReplaceAll_tok, replace_from_text by done. apply IH.
Qed.

Lemma substitute_none (d : ResourceData) (fields : list gostring) (s : gostring) :
  (forall f, f ∈ fields -> GetOk d f = None) -> substitute d fields s = s.
Proof.
  induction fields as [|f fields IH]; intros H; [done|]. simpl.
  rewrite (H f) by left. apply IH. intros g Hg. apply H. by right.
Qed.

End templater_facts.

(** ** The templater *)

Section templater.

Import strings.

Lemma Contains_spec (s t : gostring) :
  Contains s t = true <-> exists pre post, s = pre ++ t ++ post.
Proof.
  induction s as [|c s IH].
  - simpl. rewrite orb_false_r, HasPrefix_spec. split.
    + intros [r H]. by exists [], r.
    + intros (pre & post & H). destruct pre; [by exists post|done].
  - cbn [Contains]. rewrite orb_true_iff, HasPrefix_spec, IH. split.
    + intros [[r H]|(pre & post & ->)]; [by exists [], r|by exists (c :: pre), post].
    + intros (pre & post & H). destruct pre as [|c' pre].
      * left. by exists post.
      * right. injection H as -> ->. by exists pre, post.
Qed.

(** An occurrence of another field's token survives a replacement: the
    occurrences replaced end before it or start after it. *)
Lemma replace_keeps_token (f new n pre post : gostring) (skip : nat) :
  brace_free f = true -> brace_free n = true -> n <> f -> skip <= length pre ->
  exists x, replace_from (tok f) new skip (pre ++ tok n ++ post)
            = x ++ tok n ++ replace_from (tok f) new 0 post.
Proof.
  intros Hf Hn Hnf. revert skip. induction pre as [|c pre IH]; intros skip Hskip.
  - simpl in Hskip. replace skip with 0 by lia. exists [].
    rewrite app_nil_l, replace_from_token by done. by case_decide.
  - destruct skip as [|k].
    + rewrite <- app_comm_cons. cbn [replace_from]. rewrite app_comm_cons.
      destruct (HasPrefix ((c :: pre) ++ tok n ++ post) (tok f)) eqn:E.
      * apply HasPrefix_spec in E as [r E]. injection E as -> E.
        change (pre ++ tok n ++ post) with (pre ++ "{"%char :: (n ++ ["}"%char]) ++ post) in E.
        symmetry in E. apply prefix_before_sep in E as (a' & -> & _).
        2:{ apply not_elem_of_app. split; [by apply brace_free_no_open|].
            apply not_elem_of_cons. split; [done|apply not_elem_of_nil]. }
        destruct (IH (length (tok f) - 1)) as [x ->].
        { simpl. rewrite !length_app. simpl. lia. }
        exists (new ++ x). by rewrite <- app_assoc.
      * destruct (IH 0) as [x ->]; [lia|]. by exists (c :: x).
    + rewrite <- app_comm_cons. cbn [replace_from]. apply IH. simpl in Hskip. lia.
Qed.

Lemma substitute_keeps_token (d : ResourceData) (fields : list gostring) (s n : gostring) :
  Forall (fun f => brace_free f = true /\ f <> []) fields ->
  brace_free n = true -> GetOk d n = None ->
  Contains s (tok n) = true -> Contains (substitute d fields s) (tok n) = true.
Proof.
  intros Hfields Hn Hd. revert s. induction Hfields as [|f fields [Hf _] _ IH]; intros s Hs.
  - done.
  - cbn [substitute]. destruct (GetOk d f) as [v|] eqn:E; [|by apply IH].
    apply IH. apply Contains_spec in Hs as (pre & post & ->).
    destruct (replace_keeps_token f v n pre post 0) as [x Hx]; [done|done|congruence|lia|].
    rewrite ReplaceAll_tok, Hx. apply Contains_spec. eauto.
Qed.

(** An endpoint without a ['/'] has no segment at index 1. *)
Lemma templater_panics_without_slash :
  ParsePath (str "transform") (str "transform") ∅ = PanicIndexOutOfRange 1 1.
Proof. reflexivity. Qed.

(** C5, as the code has it.  For every endpoint with a ['/'] in it, every
    mount path and every field lookup, [ParsePath] returns a string; every
    placeholder [{name}] of the recomprised path whose name is not set in
    the lookup is still in the returned path.  With no field set,
    [ParsePath("transform", "/transform/role/{name}", d)] returns
    "/transform/role/{name}" unchanged. *)
Theorem templater_passes_unresolved_through :
  (forall (mount endpoint : gostring) (d : ResourceData),
     "/" ∈ endpoint ->
     exists seg0 seg1 rest resolved,
       Split endpoint "/" = seg0 :: seg1 :: rest /\
       ParsePath mount endpoint d = Returns resolved /\
       forall name,
         brace_free name = true -> GetOk d name = None ->
         Contains ("/"%char :: Join (mount :: rest) ["/"%char]) (tok name) = true ->
         Contains resolved (tok name) = true) /\
  ParsePath (str "transform") (str "/transform/role/{name}") ∅
  = Returns (str "/transform/role/{name}").
Proof.
  split; [|reflexivity]. intros mount endpoint d Hin.
  destruct (ParsePath_returns mount endpoint d Hin) as (seg0 & seg1 & rest & Hs & Hp).
  exists seg0, seg1, rest, (resolve d ("/"%char :: Join (mount :: rest) ["/"%char])).
  split; [done|]. split; [done|]. intros name Hn Hd Hc.
  by apply substitute_keeps_token; [apply FieldsFunc_brace_free|..].
Qed.

Lemma endpoint_shape (endpoint : gostring) :
  "/" ∈ endpoint ->
  exists seg0 seg1 rest segs,
    Split endpoint "/" = seg0 :: seg1 :: segs /\
    endpoint = seg0 ++ "/"%char :: seg1 ++ rest /\ ("/" ∉ seg0) /\ ("/" ∉ seg1) /\
    (rest = [] \/ exists r, rest = "/"%char :: r) /\
    forall mount, Join (mount :: segs) ["/"%char] = mount ++ rest.
Proof.
  intros Hin. destruct (Split_with_sep _ _ Hin) as (a & b & segs & Hs & Ha).
  pose proof (Split_segments_no_sep endpoint "/") as Hall. rewrite Hs in Hall.
  inversion Hall as [|? ? _ Hall']; subst. inversion Hall' as [|? ? Hb _]; subst.
  pose proof (Join_Split endpoint "/") as HJ. rewrite Hs, Join_cons in HJ.
  destruct segs as [|c segs].
  - exists a, b, [], []. simpl in HJ. rewrite app_nil_r. split; [done|].
    split; [done|]. split; [done|]. split; [done|]. split; [by left|].
    intros mount. simpl. by rewrite app_nil_r.
  - exists a, b, ("/"%char :: Join (c :: segs) ["/"%char]), (c :: segs).
    rewrite Join_cons in HJ. split; [done|]. split; [done|]. split; [done|].
    split; [done|]. split; [right; eauto|]. intros mount. by rewrite Join_cons.
Qed.

Lemma substitute_nil (d : ResourceData) (fields : list gostring) :
  substitute d fields [] = [].
Proof.
  induction fields as [|f fields IH]; [done|]. cbn [substitute].
  destruct (GetOk d f); [|done]. by rewrite ReplaceAll_tok.
Qed.

(** A mount path that starts with a ['/'] of its own follows the ['/'] that
    [ParsePath] puts in front: the returned path starts with two. *)
Lemma mount_with_leading_slash :
  ParsePath (str "/transform") (str "/transform/role/{name}")
    {[str "name" := str "my-role"]}
  = Returns (str "//transform/role/my-role").
Proof. vm_compute. reflexivity. Qed.

(** C6, as the code has it.  For every endpoint with a ['/'] in it,
    [ParsePath] puts the mount path in the place of the segment at index 1:
    with the endpoint read as [seg0 / seg1 rest], the path that is resolved
    is one ['/'], the mount path, and [rest]; the leading segment is dropped.
    The returned path starts with that ['/']; the mount path itself follows
    when it has no brace, and its first character follows when that is not a
    ['{'], so the leading ['/'] is a single one when the mount path starts
    with a character other than ['/'] and ['{'], and the path starts with
    two when the mount path starts with a ['/'].  An empty mount path gives
    a path that starts with two ['/'] when the endpoint has a segment after
    index 1, and the path "/" when it has none.  With no field set the
    returned path is exactly ['/'], the mount path and [rest].
    [ParsePath("transform", "/transform/role/{name}", d)] with "name" set to
    "my-role" returns "/transform/role/my-role". *)
Theorem mount_replaces_segment_one :
  (forall (mount endpoint : gostring) (d : ResourceData),
     "/" ∈ endpoint ->
     exists seg0 seg1 rest resolved,
       endpoint = seg0 ++ "/"%char :: seg1 ++ rest /\
       ("/" ∉ seg0) /\ ("/" ∉ seg1) /\ (rest = [] \/ exists r, rest = "/"%char :: r) /\
       ParsePath mount endpoint d = Returns resolved /\
       resolved = resolve d ("/"%char :: mount ++ rest) /\
       (exists tail, resolved = "/"%char :: tail) /\
       (brace_free mount = true -> exists tail, resolved = "/"%char :: mount ++ tail) /\
       (forall c mount', mount = c :: mount' -> c <> "/"%char -> c <> "{"%char ->
          exists tail, resolved = "/"%char :: c :: tail) /\
       (forall mount', mount = "/"%char :: mount' ->
          exists tail, resolved = "/"%char :: "/"%char :: tail) /\
       (mount = [] ->
          (rest = [] -> resolved = ["/"%char]) /\
          (forall r, rest = "/"%char :: r ->
             exists tail, resolved = "/"%char :: "/"%char :: tail)) /\
       ((forall field, GetOk d field = None) -> resolved = "/"%char :: mount ++ rest)) /\
  ParsePath (str "transform") (str "/transform/role/{name}")
    {[str "name" := str "my-role"]}
  = Returns (str "/transform/role/my-role") /\
  ParsePath [] (str "/transform/role/{name}") {[str "name" := str "my-role"]}
  = Returns (str "//role/my-role") /\
  ParsePath [] (str "/transform") ∅ = Returns (str "/").
Proof.
  split; [|repeat split; vm_compute; reflexivity]. intros mount endpoint d Hin.
  destruct (endpoint_shape endpoint Hin)
    as (seg0 & seg1 & rest & segs & Hs & He & H0 & H1 & Hrest & HJ).
  exists seg0, seg1, rest, (resolve d ("/"%char :: mount ++ rest)).
  split; [done|]. split; [done|]. split; [done|]. split; [done|].
  split; [unfold ParsePath; by rewrite Hs, HJ|]. split; [done|]. unfold resolve.
  split; [|split; [|split; [|split; [|split]]]].
  - eexists. apply (substitute_text d _ ["/"%char] (mount ++ rest)).
    apply not_elem_of_cons. split; [done|apply not_elem_of_nil].
  - intros Hm. eexists.
    apply (substitute_text d _ ("/"%char :: mount) rest).
    apply not_elem_of_cons. split; [done|by apply brace_free_no_open].
  - intros c mount' -> Hc Hc'. eexists.
    apply (substitute_text d _ ["/"%char; c] (mount' ++ rest)).
    rewrite !not_elem_of_cons. split; [done|]. split; [congruence|apply not_elem_of_nil].
  - intros mount' ->. eexists.
    apply (substitute_text d _ ["/"%char; "/"%char] (mount' ++ rest)).
    rewrite !not_elem_of_cons. split; [done|]. split; [done|apply not_elem_of_nil].
  - intros ->. split.
    + intros ->. rewrite (substitute_text d _ ["/"%char] []).
      * by rewrite substitute_nil.
      * apply not_elem_of_cons. split; [done|apply not_elem_of_nil].
    + intros r ->. eexists.
      apply (substitute_text d _ ["/"%char; "/"%char] r).
      rewrite !not_elem_of_cons. split; [done|]. split; [done|apply not_elem_of_nil].
  - intros Hd. by apply substitute_none.
Qed.

End templater.

(** ** The lease check of the token resource *)

Section token_lease.

Import token.

Local Open Scope Z_scope.

Variable Parse : gostring -> option Z.
Variable Format : Z -> gostring.
Variable LookupAccessor : gostring -> option Secret.
Variable Renew : gostring -> Z -> option Secret.
Variable store_response : Secret -> ResourceData -> ResourceData.

(** The two comparisons leave one instant. *)
Lemma tokenCheckLease_true (d : ResourceData) (now : Z) :
  (tokenCheckLease Parse d now).1 = true ->
  exists started,
    lease_started d <> [] /\ Parse (lease_started d) = Some started /\
    lease_expiry started (lease_duration d) = now - 5 * Minute.
Proof.
  unfold tokenCheckLease.
  destruct (lease_started d) as [|c s] eqn:Hs; [discriminate|].
  destruct (Parse (c :: s)) as [started|] eqn:Hp; [|discriminate].
  unfold Before, After, Add.
  destruct (Z.ltb_spec (lease_expiry started (lease_duration d) + Minute * 5) now);
    [discriminate|].
  destruct (Z.ltb_spec (now + Minute * -5) (lease_expiry started (lease_duration d)));
    [discriminate|].
  intros _. exists started. repeat split; [discriminate | lia].
Qed.

Lemma tokenCheckLease_at_instant (d : ResourceData) (now started : Z) :
  lease_started d <> [] ->
  Parse (lease_started d) = Some started ->
  lease_expiry started (lease_duration d) = now - 5 * Minute ->
  tokenCheckLease Parse d now = (true, d).
Proof.
  intros Hne Hp He. unfold tokenCheckLease.
  destruct (lease_started d) as [|c s] eqn:Hs; [done|].
  rewrite Hp. unfold Before, After, Add. rewrite He.
  destruct (Z.ltb_spec (now - 5 * Minute + Minute * 5) now); [lia|].
  destruct (Z.ltb_spec (now + Minute * -5) (now - 5 * Minute)); [lia|done].
Qed.

Lemma tokenRead_renew (d : ResourceData) (now : Z) :
  existsb is_renew
    (tokenRead Parse Format LookupAccessor Renew store_response d now).2 = true ->
  (tokenCheckLease Parse d now).1 = true.
Proof.
  unfold tokenRead. destruct (LookupAccessor (Id d)); [|discriminate].
  destruct (tokenCheckLease Parse d now) as [[] d']; [done|].
  simpl. discriminate.
Qed.

(** Without overflow of the duration the expiry is the start plus the
    lease's seconds. *)
Lemma lease_expiry_exact (started duration : Z) :
  - 2 ^ 63 <= Second * duration < 2 ^ 63 ->
  lease_expiry started duration = started + duration * Second.
Proof.
  intros H. unfold lease_expiry, Add, Duration_mul, wrap64.
  rewrite Z.mod_small by lia. lia.
Qed.

(** C10, as the code has it.  Instants and durations are counted in
    nanoseconds, and both clock reads are taken as the one instant [now].
    For a lease duration whose nanoseconds, the duration times 1000000000,
    fit the 64 bits of [time.Duration], [tokenCheckLease] answers true
    exactly when [lease_started] is not empty and parses, and the start plus
    the duration is at most [now] minus five minutes (300000000000 ns) and at
    least [now] minus five minutes, that is, exactly five minutes before
    [now].  [tokenRead] calls [Renew] only then.  On an empty or unparsable
    [lease_started] the answer is false. *)
Theorem tokenCheckLease_degenerate_window (d : ResourceData) (now : Z) :
  - 2 ^ 63 <= 1000000000 * lease_duration d < 2 ^ 63 ->
  ((tokenCheckLease Parse d now).1 = true <->
   exists started,
     lease_started d <> [] /\ Parse (lease_started d) = Some started /\
     started + lease_duration d * 1000000000 <= now - 300000000000 /\
     now - 300000000000 <= started + lease_duration d * 1000000000) /\
  ((tokenCheckLease Parse d now).1 = true ->
   exists started,
     Parse (lease_started d) = Some started /\
     started + lease_duration d * 1000000000 = now - 300000000000) /\
  (existsb is_renew
     (tokenRead Parse Format LookupAccessor Renew store_response d now).2 = true ->
   exists started,
     Parse (lease_started d) = Some started /\
     started + lease_duration d * 1000000000 = now - 300000000000) /\
  (lease_started d = [] \/ Parse (lease_started d) = None ->
   (tokenCheckLease Parse d now).1 = false).
Proof.
  intros Hfit.
  assert (forall started,
            lease_expiry started (lease_duration d)
            = started + lease_duration d * 1000000000) as Hexp.
  { intros started. rewrite lease_expiry_exact by (unfold Second; lia).
    unfold Second. lia. }
  assert (5 * Minute = 300000000000) as Hmin by (unfold Minute, Second; lia).
  split; [split|split; [|split]].
  - intros H. destruct (tokenCheckLease_true d now H) as (st & ? & ? & He).
    rewrite Hexp, Hmin in He. exists st. repeat split; [done | done | lia | lia].
  - intros (st & Hne & Hp & Hle & Hge).
    rewrite (tokenCheckLease_at_instant d now st); [done | done | done |].
    rewrite Hexp, Hmin. lia.
  - intros H. destruct (tokenCheckLease_true d now H) as (st & ? & ? & He).
    rewrite Hexp, Hmin in He. eauto.
  - intros H. apply tokenRead_renew in H.
    destruct (tokenCheckLease_true d now H) as (st & ? & ? & He).
    rewrite Hexp, Hmin in He. eauto.
  - intros [H|H]; unfold tokenCheckLease.
    + by rewrite H.
    + destruct (lease_started d); [done|]. by rewrite H.
Qed.

End token_lease.

(** The theorem at a lease of one hour started at instant 0 and read at one
    hour and five minutes. *)
Lemma tokenCheckLease_degenerate_window_witness :
  let Parse := fun s : gostring => if bool_decide (s = str "t0") then Some 0%Z else None in
  let d := token.mkData (str "acc") (str "t0") 3600 (str "tok") in
  let now := 3900000000000%Z in
  ((token.tokenCheckLease Parse d now).1 = true <->
   exists started,
     token.lease_started d <> [] /\ Parse (token.lease_started d) = Some started /\
     (started + token.lease_duration d * 1000000000 <= now - 300000000000)%Z /\
     (now - 300000000000 <= started + token.lease_duration d * 1000000000)%Z) /\
  ((token.tokenCheckLease Parse d now).1 = true ->
   exists started,
     Parse (token.lease_started d) = Some started /\
     (started + token.lease_duration d * 1000000000)%Z = (now - 300000000000)%Z) /\
  (existsb token.is_renew
     (token.tokenRead Parse (fun _ => str "t0") (fun _ => None) (fun _ _ => None)
        (fun _ d => d) d now).2 = true ->
   exists started,
     Parse (token.lease_started d) = Some started /\
     (started + token.lease_duration d * 1000000000)%Z = (now - 300000000000)%Z) /\
  (token.lease_started d = [] \/ Parse (token.lease_started d) = None ->
   (token.tokenCheckLease Parse d now).1 = false).
Proof.
  cbv zeta.
  refine (tokenCheckLease_degenerate_window
            (fun s : gostring => if bool_decide (s = str "t0") then Some 0%Z else None)
            (fun _ => str "t0") (fun _ => None) (fun _ _ => None) (fun _ d => d)
            (token.mkData (str "acc") (str "t0") 3600 (str "tok")) 3900000000000%Z _).
  simpl. lia.
Defined.

(** A lease of 2^55 seconds: its nanoseconds do not fit, the product the
    code computes wraps around to zero, and the lease started at instant 0
    is taken to expire at instant 0.  Read five minutes later the check
    answers true, although the start plus the duration is far ahead. *)
Lemma tokenCheckLease_wraps_long_lease :
  let d := token.mkData (str "acc") (str "t0") (2 ^ 55) (str "tok") in
  let parse := fun s : gostring => if bool_decide (s = str "t0") then Some 0%Z else None in
  (token.tokenCheckLease parse d 300000000000).1 = true /\
  (0 + 2 ^ 55 * 1000000000 <=? 300000000000 - 300000000000)%Z = false.
Proof. vm_compute. done. Qed.

(** A lease of one hour started at instant 0 is renewed when read at one
    hour and five minutes, and at no other instant. *)
Example tokenCheckLease_at_expiry_plus_five :
  let d := token.mkData (str "acc") (str "t0") 3600 (str "tok") in
  let parse := fun s : gostring => if bool_decide (s = str "t0") then Some 0%Z else None in
  (token.tokenCheckLease parse d (3900 * token.Second)).1 = true /\
  (token.tokenCheckLease parse d (3900 * token.Second + 1)).1 = false /\
  (token.tokenCheckLease parse d (3900 * token.Second - 1)).1 = false.
Proof. vm_compute. done. Qed.

(** ** Fields that are not placeholders *)

Section noninterference.

Import strings.

Lemma GetOk_Some (d : ResourceData) (key v : gostring) :
  GetOk d key = Some v -> d !! key = Some v.
Proof. unfold GetOk. destruct (d !! key) as [[|c w]|]; [done| |done]. by intros [= <-]. Qed.

Lemma GetOk_agree (d1 d2 : ResourceData) (key : gostring) :
  d1 !! key = d2 !! key -> GetOk d1 key = GetOk d2 key.
Proof. unfold GetOk. by intros ->. Qed.

(** A field with no token in the marked path changes nothing, set or not. *)
Lemma substitute_step_absent (d : ResourceData) (f : gostring) (fields : list gostring)
    (cs : list chunk) :
  brace_free f = true -> forallb chunk_ok cs = true -> f ∉ token_names cs ->
  substitute d (f :: fields) (chunks_text cs) = substitute d fields (chunks_text cs).
Proof.
  intros Hf Hcs Hn. cbn [substitute]. destruct (GetOk d f) as [v|]; [|done].
  by rewrite ReplaceAll_chunks, subst_chunk_absent.
Qed.

Lemma substitute_agree (d1 d2 : ResourceData) (names fields : list gostring)
    (cs : list chunk) :
  Forall (fun f => brace_free f = true /\ f <> []) fields ->
  forallb chunk_ok cs = true ->
  (forall n, n ∈ token_names cs -> n ∈ names) ->
  (forall n, n ∈ names -> d1 !! n = d2 !! n) ->
  (forall n v, n ∈ names -> d1 !! n = Some v -> brace_free v = true) ->
  substitute d1 fields (chunks_text cs) = substitute d2 fields (chunks_text cs).
Proof.
  intros Hfields. revert cs.
  induction Hfields as [|f fields [Hf _] _ IH]; intros cs Hcs Hsub Hagree Hval; [done|].
  destruct (decide (f ∈ token_names cs)) as [Hin|Hout].
  - cbn [substitute]. rewrite <- (GetOk_agree d1 d2 f) by auto.
    destruct (GetOk d1 f) as [v|] eqn:E; [|by apply IH].
    apply GetOk_Some in E. rewrite ReplaceAll_chunks by done.
    apply IH; [apply subst_chunk_ok; eauto| |done|done].
    intros n Hn. apply subst_chunk_names in Hn as [Hn _]. auto.
  - rewrite !substitute_step_absent by done. by apply IH.
Qed.

(** A field named after the text between two placeholders is looked up and,
    when a replacement has put its token together, replaced: with the mount
    path [{{a}x}bx{] the lookups agree on every name that has a token in the
    recomprised path, and the field "bx" still changes the result. *)
Lemma literal_field_changes_result :
  (forall name,
     Contains (str "/{{a}x}bx{/{a}") (tok name) = true ->
     (<[str "bx" := str "Q"]> {[str "a" := str "b"]} : ResourceData) !! name
     = ({[str "a" := str "b"]} : ResourceData) !! name) /\
  ParsePath (str "{{a}x}bx{") (str "/t/{a}")
    (<[str "bx" := str "Q"]> {[str "a" := str "b"]})
  = Returns (str "/Qbx{/b") /\
  ParsePath (str "{{a}x}bx{") (str "/t/{a}") {[str "a" := str "b"]}
  = Returns (str "/{bx}bx{/b").
Proof.
  split; [|split; vm_compute; reflexivity].
  intros name H. destruct (decide (name = str "bx")) as [->|Hne].
  - vm_compute in H. discriminate.
  - by rewrite lookup_insert_ne.
Qed.

(** C9, as the code has it.  When the recomprised path is literal text and
    placeholder tokens [{name}] with no other brace, two lookups that agree
    on the names of those tokens, with values free of braces, give the same
    resolved path: the fields named after the text between the tokens are
    looked up, and whether they are set does not matter. *)
Theorem plain_fields_do_not_interfere (mount endpoint : gostring) (cs : list chunk)
    (d1 d2 : ResourceData) :
  "/" ∈ endpoint ->
  forallb chunk_ok cs = true ->
  "/"%char :: Join (mount :: drop 2 (Split endpoint "/")) ["/"%char] = chunks_text cs ->
  (forall name, name ∈ token_names cs -> d1 !! name = d2 !! name) ->
  (forall name value,
     name ∈ token_names cs -> d1 !! name = Some value -> brace_free value = true) ->
  ParsePath mount endpoint d1 = ParsePath mount endpoint d2.
Proof.
  intros Hin Hcs Htext Hagree Hval.
  destruct (Split_with_sep _ _ Hin) as (a & b & rest & Hs & _).
  unfold ParsePath. rewrite Hs in *.
  change (drop 2 (a :: b :: rest)) with rest in Htext. rewrite Htext.
  f_equal. unfold resolve.
  by apply (substitute_agree d1 d2 (token_names cs)); [apply FieldsFunc_brace_free|..].
Qed.

Lemma plain_fields_do_not_interfere_witness :
  ParsePath (str "transform") (str "/transform/role/{name}")
    (<[str "/transform/role/" := str "other"]> {[str "name" := str "my-role"]})
  = ParsePath (str "transform") (str "/transform/role/{name}")
      {[str "name" := str "my-role"]}.
Proof.
  apply (plain_fields_do_not_interfere (str "transform") (str "/transform/role/{name}")
           [Text (str "/transform/role/"); Token (str "name")]).
  - vm_compute. left.
  - reflexivity.
  - reflexivity.
  - intros name Hn. vm_compute in Hn. apply list_elem_of_singleton in Hn as ->.
    vm_compute. reflexivity.
  - intros name value Hn. vm_compute in Hn. apply list_elem_of_singleton in Hn as ->.
    vm_compute. intros [= <-]. reflexivity.
Defined.

End noninterference.

(** ** Rendering and extracting again *)

Section round_trip.

Import strings regexp.

Lemma Join_cons_ne (e : gostring) (es : list gostring) (sep : gostring) :
  es <> [] -> Join (e :: es) sep = e ++ sep ++ Join es sep.
Proof. by destruct es. Qed.

Lemma Join_around (before after : list gostring) (x : gostring) :
  Join (before ++ x :: after) ["/"%char] = text_before before ++ x ++ text_after after.
Proof.
  induction before as [|s before IH].
  - simpl app. revert x. induction after as [|a after IHa]; intros x.
    + simpl. by rewrite app_nil_r.
    + rewrite Join_cons, IHa. unfold text_after. simpl. done.
  - rewrite <- app_comm_cons, Join_cons_ne by (by destruct before).
    rewrite IH. unfold text_before. simpl. by rewrite <- !app_assoc.
Qed.

Lemma template_insts_cons_ne (seg : segment) (segs : list segment) :
  segs <> [] ->
  template_insts (seg :: segs) = segment_insts seg ++ Lit "/" :: template_insts segs.
Proof. by destruct segs. Qed.

Lemma template_insts_after (seg : segment) (after : list gostring) :
  template_insts (seg :: (Literal <$> after))
  = segment_insts seg ++ (Lit <$> text_after after).
Proof.
  revert seg. induction after as [|a after IHa]; intros seg.
  - simpl. by rewrite app_nil_r.
  - rewrite fmap_cons, template_insts_cons_ne, IHa by done.
    unfold text_after. simpl. by rewrite fmap_app.
Qed.

Lemma template_insts_around (before after : list gostring) (name : gostring) :
  template_insts ((Literal <$> before) ++ Placeholder name :: (Literal <$> after))
  = (Lit <$> text_before before) ++ Group name :: (Lit <$> text_after after).
Proof.
  induction before as [|s before IH].
  - simpl app. by rewrite template_insts_after.
  - rewrite fmap_cons, <- app_comm_cons, template_insts_cons_ne by (by destruct before).
    rewrite IH. unfold text_before. simpl. rewrite !fmap_app. simpl.
    by rewrite <- !app_assoc.
Qed.

Lemma match_here_lits (t : gostring) (re : Regexp) (s : gostring) :
  match_here ((Lit <$> t) ++ re) (t ++ s)
  = match match_here re s with
    | Some (m, caps) => Some (t ++ m, caps)
    | None => None
    end.
Proof.
  induction t as [|c t IH].
  - simpl. by destruct (match_here re s) as [[? ?]|].
  - rewrite fmap_cons, <- !app_comm_cons. cbn [match_here].
    rewrite (proj2 (ascii_eqb_eq c c)) by done. rewrite IH.
    by destruct (match_here re s) as [[? ?]|].
Qed.

Lemma match_here_lits_only (t : gostring) : match_here (Lit <$> t) t = Some (t, []).
Proof.
  pose proof (match_here_lits t [] []) as H. rewrite !app_nil_r in H.
  rewrite H. simpl. by rewrite app_nil_r.
Qed.

Lemma slashes_app (a b : gostring) : slashes (a ++ b) = slashes a + slashes b.
Proof. apply count_occ_app. Qed.

Lemma slashes_none (s : gostring) : "/" ∉ s -> slashes s = 0.
Proof. intros H. apply count_occ_not_In. by rewrite <- list_elem_of_In. Qed.

Lemma lit_slashes_app (a b : Regexp) : lit_slashes (a ++ b) = lit_slashes a + lit_slashes b.
Proof.
  induction a as [|[c|n|n] a IH]; simpl; [done| |done|done]. rewrite IH. lia.
Qed.

Lemma lit_slashes_lits (t : gostring) : lit_slashes (Lit <$> t) = slashes t.
Proof.
  induction t as [|c t IH]; [done|]. rewrite fmap_cons. cbn [lit_slashes].
  rewrite IH. unfold slashes. simpl.
  destruct (Ascii.eqb_spec c "/") as [->|Hc]; destruct (ascii_dec _ _); done.
Qed.

(** Every literal ['/'] of a pattern takes a ['/'] of the text it matches. *)
Lemma matches_slashes (re : Regexp) (m : gostring) (caps : list gostring) :
  matches re m caps -> lit_slashes re <= slashes m.
Proof.
  induction 1 as [|c re s caps _ IH|name re cap s caps _ _ _ IH
                 |name re cap s caps _ _ IH]; simpl.
  - done.
  - unfold slashes in *. simpl.
    destruct (Ascii.eqb_spec c "/") as [->|Hc]; destruct (ascii_dec _ _); try done; lia.
  - rewrite slashes_app. lia.
  - rewrite slashes_app. lia.
Qed.

Lemma match_here_slashes (re : Regexp) (s : gostring) r :
  match_here re s = Some r -> lit_slashes re <= slashes s.
Proof.
  destruct r as [m caps]. intros H. apply match_here_sound in H as [Hm [post ->]].
  apply matches_slashes in Hm. rewrite slashes_app. lia.
Qed.

Lemma match_here_too_few_slashes (re : Regexp) (s : gostring) :
  slashes s < lit_slashes re -> match_here re s = None.
Proof.
  intros H. destruct (match_here re s) as [r|] eqn:E; [|done].
  apply match_here_slashes in E. lia.
Qed.

Lemma slashes_suffix (x rest s : gostring) : s = x ++ rest -> slashes rest <= slashes s.
Proof. intros ->. rewrite slashes_app. lia. Qed.

Lemma no_newline_Forall (s : gostring) :
  no_newline s = true -> Forall (fun c => is_newline c = false) s.
Proof.
  unfold no_newline. rewrite forallb_forall, Forall_forall. intros H c Hc.
  apply list_elem_of_In, H in Hc. by apply negb_true_iff.
Qed.

(** The match of the pattern of a single-placeholder template on the path
    rendered from it: the mount group takes the mount and the placeholder's
    group takes the value. *)
Lemma match_rendered (name mount v a b : gostring) :
  mount <> [] -> no_newline mount = true ->
  v <> [] -> no_newline v = true -> "/" ∉ v ->
  (b = [] \/ exists b', b = "/"%char :: b') ->
  match_here (Lit "/" :: Group (str "path") :: Lit "/" ::
                (Lit <$> a) ++ Group name :: (Lit <$> b))
             ("/"%char :: mount ++ "/"%char :: a ++ v ++ b)
  = Some ("/"%char :: mount ++ "/"%char :: a ++ v ++ b, [mount; v]).
Proof.
  intros Hm Hmn Hv Hvn Hvs Hb.
  assert (match_here (Group name :: (Lit <$> b)) (v ++ b) = Some (v ++ b, [v])) as Hname.
  { cbn [match_here].
    rewrite (greedy_longest _ v b (b, [])); [done|done|by apply no_newline_Forall| |].
    - apply match_here_lits_only.
    - intros x rest' Hx ->. apply match_here_too_few_slashes.
      rewrite lit_slashes_lits. destruct Hb as [Hb|[b' Hb]]; [by destruct x|].
      destruct x as [|c x]; [done|]. injection Hb as -> <-.
      change (slashes rest' < S (slashes (x ++ rest'))). rewrite slashes_app. lia. }
  cbn [match_here]. rewrite (proj2 (ascii_eqb_eq "/" "/")) by done.
  rewrite (greedy_longest _ mount ("/"%char :: a ++ v ++ b)
             ("/"%char :: a ++ v ++ b, [v])); [done|done|by apply no_newline_Forall| |].
  - rewrite (proj2 (ascii_eqb_eq "/" "/")) by done.
    by rewrite match_here_lits, Hname, app_assoc.
  - intros x rest' Hx Hsplit.
    change (match_here (Lit "/" :: (Lit <$> a) ++ Group name :: (Lit <$> b)) rest' = None).
    apply match_here_too_few_slashes. cbn [lit_slashes]. change ("/" =? "/")%char with true.
    rewrite lit_slashes_app. cbn [lit_slashes]. rewrite !lit_slashes_lits.
    destruct x as [|c x]; [done|]. injection Hsplit as <- Hsplit.
    apply slashes_suffix in Hsplit. rewrite !slashes_app, (slashes_none v) in Hsplit by done.
    lia.
Qed.

(** *** Rendering for the lookup that sets the one field *)

(** No occurrence of a token without ['/'] reaches over a ['/']. *)
Lemma replace_from_cross (old new x rest : gostring) (skip : nat) :
  old <> [] -> "/" ∉ old -> skip <= length x ->
  replace_from old new skip (x ++ "/"%char :: rest)
  = replace_from old new skip x ++ "/"%char :: replace_from old new 0 rest.
Proof.
  intros Hne Hold. revert skip. induction x as [|c x IH]; intros skip Hskip.
  - simpl in Hskip. replace skip with 0 by lia. cbn [app replace_from].
    destruct (HasPrefix ("/"%char :: rest) old) eqn:E; [|done].
    apply HasPrefix_spec in E as [r E]. destruct old as [|o old]; [done|].
    injection E as <- _. by apply not_elem_of_cons in Hold as [? _].
  - destruct skip as [|k].
    + rewrite <- app_comm_cons. cbn [replace_from]. rewrite app_comm_cons.
      destruct (HasPrefix ((c :: x) ++ "/"%char :: rest) old) eqn:E.
      * apply HasPrefix_spec in E as [r E]. symmetry in E.
        apply prefix_before_sep in E as (a' & E & _); [|done].
        rewrite E, HasPrefix_app. rewrite IH.
        { by rewrite <- app_assoc. }
        destruct old as [|o old]; [done|]. injection E as _ ->.
        rewrite length_app. simpl. lia.
      * destruct (HasPrefix (c :: x) old) eqn:E'.
        { apply HasPrefix_spec in E' as [r E']. rewrite E', <- app_assoc in E.
          by rewrite HasPrefix_app in E. }
        rewrite IH by lia. done.
    + rewrite <- app_comm_cons. cbn [replace_from]. apply IH. simpl in Hskip. lia.
Qed.

Lemma replace_from_nonempty (old new s : gostring) :
  new <> [] -> s <> [] -> replace_from old new 0 s <> [].
Proof.
  intros Hnew Hs. destruct s as [|c s]; [done|]. cbn [replace_from].
  destruct (HasPrefix (c :: s) old); [by destruct new|done].
Qed.

Lemma replace_from_no_newline (old new s : gostring) (skip : nat) :
  no_newline new = true -> no_newline s = true ->
  no_newline (replace_from old new skip s) = true.
Proof.
  intros Hnew. revert skip. induction s as [|c s IH]; intros skip Hs; [done|].
  cbn [no_newline forallb] in Hs. apply andb_true_iff in Hs as [Hc Hs].
  cbn [replace_from]. destruct skip as [|k]; [|by apply IH].
  destruct (HasPrefix (c :: s) old).
  - unfold no_newline. rewrite forallb_app. apply andb_true_iff. split; [done|by apply IH].
  - unfold no_newline. cbn [forallb]. rewrite Hc. by apply IH.
Qed.

Lemma fields_from_anything (cur x s : gostring) :
  exists before cur', fields_from is_brace cur (x ++ s)
                      = before ++ fields_from is_brace cur' s.
Proof.
  revert cur. induction x as [|c x IH]; intros cur.
  - by exists [], cur.
  - cbn [app fields_from]. destruct (is_brace c).
    + destruct (IH []) as (before & cur' & ->).
      destruct cur as [|x0 cur]; [by exists before, cur'|].
      by exists ((x0 :: cur) :: before), cur'.
    + apply IH.
Qed.

Lemma field_of_token (x n s : gostring) :
  brace_free n = true -> n <> [] -> n ∈ FieldsFunc (x ++ tok n ++ s) is_brace.
Proof.
  intros Hn Hne. unfold FieldsFunc.
  destruct (fields_from_anything [] x (tok n ++ s)) as (before & cur' & ->).
  destruct (fields_from_token cur' n s Hn Hne) as [before' ->].
  rewrite !elem_of_app. right. right. left.
Qed.

Lemma GetOk_singleton (name v : gostring) :
  v <> [] -> GetOk {[name := v]} name = Some v.
Proof. intros Hv. unfold GetOk. rewrite lookup_singleton_eq. by destruct v. Qed.

Lemma GetOk_singleton_ne (name v f : gostring) :
  f <> name -> GetOk {[name := v]} f = None.
Proof. intros Hf. unfold GetOk. by rewrite lookup_singleton_ne. Qed.

Section rendered.

Variables name v a b : gostring.
Hypothesis Hname : forallb is_word name = true.
Hypothesis Hv : v <> [].
Hypothesis Hvb : brace_free v = true.
Hypothesis Hvn : no_newline v = true.
Hypothesis Ha : brace_free a = true.
Hypothesis Hb : brace_free b = true.

(** The recomprised path, and the rendered one, over some mount text. *)
Local Abbreviation with_token s :=
  (exists m, m <> [] /\ no_newline m = true /\
             s = "/"%char :: m ++ "/"%char :: a ++ tok name ++ b).

Local Abbreviation with_value s :=
  (exists m, m <> [] /\ no_newline m = true /\
             s = "/"%char :: m ++ "/"%char :: a ++ v ++ b).

Lemma name_brace_free : brace_free name = true.
Proof.
  unfold brace_free. rewrite forallb_forall in *. intros c Hc. apply Hname in Hc.
  apply word_facts in Hc as (_ & -> & _). done.
Qed.

Lemma tok_no_slash : "/" ∉ tok name.
Proof.
  intros Hin. apply elem_of_cons in Hin as [|Hin]; [done|].
  apply elem_of_app in Hin as [Hin|Hin].
  - rewrite forallb_forall in Hname. apply list_elem_of_In, Hname, word_facts in Hin.
    by destruct Hin.
  - apply list_elem_of_singleton in Hin. done.
Qed.

Lemma replace_mount (m rest : gostring) :
  ReplaceAll ("/"%char :: m ++ "/"%char :: rest) (tok name) v
  = "/"%char :: replace_from (tok name) v 0 m
      ++ "/"%char :: replace_from (tok name) v 0 rest.
Proof.
  rewrite ReplaceAll_tok.
  change ("/"%char :: m ++ "/"%char :: rest) with (["/"%char] ++ m ++ "/"%char :: rest).
  rewrite (replace_from_text name v ["/"%char] (m ++ "/"%char :: rest)).
  - simpl. f_equal. apply replace_from_cross; [done|apply tok_no_slash|lia].
  - apply not_elem_of_cons. split; [done|apply not_elem_of_nil].
Qed.

Lemma replace_from_plain (x : gostring) :
  brace_free x = true -> replace_from (tok name) v 0 x = x.
Proof.
  intros Hx. rewrite <- (app_nil_r x) at 1.
  rewrite replace_from_text by (by apply brace_free_no_open). by rewrite app_nil_r.
Qed.

Lemma replace_with_token (s : gostring) :
  with_token s -> with_value (ReplaceAll s (tok name) v).
Proof.
  intros (m & Hm & Hmn & ->). exists (replace_from (tok name) v 0 m).
  split; [by apply replace_from_nonempty|]. split; [by apply replace_from_no_newline|].
  rewrite replace_mount. do 2 f_equal.
  rewrite replace_from_text by (by apply brace_free_no_open). f_equal.
  rewrite replace_from_token by apply name_brace_free.
  rewrite decide_True by done. by rewrite replace_from_plain.
Qed.

Lemma replace_with_value (s : gostring) :
  with_value s -> with_value (ReplaceAll s (tok name) v).
Proof.
  intros (m & Hm & Hmn & ->). exists (replace_from (tok name) v 0 m).
  split; [by apply replace_from_nonempty|]. split; [by apply replace_from_no_newline|].
  rewrite replace_mount. rewrite (replace_from_plain (a ++ v ++ b)); [done|].
  by rewrite !brace_free_app, Ha, Hvb, Hb.
Qed.

Lemma substitute_with_value (fields : list gostring) (s : gostring) :
  with_value s -> with_value (substitute {[name := v]} fields s).
Proof.
  revert s. induction fields as [|f fields IH]; intros s Hs; [done|]. cbn [substitute].
  destruct (decide (f = name)) as [->|Hf].
  - rewrite GetOk_singleton by done. by apply IH, replace_with_value.
  - rewrite GetOk_singleton_ne by done. by apply IH.
Qed.

Lemma substitute_with_token (fields : list gostring) (s : gostring) :
  name ∈ fields -> with_token s -> with_value (substitute {[name := v]} fields s).
Proof.
  revert s. induction fields as [|f fields IH]; intros s Hin Hs;
    [by apply elem_of_nil in Hin|]. cbn [substitute].
  destruct (decide (f = name)) as [->|Hf].
  - rewrite GetOk_singleton by done. by apply substitute_with_value, replace_with_token.
  - rewrite GetOk_singleton_ne by done. apply IH; [|done].
    apply elem_of_cons in Hin as [->|Hin]; done.
Qed.

End rendered.

Lemma fmap_segment_text_literal (l : list gostring) :
  segment_text <$> (Literal <$> l) = l.
Proof. induction l as [|x l IH]; [done|]. rewrite !fmap_cons, IH. done. Qed.

Lemma literal_text_brace_free (t : gostring) :
  forallb is_literal_char t = true -> brace_free t = true.
Proof.
  unfold brace_free. rewrite !forallb_forall. intros H c Hc. apply H in Hc.
  apply literal_char_facts in Hc as (_ & _ & ->). done.
Qed.

Lemma literals_brace_free (l : list gostring) :
  forallb plain_segment (Literal <$> l) = true ->
  brace_free (text_before l) = true /\ brace_free (text_after l) = true.
Proof.
  induction l as [|x l IH]; [done|]. rewrite fmap_cons. cbn [forallb plain_segment].
  intros [Hx Hl]%andb_true_iff. destruct (IH Hl) as [IH1 IH2].
  apply literal_text_brace_free in Hx.
  change (text_before (x :: l)) with ((x ++ ["/"%char]) ++ text_before l).
  change (text_after (x :: l)) with ((["/"%char] ++ x) ++ text_after l).
  by rewrite !brace_free_app, Hx, IH1, IH2.
Qed.

Lemma text_after_head (l : list gostring) :
  text_after l = [] \/ exists b', text_after l = "/"%char :: b'.
Proof. destruct l as [|x l]; [by left|right]. by eexists. Qed.

Lemma group_names_lits (t : gostring) (re : Regexp) :
  group_names ((Lit <$> t) ++ re) = group_names re.
Proof. induction t as [|c t IH]; [done|]. by rewrite fmap_cons. Qed.

Lemma group_names_rendered (p name a b : gostring) :
  group_names (Lit "/" :: Group p :: Lit "/" :: (Lit <$> a) ++ Group name :: (Lit <$> b))
  = [p; name].
Proof.
  change (group_names (Lit "/" :: Group p :: Lit "/" :: ?r)) with (p :: group_names r).
  rewrite group_names_lits.
  change (group_names (Group name :: ?r)) with (name :: group_names r).
  rewrite <- (app_nil_r (Lit <$> b)), group_names_lits. done.
Qed.

Lemma collect_two (vaultPath endpoint p n w m v : gostring) :
  p <> [] -> n <> [] ->
  collect vaultPath endpoint ([] :: [p; n]) 0 [w; m; v] ∅
  = Extracted (<[n := v]> (<[p := m]> ∅)).
Proof.
  intros Hp Hn. cbn [collect Nat.eqb orb].
  rewrite (bool_decide_eq_false_2 (p = [])), (bool_decide_eq_false_2 (n = [])) by done.
  done.
Qed.

(** With an empty mount path the rendered path starts with two ['/'], and
    the mount group, which needs a character, finds none. *)
Lemma round_trip_fails_for_empty_mount :
  ParsePath [] (str "/transform/role/{name}") {[str "name" := str "my-role"]}
  = Returns (str "//role/my-role") /\
  PathParameters (str "/transform/role/{name}") (str "//role/my-role")
  = Failed (ParseError (str "//role/my-role") (str "/transform/role/{name}")).
Proof. split; vm_compute; reflexivity. Qed.

(** C1, as the code has it.  Take a template that starts with ['/'], has a
    mount segment (at index 1) and after it the one placeholder [{name}] among
    literal segments, where the literal text has no character of the regexp
    syntax and the name is a word of letters, digits and ['_'].  For every
    mount path that is not empty and has no newline, and every value that
    is not empty and has no ['/'], no brace and no newline, extracting the
    parameters from the path rendered with "name" set to the value succeeds
    and gives the value back under "name". *)
Theorem round_trip_single_placeholder (mountSegment : gostring)
    (before after : list gostring) (name mount v : gostring) :
  forallb plain_segment (single_placeholder mountSegment before name after) = true ->
  mount <> [] -> no_newline mount = true ->
  v <> [] -> "/" ∉ v -> brace_free v = true -> no_newline v = true ->
  exists resolved result,
    ParsePath mount (endpoint_of (single_placeholder mountSegment before name after))
      {[name := v]} = Returns resolved /\
    PathParameters (endpoint_of (single_placeholder mountSegment before name after))
      resolved = Extracted result /\
    result !! name = Some v.
Proof.
  intros Hplain Hm Hmn Hv Hvs Hvb Hvn.
  set (segs := single_placeholder mountSegment before name after) in *.
  set (a := text_before before). set (b := text_after after).
  assert (segs <> []) as Hne by done.
  pose proof (Split_endpoint_of segs Hne Hplain) as Hsplit.
  pose proof (plain_template_pattern segs Hne Hplain) as Hcompile.
  assert (segment_text <$> segs
          = [] :: mountSegment :: before ++ tok name :: after) as Hsegs.
  { unfold segs, single_placeholder.
    by rewrite !fmap_cons, fmap_app, fmap_cons, !fmap_segment_text_literal. }
  rewrite Hsegs in Hsplit. unfold segs, single_placeholder in Hplain.
  cbn [forallb] in Hplain. apply andb_true_iff in Hplain as [_ Hplain].
  apply andb_true_iff in Hplain as [_ Hplain]. rewrite forallb_app in Hplain.
  apply andb_true_iff in Hplain as [Hbefore Hplain]. cbn [forallb plain_segment] in Hplain.
  apply andb_true_iff in Hplain as [Hname Hafter].
  destruct (valid_name_word _ Hname) as [Hname_ne Hword].
  destruct (literals_brace_free before Hbefore) as [Ha _].
  destruct (literals_brace_free after Hafter) as [_ Hb]. fold a in Ha. fold b in Hb.
  (* the rendered path *)
  assert (exists m, m <> [] /\ no_newline m = true /\
            ParsePath mount (endpoint_of segs) {[name := v]}
            = Returns ("/"%char :: m ++ "/"%char :: a ++ v ++ b)) as (m & Hm' & Hmn' & Hparse).
  { unfold ParsePath. rewrite Hsplit.
    rewrite Join_cons_ne by (by destruct before). rewrite Join_around. fold a b.
    destruct (substitute_with_token name v a b Hword Hv Hvb Hvn Ha Hb
                (FieldsFunc ("/"%char :: mount ++ ["/"%char] ++ a ++ tok name ++ b) is_brace)
                ("/"%char :: mount ++ ["/"%char] ++ a ++ tok name ++ b))
      as (m & ? & ? & Hs).
    - replace ("/"%char :: mount ++ ["/"%char] ++ a ++ tok name ++ b)
        with (("/"%char :: mount ++ ["/"%char] ++ a) ++ tok name ++ b)
        by (by rewrite <- app_comm_cons, <- !app_assoc).
      apply field_of_token; [|done]. by apply name_brace_free.
    - by exists mount.
    - exists m. split; [done|]. split; [done|]. unfold resolve. by rewrite Hs. }
  exists ("/"%char :: m ++ "/"%char :: a ++ v ++ b), (<[name := v]> (<[str "path" := m]> ∅)).
  split; [done|]. split; [|by rewrite lookup_insert_eq].
  (* the extraction *)
  unfold PathParameters. rewrite Hsplit in *. rewrite Hcompile.
  assert (endpoint_regexp segs
          = Lit "/" :: Group (str "path") :: Lit "/" ::
              (Lit <$> a) ++ Group name :: (Lit <$> b)) as ->.
  { unfold endpoint_regexp, segs, single_placeholder.
    change (<[1:=Placeholder (str "path")]> (Literal [] :: Literal mountSegment :: ?rest))
      with (Literal [] :: Placeholder (str "path") :: rest).
    rewrite template_insts_cons_ne by done.
    rewrite template_insts_cons_ne by (by destruct before).
    by rewrite template_insts_around. }
  unfold FindStringSubmatch.
  rewrite (find_here _ _ _ (match_rendered name m v a b Hm' Hmn' Hv Hvn Hvs
                              (text_after_head after))).
  unfold SubexpNames. rewrite group_names_rendered. by apply collect_two.
Qed.

Lemma round_trip_single_placeholder_witness :
  exists resolved result,
    ParsePath (str "secrets/transform")
      (endpoint_of (single_placeholder (str "transform") [str "role"] (str "name") []))
      {[str "name" := str "my-role"]} = Returns resolved /\
    PathParameters
      (endpoint_of (single_placeholder (str "transform") [str "role"] (str "name") []))
      resolved = Extracted result /\
    result !! str "name" = Some (str "my-role").
Proof.
  apply (round_trip_single_placeholder (str "transform") [str "role"] [] (str "name")
           (str "secrets/transform") (str "my-role")).
  - reflexivity.
  - discriminate.
  - reflexivity.
  - discriminate.
  - intros H. vm_compute in H. apply list_elem_of_In in H. simpl in H.
    intuition discriminate.
  - reflexivity.
  - reflexivity.
Defined.

End round_trip.

(** ** The slice helpers of package [util] *)

Section slice_helpers.

Import util.

Context {A : Type} `{EqDecision A}.

Lemma has_element_from_found (i : Z) (items : list A) (search : A) :
  search ∈ items ->
  exists k : nat,
    has_element_from i items search = (true, (i + Z.of_nat k)%Z) /\
    items !! k = Some search /\
    forall j : nat, (j < k)%nat -> items !! j <> Some search.
Proof.
  revert i. induction items as [|ele rest IH]; intros i Hin; [by apply elem_of_nil in Hin|].
  simpl. destruct (decide (ele = search)) as [->|Hne].
  - exists 0%nat. split; [f_equal; lia|]. split; [done|]. intros j Hj. lia.
  - apply elem_of_cons in Hin as [->|Hin]; [done|].
    destruct (IH (i + 1)%Z Hin) as (k & Hk & Hl & Hfirst). exists (S k).
    split; [rewrite Hk; f_equal; lia|]. split; [done|].
    intros [|j] Hj; simpl; [congruence|]. apply Hfirst. lia.
Qed.

Lemma has_element_from_missing (i : Z) (items : list A) (search : A) :
  search ∉ items -> has_element_from i items search = (false, (-1)%Z).
Proof.
  revert i. induction items as [|ele rest IH]; intros i Hin; [done|].
  apply not_elem_of_cons in Hin as [Hne Hin]. simpl.
  destruct (decide (ele = search)); [congruence|]. by apply IH.
Qed.

(** X5.  [SliceHasElement] finds the first element equal to [search]: it answers
    true exactly when the slice has such an element, the index is then the
    least one holding it, and it is -1 when there is none. *)
Theorem SliceHasElement_first (items : list A) (search : A) :
  ((SliceHasElement items search).1 = true <-> search ∈ items) /\
  (search ∈ items ->
   exists k : nat,
     SliceHasElement items search = (true, Z.of_nat k) /\
     items !! k = Some search /\
     forall j : nat, (j < k)%nat -> items !! j <> Some search) /\
  (search ∉ items -> SliceHasElement items search = (false, (-1)%Z)).
Proof.
  unfold SliceHasElement. split; [|split].
  - destruct (decide (search ∈ items)) as [Hin|Hout].
    + destruct (has_element_from_found 0 items search Hin) as (k & -> & _). done.
    + rewrite has_element_from_missing by done. done.
  - intros Hin. destruct (has_element_from_found 0 items search Hin) as (k & Hk & ?).
    exists k. by rewrite Hk.
  - apply has_element_from_missing.
Qed.

Lemma SliceAppendIfMissing_present (items : list A) (search : A) :
  search ∈ items -> SliceAppendIfMissing items search = items.
Proof.
  intros Hin. unfold SliceAppendIfMissing, SliceHasElement.
  destruct (has_element_from_found 0 items search Hin) as (k & -> & _). done.
Qed.

Lemma SliceAppendIfMissing_missing (items : list A) (search : A) :
  search ∉ items -> SliceAppendIfMissing items search = items ++ [search].
Proof.
  intros Hin. unfold SliceAppendIfMissing, SliceHasElement.
  by rewrite has_element_from_missing.
Qed.

(** X6.  [SliceAppendIfMissing] makes [search] an element and adds nothing else:
    the slice is returned as it is when it has the element and with the
    element at its end otherwise, so appending twice is appending once, and a
    slice without repeated elements stays one. *)
Theorem SliceAppendIfMissing_set_insert (items : list A) (search : A) :
  search ∈ SliceAppendIfMissing items search /\
  (forall x, x ∈ SliceAppendIfMissing items search <-> x ∈ items \/ x = search) /\
  (search ∈ items -> SliceAppendIfMissing items search = items) /\
  (search ∉ items -> SliceAppendIfMissing items search = items ++ [search]) /\
  SliceAppendIfMissing (SliceAppendIfMissing items search) search
  = SliceAppendIfMissing items search /\
  (NoDup items -> NoDup (SliceAppendIfMissing items search)).
Proof.
  destruct (decide (search ∈ items)) as [Hin|Hout].
  - rewrite !SliceAppendIfMissing_present by (by rewrite ?SliceAppendIfMissing_present).
    split; [done|]. split; [|done]. intros x. split; [by left|]. by intros [?| ->].
  - rewrite (SliceAppendIfMissing_missing items) by done.
    assert (search ∈ items ++ [search]) as Hin' by (apply elem_of_app; right; left).
    rewrite SliceAppendIfMissing_present by done. split; [done|].
    split; [|split; [done|split; [done|split; [done|]]]].
    + intros x. rewrite elem_of_app, list_elem_of_singleton. done.
    + intros Hnd. apply NoDup_app. split; [done|]. split; [|apply NoDup_singleton].
      intros x Hx ->%list_elem_of_singleton. done.
Qed.

Lemma last_lookup_app (pre : list A) (z : A) :
  (pre ++ [z]) !! (length (pre ++ [z]) - 1)%nat = Some z.
Proof.
  rewrite length_app. simpl. replace (length pre + 1 - 1)%nat with (length pre) by lia.
  by rewrite list_lookup_middle.
Qed.

Lemma insert_at_length (pre post : list A) (x y : A) :
  <[length pre := y]> (pre ++ x :: post) = pre ++ y :: post.
Proof. induction pre as [|p pre IH]; simpl; [done|]. by f_equal. Qed.

(** What [SliceRemoveIfPresent] does on a slice that holds [search], read at
    its first occurrence. *)
Lemma SliceRemoveIfPresent_found (pre post : list A) (search : A) :
  search ∉ pre ->
  SliceRemoveIfPresent (pre ++ search :: post) search
  = match reverse post with
    | [] => Returns (pre ++ [search], pre)
    | z :: tsop => Returns (pre ++ z :: reverse tsop ++ [z], pre ++ z :: reverse tsop)
    end.
Proof.
  intros Hpre. unfold SliceRemoveIfPresent, SliceHasElement.
  assert (search ∈ pre ++ search :: post) as Hin by (apply elem_of_app; right; left).
  destruct (has_element_from_found 0 _ search Hin) as (k & -> & Hk & Hfirst).
  assert (k = length pre) as ->.
  { destruct (Nat.lt_trichotomy k (length pre)) as [Hlt|[->|Hgt]]; [|done|].
    - rewrite lookup_app_l in Hk by done. apply list_elem_of_lookup_2 in Hk. done.
    - exfalso. apply (Hfirst (length pre) Hgt). by rewrite list_lookup_middle. }
  replace (Z.to_nat (0 + Z.of_nat (length pre))) with (length pre) by lia.
  destruct (reverse post) as [|z tsop] eqn:E.
  - apply (f_equal reverse) in E. rewrite reverse_involutive in E. subst post.
    change (reverse []) with (@nil A).
    rewrite last_lookup_app. rewrite length_app. simpl.
    replace (length pre + 1 - 1)%nat with (length pre) by lia.
    rewrite insert_at_length. by rewrite take_app_length.
  - apply (f_equal reverse) in E. rewrite reverse_involutive, reverse_cons in E.
    subst post.
    replace (pre ++ search :: reverse tsop ++ [z])
      with ((pre ++ search :: reverse tsop) ++ [z]) by (by rewrite <- app_assoc).
    rewrite last_lookup_app. rewrite <- app_assoc. simpl.
    rewrite insert_at_length.
    replace (length (pre ++ search :: reverse tsop ++ [z]) - 1)%nat
      with (length (pre ++ z :: reverse tsop)).
    2:{ rewrite !length_app. simpl. rewrite !length_app. simpl. lia. }
    replace (pre ++ z :: reverse tsop ++ [z])
      with ((pre ++ z :: reverse tsop) ++ [z]) at 2 by (by rewrite <- app_assoc).
    by rewrite take_app_length.
Qed.

Lemma first_occurrence (items : list A) (search : A) :
  search ∈ items -> exists pre post, items = pre ++ search :: post /\ search ∉ pre.
Proof.
  intros Hin. apply list_elem_of_split_l in Hin as (pre & post & -> & Hpre). eauto.
Qed.

Lemma SliceRemoveIfPresent_cases (items : list A) (search : A) :
  exists caller result,
    SliceRemoveIfPresent items search = Returns (caller, result) /\
    length caller = length items /\
    (search ∉ items -> caller = items /\ result = items) /\
    (search ∈ items ->
     items ≡ₚ search :: result /\ S (length result) = length items).
Proof.
  destruct (decide (search ∈ items)) as [Hin|Hout].
  - destruct (first_occurrence items search Hin) as (pre & post & -> & Hpre).
    rewrite SliceRemoveIfPresent_found by done.
    destruct (reverse post) as [|z tsop] eqn:E;
      apply (f_equal reverse) in E; rewrite reverse_involutive in E; subst post.
    + eexists _, _. split; [done|]. split; [done|].
      split; [intros Hc; by destruct (Hc Hin)|]. intros _.
      change (reverse []) with (@nil A). split.
      * by rewrite Permutation_app_comm.
      * rewrite length_app. simpl. lia.
    + eexists _, _. split; [done|]. rewrite reverse_cons.
      split; [rewrite !length_app; simpl; rewrite !length_app; simpl; lia|].
      split; [intros Hc; rewrite reverse_cons in Hin; by destruct (Hc Hin)|].
      intros _. split.
      * rewrite <- (Permutation_middle pre). apply perm_skip, Permutation_app_head.
        symmetry. apply Permutation_cons_append.
      * rewrite !length_app. simpl. rewrite !length_app. simpl. lia.
  - unfold SliceRemoveIfPresent, SliceHasElement.
    rewrite has_element_from_missing by done. eexists _, _. by repeat split.
Qed.

(** X7.  [SliceRemoveIfPresent] never indexes out of range.  A slice without
    [search] is returned as it is.  In a slice with [search] it writes the
    last element over the first occurrence of [search] and returns the slice
    without its last element: read as [pre ++ search :: mid ++ \[z\]], the
    caller's slice becomes [pre ++ z :: mid ++ \[z\]] and the slice returned
    is [pre ++ z :: mid], so the order is not kept; when [search] is the last
    element the slice returned is [pre].  The slice returned is one element
    shorter and, with [search] put back, a permutation of the slice given;
    the caller's slice keeps its length. *)
Theorem SliceRemoveIfPresent_removes_one (items : list A) (search : A) :
  (search ∉ items -> SliceRemoveIfPresent items search = Returns (items, items)) /\
  (forall pre post,
     items = pre ++ search :: post -> search ∉ pre ->
     (post = [] -> SliceRemoveIfPresent items search = Returns (pre ++ [search], pre)) /\
     (forall mid z,
        post = mid ++ [z] ->
        SliceRemoveIfPresent items search
        = Returns (pre ++ z :: mid ++ [z], pre ++ z :: mid))) /\
  (exists caller result,
     SliceRemoveIfPresent items search = Returns (caller, result) /\
     length caller = length items /\
     (search ∈ items ->
      items ≡ₚ search :: result /\ S (length result) = length items)).
Proof.
  split; [|split].
  - intros Hout. unfold SliceRemoveIfPresent, SliceHasElement.
    by rewrite has_element_from_missing.
  - intros pre post -> Hpre. rewrite SliceRemoveIfPresent_found by done. split.
    + by intros ->.
    + intros mid z ->. by rewrite reverse_snoc, reverse_involutive.
  - destruct (SliceRemoveIfPresent_cases items search)
      as (caller & result & Heq & Hlen & _ & Hin).
    by exists caller, result.
Qed.

(** X8.  Removing what [SliceAppendIfMissing] has added gives the slice back, in
    its order: the element sits at the end, where the removal cuts. *)
Theorem SliceRemove_after_append (items : list A) (search : A) :
  search ∉ items ->
  SliceRemoveIfPresent (SliceAppendIfMissing items search) search
  = Returns (items ++ [search], items).
Proof.
  intros Hout. rewrite SliceAppendIfMissing_missing by done.
  by rewrite (SliceRemoveIfPresent_found items [] search).
Qed.

(** X9.  On a slice without repeated elements the removal is complete: the slice
    returned no longer holds [search] and has no repeated element. *)
Theorem SliceRemoveIfPresent_set_remove (items : list A) (search : A) :
  NoDup items ->
  exists caller result,
    SliceRemoveIfPresent items search = Returns (caller, result) /\
    (search ∉ result) /\ NoDup result /\
    (forall x, x ∈ result <-> x ∈ items /\ x <> search).
Proof.
  intros Hnd.
  destruct (SliceRemoveIfPresent_cases items search)
    as (caller & result & Heq & _ & Hout & Hin).
  exists caller, result. split; [done|].
  destruct (decide (search ∈ items)) as [Hs|Hs].
  - destruct (Hin Hs) as [Hperm _]. rewrite Hperm in Hnd.
    apply NoDup_cons in Hnd as [Hnot Hnd]. split; [done|]. split; [done|].
    intros x. rewrite Hperm, elem_of_cons. split.
    + intros Hx. split; [by right|]. by intros ->.
    + intros [[->|Hx] Hne]; done.
  - destruct (Hout Hs) as [_ ->]. split; [done|]. split; [done|].
    intros x. split; [|by intros [? _]]. intros Hx. split; [done|]. by intros ->.
Qed.

End slice_helpers.

(** The removal moves the last element forward. *)
Example SliceRemoveIfPresent_changes_order :
  util.SliceRemoveIfPresent [1; 2; 3; 4] 2 = Returns ([1; 4; 3; 4], [1; 4; 3]).
Proof. reflexivity. Qed.

Lemma SliceRemove_after_append_witness :
  util.SliceRemoveIfPresent (util.SliceAppendIfMissing [1%nat; 2%nat] 3%nat) 3%nat
  = Returns ([1%nat; 2%nat] ++ [3%nat], [1%nat; 2%nat]).
Proof.
  apply (SliceRemove_after_append [1%nat; 2%nat] 3%nat).
  intros Hin. apply list_elem_of_In in Hin. simpl in Hin. lia.
Defined.

Lemma SliceRemoveIfPresent_set_remove_witness :
  exists caller result,
    util.SliceRemoveIfPresent [1%nat; 2%nat; 3%nat] 1%nat = Returns (caller, result) /\
    (1%nat ∉ result) /\ NoDup result /\
    (forall x, x ∈ result <-> x ∈ [1%nat; 2%nat; 3%nat] /\ x <> 1%nat).
Proof.
  apply (SliceRemoveIfPresent_set_remove [1%nat; 2%nat; 3%nat] 1%nat).
  repeat (apply NoDup_cons; split;
          [intros Hx; apply list_elem_of_In in Hx; simpl in Hx; lia|]).
  apply NoDup_nil_2.
Defined.


(** ** The list helpers of package [util] *)

Section list_helpers.

Import util.

Lemma conflicts_elem (self : gostring) (group : list gostring) (x : gostring) :
  x ∈ conflicts self group <-> x ∈ group /\ x <> self.
Proof.
  induction group as [|item rest IH]; simpl.
  - split; [by intros ?%elem_of_nil|by intros [?%elem_of_nil _]].
  - case_bool_decide as Hi.
    + subst item. rewrite IH, elem_of_cons. split; [intros [? ?]; auto|].
      intros [[->|?] ?]; done.
    + rewrite !elem_of_cons, IH. split.
      * intros [->|[? ?]]; auto.
      * intros [[->|?] ?]; auto.
Qed.

Lemma conflicts_filter (self : gostring) (group : list gostring) :
  conflicts self group = filter (fun item => item <> self) group.
Proof.
  induction group as [|item rest IH]; [done|]. simpl. case_bool_decide as Hi.
  - rewrite filter_cons_False by (by intros ?). done.
  - rewrite filter_cons_True by done. by f_equal.
Qed.

(** X10.  [CalculateConflictsWith] never lists [self].  For a group of two or
    more it returns the other items of the group, in their order, so between
    two items of the group the relation is symmetric; for a group of fewer
    than two it returns nothing, whatever the one item is. *)
Theorem CalculateConflictsWith_others (self : gostring) (group : list gostring) :
  (self ∉ CalculateConflictsWith self group) /\
  (length group < 2 -> CalculateConflictsWith self group = []) /\
  (2 <= length group ->
   CalculateConflictsWith self group = filter (fun item => item <> self) group /\
   (forall x, x ∈ CalculateConflictsWith self group <-> x ∈ group /\ x <> self) /\
   (forall other, self ∈ group -> other ∈ group ->
      (other ∈ CalculateConflictsWith self group
       <-> self ∈ CalculateConflictsWith other group))).
Proof.
  unfold CalculateConflictsWith. split; [|split].
  - destruct (length group <? 2)%nat; [apply not_elem_of_nil|].
    rewrite conflicts_elem. by intros [_ ?].
  - intros Hlen. apply Nat.ltb_lt in Hlen. by rewrite Hlen.
  - intros Hlen. apply Nat.ltb_ge in Hlen. rewrite Hlen.
    split; [apply conflicts_filter|]. split; [apply conflicts_elem|].
    intros other Hs Ho. rewrite !conflicts_elem. split; intros [_ Hne]; split; done.
Qed.

Local Abbreviation quote := ("034"%char).

Local Abbreviation quote_free := (fun value : gostring => quote ∉ value).

(** What follows a quoted value in the list: the closing bracket, or the
    separator and the values after it. *)
Local Abbreviation after_value values :=
  (match values with
   | [] => ["]"%char]
   | _ :: _ => str ", " ++ strings.Join (quoted <$> values) (str ", ") ++ ["]"%char]
   end).

Lemma ArrayToTerraformList_cons (value : gostring) (values : list gostring) :
  ArrayToTerraformList (value :: values)
  = "["%char :: quote :: value ++ quote :: after_value values.
Proof.
  unfold ArrayToTerraformList. rewrite fmap_cons. destruct values as [|v vs].
  - simpl. unfold quoted. by rewrite <- app_assoc.
  - rewrite fmap_cons, Join_cons. unfold quoted at 1. simpl.
    rewrite <- !app_assoc. done.
Qed.

Lemma after_value_inj (vs ws : list gostring) :
  (strings.Join (quoted <$> vs) (str ", ") ++ ["]"%char]
   = strings.Join (quoted <$> ws) (str ", ") ++ ["]"%char] -> vs = ws) ->
  after_value vs = after_value ws -> vs = ws.
Proof.
  intros IH. destruct vs as [|v vs], ws as [|w ws]; [done|done|done|].
  intros H. apply IH. by injection H.
Qed.

Lemma ArrayToTerraformList_inj (vs ws : list gostring) :
  Forall quote_free vs -> Forall quote_free ws ->
  ArrayToTerraformList vs = ArrayToTerraformList ws -> vs = ws.
Proof.
  intros Hvs. revert ws. induction Hvs as [|v vs Hv Hvs IH]; intros ws Hws.
  - destruct ws as [|w ws]; [done|]. rewrite ArrayToTerraformList_cons. done.
  - destruct Hws as [|w ws Hw Hws]; [by rewrite ArrayToTerraformList_cons|].
    rewrite !ArrayToTerraformList_cons. intros H. injection H as H.
    apply app_inj_sep in H as [-> H]; [|done|done]. f_equal.
    apply after_value_inj; [|done]. intros H'. apply IH; [done|].
    unfold ArrayToTerraformList. by rewrite H'.
Qed.

(** X11.  [ArrayToTerraformList] quotes the values and escapes nothing.  Lists of
    values without a double quote are told apart by their text; a value with
    a quote in it can pass for two: the one value [a", "b] and the two values
    [a] and [b] give the same text. *)
Theorem ArrayToTerraformList_quotes :
  (forall vs ws : list gostring,
     Forall (fun value => "034"%char ∉ value) vs ->
     Forall (fun value => "034"%char ∉ value) ws ->
     ArrayToTerraformList vs = ArrayToTerraformList ws -> vs = ws) /\
  ArrayToTerraformList [] = str "[]" /\
  ArrayToTerraformList [str "a" ++ "034"%char :: str ", " ++ "034"%char :: str "b"]
  = ArrayToTerraformList [str "a"; str "b"].
Proof.
  split; [|split; reflexivity]. intros vs ws. apply ArrayToTerraformList_inj.
Qed.

Lemma append_strings_spec (strList : list gostring) (jsonList : list value) :
  append_strings strList jsonList
  = match ToStringArray jsonList with
    | Asserted output => Asserted (strList ++ output)
    | PanicInterfaceConversion => PanicInterfaceConversion
    end.
Proof.
  revert strList. induction jsonList as [|[s|] rest IH]; intros strList; simpl.
  - by rewrite app_nil_r.
  - rewrite IH. destruct (ToStringArray rest); [|done]. by rewrite <- app_assoc.
  - done.
Qed.

(** X12.  [ToStringArray] and [JsonStringArrayToStringArray] are the same
    conversion: on a slice of strings both return those strings, in order,
    and on a slice with any other element both panic on the type
    assertion. *)
Theorem string_array_conversions (input : list value) :
  JsonStringArrayToStringArray input = ToStringArray input /\
  (forall strs, input = VString <$> strs -> ToStringArray input = Asserted strs) /\
  (forall output, ToStringArray input = Asserted output -> input = VString <$> output) /\
  (VOther ∈ input -> ToStringArray input = PanicInterfaceConversion).
Proof.
  split; [|split; [|split]].
  - unfold JsonStringArrayToStringArray. rewrite append_strings_spec.
    by destruct (ToStringArray input).
  - intros strs ->. induction strs as [|s strs IH]; [done|].
    rewrite fmap_cons. cbn [ToStringArray]. by rewrite IH.
  - revert input. induction input as [|[s|] rest IH]; intros output; simpl.
    + by intros [= <-].
    + destruct (ToStringArray rest) as [out|]; [|done]. intros [= <-].
      by rewrite (IH out).
    + done.
  - induction input as [|[s|] rest IH]; intros Hin; simpl.
    + by apply elem_of_nil in Hin.
    + apply elem_of_cons in Hin as [|Hin]; [done|]. by rewrite IH.
    + done.
Qed.

End list_helpers.

(** ** Suffixes, prefixes and separators *)

Section gostrings_facts.

Import gostrings.

Lemma HasSuffix_spec (s suffix : gostring) :
  HasSuffix s suffix = true <-> exists x, s = x ++ suffix.
Proof.
  unfold HasSuffix. rewrite andb_true_iff, Nat.leb_le, bool_decide_eq_true. split.
  - intros [Hlen Hd]. exists (take (length s - length suffix) s).
    rewrite <- Hd at 2. by rewrite take_drop.
  - intros [x ->]. rewrite length_app. split; [lia|].
    replace (length x + length suffix - length suffix) with (length x) by lia.
    by rewrite drop_app_length.
Qed.

Lemma HasSuffix_app (x suffix : gostring) : HasSuffix (x ++ suffix) suffix = true.
Proof. apply HasSuffix_spec. eauto. Qed.

Lemma take_suffix (x suffix : gostring) (n : nat) :
  n <= length suffix ->
  take (length (x ++ suffix) - n) (x ++ suffix) = x ++ take (length suffix - n) suffix.
Proof.
  intros Hn. rewrite length_app.
  replace (length x + length suffix - n) with (length x + (length suffix - n)) by lia.
  by rewrite take_app_add.
Qed.

(** A string whose last character is not the last of [suffix] does not end
    in [suffix]. *)
Lemma HasSuffix_last (x : gostring) (c : ascii) (suffix' : gostring) (c' : ascii) :
  c <> c' -> HasSuffix (x ++ [c]) (suffix' ++ [c']) = false.
Proof.
  intros Hc. destruct (HasSuffix _ _) eqn:E; [|done].
  apply HasSuffix_spec in E as [y E]. rewrite app_assoc in E.
  apply app_inj_tail in E as [_ ?]. done.
Qed.

Lemma TrimSuffix_app (x suffix : gostring) : TrimSuffix (x ++ suffix) suffix = x.
Proof.
  unfold TrimSuffix. rewrite HasSuffix_app, length_app.
  replace (length x + length suffix - length suffix) with (length x) by lia.
  by rewrite take_app_length.
Qed.

Lemma TrimSuffix_other (s suffix : gostring) :
  HasSuffix s suffix = false -> TrimSuffix s suffix = s.
Proof. unfold TrimSuffix. by intros ->. Qed.

Lemma split_from_skip (sep cur x rest : gostring) :
  split_from sep (length x) cur (x ++ rest) = split_from sep 0 cur rest.
Proof. induction x as [|c x IH]; [by destruct rest|]. simpl. apply IH. Qed.

(** The model of [strings.Split] for a one-byte separator is the general one
    at that separator. *)
Lemma split_from_char (c : ascii) (cur s : gostring) :
  split_from [c] 0 cur s
  = match strings.Split s c with
    | seg :: segs => (cur ++ seg) :: segs
    | [] => []
    end.
Proof.
  revert cur. induction s as [|x s IH]; intros cur.
  - simpl. by rewrite app_nil_r.
  - cbn [split_from strings.Split strings.HasPrefix]. rewrite andb_true_r.
    destruct (Ascii.eqb x c).
    + simpl. rewrite IH, app_nil_r.
      destruct (strings.Split s c) as [|seg segs] eqn:E; [by apply Split_not_nil in E|done].
    + rewrite IH. destruct (strings.Split s c) as [|seg segs] eqn:E;
        [by apply Split_not_nil in E|]. by rewrite <- app_assoc.
Qed.

Lemma Split_char (s : gostring) (c : ascii) : Split s [c] = strings.Split s c.
Proof.
  unfold Split. rewrite split_from_char.
  destruct (strings.Split s c) as [|seg segs] eqn:E; [by apply Split_not_nil in E|done].
Qed.

Lemma split_from_no_sep (sep cur s : gostring) :
  strings.Contains s sep = false -> split_from sep 0 cur s = [cur ++ s].
Proof.
  revert cur. induction s as [|c s IH]; intros cur Hc.
  - simpl. by rewrite app_nil_r.
  - cbn [strings.Contains] in Hc. apply orb_false_iff in Hc as [Hp Hc].
    cbn [split_from]. rewrite Hp, IH by done. by rewrite <- app_assoc.
Qed.

Lemma first_at_step (sep : gostring) (c : ascii) (s : gostring) (n : nat) :
  first_at sep (c :: s) (S n) = true ->
  strings.HasPrefix (c :: s) sep = false /\ first_at sep s n = true.
Proof.
  unfold first_at. rewrite !andb_true_iff. intros [Hall Hn]. cbn [seq forallb] in Hall.
  apply andb_true_iff in Hall as [H0 Hall]. apply negb_true_iff in H0.
  split; [done|]. split; [|done]. rewrite <- seq_shift, forallb_forall in Hall.
  apply forallb_forall. intros i Hi. apply (Hall (S i)). by apply in_map.
Qed.

Lemma split_from_first (sep cur s : gostring) (n : nat) :
  sep <> [] -> first_at sep s n = true ->
  split_from sep 0 cur s !! 0 = Some (cur ++ take n s).
Proof.
  intros Hsep. revert cur s. induction n as [|n IH]; intros cur s Hn.
  - change (strings.HasPrefix s sep = true) in Hn. destruct s as [|c s].
    + destruct sep; done.
    + cbn [split_from]. rewrite Hn. simpl. by rewrite app_nil_r.
  - destruct s as [|c s].
    + unfold first_at in Hn. apply andb_true_iff in Hn as [_ Hn]. destruct sep; done.
    + apply first_at_step in Hn as [Hp Hn]. cbn [split_from]. rewrite Hp.
      rewrite IH by done. simpl. by rewrite <- app_assoc.
Qed.

End gostrings_facts.

(** ** [ShortDur] *)

Section short_durations.

Import gostrings util.

Variable DurationString : Z -> gostring.

Lemma strip_m0s (x : gostring) :
  take (length (x ++ str "m0s") - 2) (x ++ str "m0s") = x ++ str "m".
Proof. by rewrite (take_suffix x (str "m0s") 2) by (simpl; lia). Qed.

Lemma strip_h0m (x : gostring) :
  take (length (x ++ str "h0m") - 2) (x ++ str "h0m") = x ++ str "h".
Proof. by rewrite (take_suffix x (str "h0m") 2) by (simpl; lia). Qed.

Lemma HasSuffix_m_h0m (x : gostring) :
  HasSuffix (x ++ str "m") (str "h0m") = HasSuffix x (str "h0").
Proof.
  destruct (HasSuffix x (str "h0")) eqn:E.
  - apply HasSuffix_spec in E as [y ->]. apply HasSuffix_spec. exists y.
    by rewrite <- app_assoc.
  - destruct (HasSuffix (x ++ str "m") (str "h0m")) eqn:E'; [|done].
    apply HasSuffix_spec in E' as [y E'].
    change (str "h0m") with (str "h0" ++ str "m") in E'. rewrite app_assoc in E'.
    apply app_inj_tail in E' as [-> _]. by rewrite HasSuffix_app in E.
Qed.

Lemma HasSuffix_h (y suffix' : gostring) (c : ascii) :
  c <> "h"%char -> HasSuffix (y ++ str "h") (suffix' ++ [c]) = false.
Proof. intros Hc. apply (HasSuffix_last y "h" suffix' c). congruence. Qed.

(** The text after the two cuts, by the way the text ends. *)
Lemma ShortDur_cases (d : Z) :
  (exists y, DurationString d = y ++ str "h0m0s" /\
             ShortDur DurationString d = y ++ str "h") \/
  (exists x, DurationString d = x ++ str "m0s" /\ HasSuffix x (str "h0") = false /\
             ShortDur DurationString d = x ++ str "m") \/
  (exists y, DurationString d = y ++ str "h0m" /\
             HasSuffix (DurationString d) (str "m0s") = false /\
             ShortDur DurationString d = y ++ str "h") \/
  (HasSuffix (DurationString d) (str "m0s") = false /\
   HasSuffix (DurationString d) (str "h0m") = false /\
   ShortDur DurationString d = DurationString d).
Proof.
  unfold ShortDur. generalize (DurationString d) as s. intros s.
  destruct (HasSuffix s (str "m0s")) eqn:E1.
  - apply HasSuffix_spec in E1 as [x ->]. rewrite strip_m0s, HasSuffix_m_h0m.
    destruct (HasSuffix x (str "h0")) eqn:E2.
    + left. apply HasSuffix_spec in E2 as [y ->]. exists y.
      split; [by rewrite <- app_assoc|]. rewrite <- app_assoc.
      change (str "h0" ++ str "m") with (str "h0m"). apply strip_h0m.
    + right. left. by exists x.
  - destruct (HasSuffix s (str "h0m")) eqn:E2.
    + right. right. left. apply HasSuffix_spec in E2 as [y ->]. exists y.
      split; [done|]. split; [done|]. apply strip_h0m.
    + right. right. right. done.
Qed.

(** X13.  [ShortDur] cuts at most the zero seconds and the zero minutes off the text
    of the duration: the result is a prefix of that text and ends in neither
    "m0s" nor "h0m".  A text in whole hours, ending in "h0m0s", is cut down to
    the hours; a text ending in "m0s" after other minutes loses the seconds;
    a text with neither ending stays as it is. *)
Theorem ShortDur_trims_zero_units (d : Z) :
  (exists rest, DurationString d = ShortDur DurationString d ++ rest) /\
  HasSuffix (ShortDur DurationString d) (str "m0s") = false /\
  HasSuffix (ShortDur DurationString d) (str "h0m") = false /\
  (forall x, DurationString d = x ++ str "h0m0s" ->
             ShortDur DurationString d = x ++ str "h") /\
  (forall x, DurationString d = x ++ str "m0s" -> HasSuffix x (str "h0") = false ->
             ShortDur DurationString d = x ++ str "m") /\
  (HasSuffix (DurationString d) (str "m0s") = false ->
   HasSuffix (DurationString d) (str "h0m") = false ->
   ShortDur DurationString d = DurationString d).
Proof.
  destruct (ShortDur_cases d)
    as [(y & Hs & ->)|[(x & Hs & Hx & ->)|[(y & Hs & Hno & ->)|(Hno1 & Hno2 & ->)]]];
    rewrite ?Hs.
  - split; [exists (str "0m0s"); by rewrite <- app_assoc|].
    split; [by apply (HasSuffix_h y (str "m0"))|].
    split; [by apply (HasSuffix_h y (str "h0"))|].
    split; [intros x Hx; by apply app_inv_tail in Hx as ->|].
    split.
    + intros x Hx Hno. change (str "h0m0s") with (str "h0" ++ str "m0s") in Hx.
      rewrite app_assoc in Hx. apply app_inv_tail in Hx. subst x.
      by rewrite HasSuffix_app in Hno.
    + intros Hno. change (str "h0m0s") with (str "h0" ++ str "m0s") in Hno.
      by rewrite app_assoc, HasSuffix_app in Hno.
  - split; [exists (str "0s"); by rewrite <- app_assoc|].
    split; [apply (HasSuffix_last x "m" (str "m0") "s"); done|].
    split; [by rewrite HasSuffix_m_h0m|].
    split.
    + intros x' Hx'. change (str "h0m0s") with (str "h0" ++ str "m0s") in Hx'.
      rewrite app_assoc in Hx'. apply app_inv_tail in Hx'. subst x.
      by rewrite HasSuffix_app in Hx.
    + split; [intros x' Hx' _; by apply app_inv_tail in Hx' as ->|].
      intros Hno. by rewrite HasSuffix_app in Hno.
  - rewrite Hs in Hno.
    split; [exists (str "0m"); by rewrite <- app_assoc|].
    split; [by apply (HasSuffix_h y (str "m0"))|].
    split; [by apply (HasSuffix_h y (str "h0"))|].
    split.
    + intros x Hx. rewrite Hx in Hno. change (str "h0m0s") with (str "h0" ++ str "m0s") in Hno.
      by rewrite app_assoc, HasSuffix_app in Hno.
    + split; [intros x Hx _; rewrite Hx in Hno; by rewrite HasSuffix_app in Hno|].
      intros _ Hno'. by rewrite HasSuffix_app in Hno'.
  - split; [exists []; by rewrite app_nil_r|]. split; [done|]. split; [done|].
    split.
    + intros x Hx. rewrite Hx in Hno1. change (str "h0m0s") with (str "h0" ++ str "m0s") in Hno1.
      by rewrite app_assoc, HasSuffix_app in Hno1.
    + split; [intros x Hx _; rewrite Hx in Hno1; by rewrite HasSuffix_app in Hno1|done].
Qed.

End short_durations.

(** ** Package [codegen] and the auth backend path *)

Section codegen_facts.

Import gostrings codegen.

Lemma stripCurlyBraces_filter (path : gostring) :
  stripCurlyBraces path = filter (fun c => is_brace c = false) path.
Proof.
  unfold stripCurlyBraces. rewrite !ReplaceAll_char.
  induction path as [|c path IH]; [done|]. cbn [flat_map].
  rewrite flat_map_app, IH. unfold is_brace.
  destruct (Ascii.eqb c "{") eqn:E1; simpl.
  - by rewrite filter_cons_False by (by rewrite E1).
  - destruct (Ascii.eqb c "}") eqn:E2; simpl.
    + rewrite filter_cons_False; [done|]. rewrite E1, E2. done.
    + rewrite filter_cons_True; [done|]. by rewrite E1, E2.
Qed.

Lemma stripCurlyBraces_app (a b : gostring) :
  stripCurlyBraces (a ++ b) = stripCurlyBraces a ++ stripCurlyBraces b.
Proof. rewrite !stripCurlyBraces_filter. apply filter_app. Qed.

Lemma stripCurlyBraces_brace_free (path : gostring) :
  brace_free path = true -> stripCurlyBraces path = path.
Proof.
  rewrite stripCurlyBraces_filter. induction path as [|c path IH]; [done|].
  cbn [brace_free forallb]. intros [Hc Hp]%andb_true_iff. apply negb_true_iff in Hc.
  rewrite filter_cons_True by done. f_equal. by apply IH.
Qed.

Lemma stripCurlyBraces_result (path : gostring) :
  brace_free (stripCurlyBraces path) = true.
Proof.
  rewrite stripCurlyBraces_filter. unfold brace_free. apply forallb_forall.
  intros c Hc. apply list_elem_of_In, list_elem_of_filter in Hc as [Hc _].
  by rewrite Hc.
Qed.

Lemma stripCurlyBraces_tok (name : gostring) :
  brace_free name = true -> stripCurlyBraces (tok name) = name.
Proof.
  intros Hp. change (tok name) with (["{"%char] ++ name ++ ["}"%char]).
  rewrite !stripCurlyBraces_app, (stripCurlyBraces_brace_free name) by done.
  change (stripCurlyBraces ["{"%char]) with (@nil ascii).
  change (stripCurlyBraces ["}"%char]) with (@nil ascii). by rewrite app_nil_r.
Qed.

(** X15.  [stripCurlyBraces] deletes every brace and nothing else: the result has
    no brace, a path without braces is unchanged, stripping twice is
    stripping once, the stripped path of two parts is the stripped parts put
    together, and a placeholder leaves its name. *)
Theorem stripCurlyBraces_deletes_braces (path : gostring) :
  stripCurlyBraces path = filter (fun c => is_brace c = false) path /\
  brace_free (stripCurlyBraces path) = true /\
  (brace_free path = true -> stripCurlyBraces path = path) /\
  stripCurlyBraces (stripCurlyBraces path) = stripCurlyBraces path /\
  (forall rest, stripCurlyBraces (path ++ rest)
                = stripCurlyBraces path ++ stripCurlyBraces rest) /\
  (brace_free path = true -> stripCurlyBraces (tok path) = path).
Proof.
  split; [apply stripCurlyBraces_filter|]. split; [apply stripCurlyBraces_result|].
  split; [apply stripCurlyBraces_brace_free|].
  split; [apply stripCurlyBraces_brace_free, stripCurlyBraces_result|].
  split; [intros rest; apply stripCurlyBraces_app|]. apply stripCurlyBraces_tok.
Qed.

Lemma stripCurlyBraces_segment (seg : segment) :
  plain_segment seg = true -> stripCurlyBraces (segment_text seg) = segment_name seg.
Proof.
  destruct seg as [t|n]; simpl; intros H.
  - apply stripCurlyBraces_brace_free. by apply literal_text_brace_free.
  - destruct (valid_name_word _ H) as [_ Hw].
    apply stripCurlyBraces_tok. by apply name_brace_free.
Qed.

(** X16.  The file name of an endpoint: stripping the endpoint of a template of
    plain segments leaves its literal text and the names of its placeholders,
    still separated by ['/']. *)
Theorem stripCurlyBraces_endpoint (segs : list segment) :
  forallb plain_segment segs = true ->
  stripCurlyBraces (endpoint_of segs) = strings.Join (segment_name <$> segs) ["/"%char].
Proof.
  unfold endpoint_of. induction segs as [|seg [|seg' segs] IH]; intros H; [done| |].
  - simpl in *. apply andb_true_iff in H as [H _]. by apply stripCurlyBraces_segment.
  - cbn [forallb] in H. apply andb_true_iff in H as [H H'].
    rewrite !fmap_cons, !Join_cons, !stripCurlyBraces_app.
    rewrite stripCurlyBraces_segment by done. rewrite !fmap_cons in IH.
    rewrite IH by done. done.
Qed.

Lemma stripCurlyBraces_endpoint_witness :
  stripCurlyBraces
    (endpoint_of [Literal []; Literal (str "transform"); Literal (str "role");
                  Placeholder (str "name")])
  = strings.Join
      (segment_name <$> [Literal []; Literal (str "transform"); Literal (str "role");
                         Placeholder (str "name")]) ["/"%char].
Proof.
  apply (stripCurlyBraces_endpoint
           [Literal []; Literal (str "transform"); Literal (str "role");
            Placeholder (str "name")]).
  reflexivity.
Defined.

(** X17.  [codeFilePath] and [docFilePath] strip the whole path, the home directory
    included: the result is the stripped parts in their places and has no
    brace, so an endpoint with a placeholder and the endpoint with the bare
    name in its place get the same file; a code file and a doc file are never
    the same file. *)
Theorem file_paths_are_stripped (homeDir tmplType path : gostring) :
  codeFilePath homeDir tmplType path
  = stripCurlyBraces homeDir ++ str "/generated/" ++ stripCurlyBraces tmplType
      ++ stripCurlyBraces path ++ str ".go" /\
  docFilePath homeDir tmplType path
  = stripCurlyBraces homeDir ++ str "/website/docs/generated/"
      ++ stripCurlyBraces tmplType ++ stripCurlyBraces path ++ str ".md" /\
  brace_free (codeFilePath homeDir tmplType path) = true /\
  brace_free (docFilePath homeDir tmplType path) = true /\
  (forall pre name post,
     brace_free name = true ->
     codeFilePath homeDir tmplType (pre ++ tok name ++ post)
     = codeFilePath homeDir tmplType (pre ++ name ++ post)) /\
  (forall homeDir' tmplType' path',
     codeFilePath homeDir tmplType path <> docFilePath homeDir' tmplType' path').
Proof.
  assert (codeFilePath homeDir tmplType path
          = stripCurlyBraces homeDir ++ str "/generated/" ++ stripCurlyBraces tmplType
              ++ stripCurlyBraces path ++ str ".go") as Hcode.
  { unfold codeFilePath. by rewrite !stripCurlyBraces_app. }
  split; [done|]. split; [unfold docFilePath; by rewrite !stripCurlyBraces_app|].
  split; [apply stripCurlyBraces_result|]. split; [apply stripCurlyBraces_result|].
  split.
  - intros pre name post Hn. unfold codeFilePath.
    rewrite !stripCurlyBraces_app.
    by rewrite (stripCurlyBraces_tok name), (stripCurlyBraces_brace_free name).
  - intros homeDir' tmplType' path'. unfold codeFilePath, docFilePath.
    rewrite !app_assoc, !stripCurlyBraces_app.
    change (stripCurlyBraces (str ".go")) with (str ".g" ++ ["o"%char]).
    change (stripCurlyBraces (str ".md")) with (str ".m" ++ ["d"%char]).
    rewrite !app_assoc. intros E. apply app_inj_tail in E as [_ ?]. done.
Qed.

Lemma Split_repoName (wd : gostring) :
  Split wd repoName = split_from repoName 0 [] wd.
Proof. reflexivity. Qed.

Lemma split_from_not_nil (sep : gostring) (skip : nat) (cur s : gostring) :
  split_from sep skip cur s <> [].
Proof.
  revert skip cur. induction s as [|c s IH]; intros skip cur; [done|]. cbn [split_from].
  destruct skip; [|apply IH]. destruct (strings.HasPrefix _ _); [done|apply IH].
Qed.

(** X18.  [pathToHomeDir] is the working directory up to and including the first
    "terraform-provider-vault" in it; a working directory without that name
    gets the name put at its end.  The index 0 of the split is always in
    range, and the result always ends in the name. *)
Theorem pathToHomeDir_first_occurrence (wd : gostring) :
  (exists home, pathToHomeDir wd = Returns home /\ HasSuffix home repoName = true) /\
  (strings.Contains wd repoName = false -> pathToHomeDir wd = Returns (wd ++ repoName)) /\
  (forall n, first_at repoName wd n = true ->
             pathToHomeDir wd = Returns (take (n + length repoName) wd)).
Proof.
  unfold pathToHomeDir. rewrite Split_repoName. split; [|split].
  - destruct (split_from repoName 0 [] wd) as [|part parts] eqn:E;
      [by apply split_from_not_nil in E|].
    eexists. split; [done|]. apply HasSuffix_app.
  - intros Hc. by rewrite (split_from_no_sep repoName [] wd).
  - intros n Hn. rewrite (split_from_first repoName [] wd n) by done. f_equal.
    unfold first_at in Hn. apply andb_true_iff in Hn as [_ Hn].
    apply HasPrefix_spec in Hn as [r Hn].
    assert (length (take n wd) = n) as Hlen.
    { apply length_take_le. apply (f_equal length) in Hn. rewrite length_drop in Hn.
      rewrite length_app in Hn. assert (0 < length repoName) by (vm_compute; lia). lia. }
    rewrite <- (take_drop n wd) at 2. rewrite Hn.
    rewrite <- Hlen at 2. rewrite take_app_add, take_app_length. done.
Qed.

Lemma pathToHomeDir_first_occurrence_example :
  pathToHomeDir (str "/home/me/go/src/github.com/terraform-providers/terraform-provider-vault/codegen")
  = Returns (str "/home/me/go/src/github.com/terraform-providers/terraform-provider-vault").
Proof. vm_compute. reflexivity. Qed.

End codegen_facts.

Section auth_backend_path.

Import gostrings authbackend.

(** X19.  The diff of the auth backend's path is suppressed exactly when the two
    values differ and one is the other with its one trailing ['/'] trimmed:
    the check is symmetric, never suppresses a path against itself, and always
    suppresses a path against the same path as Vault lists it, with a ['/'] at
    the end. *)
Theorem pathDiffSuppress_trailing_slash (old new : gostring) :
  pathDiffSuppress old new = pathDiffSuppress new old /\
  pathDiffSuppress old old = false /\
  pathDiffSuppress old (old ++ ["/"%char]) = true /\
  (pathDiffSuppress old new = true <->
   old <> new /\
   (TrimSuffix new ["/"%char] = old \/ TrimSuffix old ["/"%char] = new)).
Proof.
  assert (forall s : gostring, s ++ ["/"%char] <> s) as Hne.
  { intros s E. apply (f_equal length) in E. rewrite length_app in E. simpl in E. lia. }
  unfold pathDiffSuppress. split; [apply orb_comm|]. split; [|split].
  - rewrite !bool_decide_eq_false_2; [done|apply Hne..].
  - by rewrite bool_decide_eq_true_2.
  - rewrite orb_true_iff, !bool_decide_eq_true. split.
    + intros [<-|<-].
      * split; [by intros E; symmetry in E; apply Hne in E|]. left. apply TrimSuffix_app.
      * split; [apply Hne|]. right. apply TrimSuffix_app.
    + intros [Hd [Ht|Ht]].
      * left. destruct (HasSuffix new ["/"%char]) eqn:E.
        -- apply HasSuffix_spec in E as [x ->]. by rewrite TrimSuffix_app in Ht; subst.
        -- rewrite TrimSuffix_other in Ht by done. by subst.
      * right. destruct (HasSuffix old ["/"%char]) eqn:E.
        -- apply HasSuffix_spec in E as [x ->]. by rewrite TrimSuffix_app in Ht; subst.
        -- rewrite TrimSuffix_other in Ht by done. by subst.
Qed.

End auth_backend_path.

(** ** Rendering a path with [ParsePath] *)

Section rendering.

Import strings.

(** The marked path after the loop has gone through [fields]. *)
Local Abbreviation filled d fields :=
  (fun c : chunk =>
     match c with
     | Text t => Text t
     | Token n =>
         if decide (n ∈ fields) then
           match GetOk d n with Some v => Text v | None => Token n end
         else Token n
     end).

Lemma substitute_filled (d : ResourceData) (fields : list gostring) (cs : list chunk) :
  Forall (fun f => brace_free f = true /\ f <> []) fields ->
  forallb chunk_ok cs = true ->
  (forall n v, n ∈ token_names cs -> d !! n = Some v -> brace_free v = true) ->
  substitute d fields (chunks_text cs) = chunks_text (filled d fields <$> cs).
Proof.
  intros Hfields. revert cs.
  induction Hfields as [|f fields [Hf _] _ IH]; intros cs Hcs Hval.
  - cbn [substitute]. f_equal. rewrite <- (list_fmap_id cs) at 1. apply list_fmap_ext.
    intros i [t|n] _; [done|]. cbn beta iota.
    destruct (decide (n ∈ [])) as [H%elem_of_nil|]; done.
  - cbn [substitute]. destruct (GetOk d f) as [v|] eqn:E.
    + rewrite ReplaceAll_chunks by done.
      destruct (decide (f ∈ token_names cs)) as [Hin|Hout].
      * pose proof (Hval f v Hin (GetOk_Some _ _ _ E)) as Hv.
        rewrite IH.
        -- f_equal. rewrite <- list_fmap_compose. apply list_fmap_ext.
           intros i [t|n] _; [done|]. simpl. case_decide as Hn.
           ++ subst n. rewrite decide_True by left.
              by rewrite E.
           ++ destruct (decide (n ∈ fields)) as [Hnf|Hnf].
              ** by rewrite decide_True by (by right).
              ** rewrite decide_False; [done|].
                 intros [->|H]%elem_of_cons; done.
        -- by apply subst_chunk_ok.
        -- intros n w [Hn _]%subst_chunk_names. by apply Hval.
      * rewrite subst_chunk_absent by done. rewrite IH by done. f_equal.
        apply list_fmap_ext. intros i [t|n] Hc%list_elem_of_lookup_2; [done|].
        destruct (decide (n ∈ fields)) as [Hnf|Hnf].
        -- by rewrite decide_True by (by right).
        -- rewrite decide_False; [done|]. intros [->|H]%elem_of_cons; [|done].
           apply Hout. clear -Hc. induction cs as [|[t|m] cs IHcs];
             [by apply elem_of_nil in Hc| |].
           ++ apply elem_of_cons in Hc as [|Hc]; [done|]. by apply IHcs.
           ++ apply elem_of_cons in Hc as [[= ->]|Hc]; [by left|]. right. by apply IHcs.
    + rewrite IH by done. f_equal. apply list_fmap_ext.
      intros i [t|n] _; [done|]. simpl.
      destruct (decide (n ∈ fields)) as [Hnf|Hnf].
      * by rewrite decide_True by (by right).
      * destruct (decide (n ∈ f :: fields)) as [[->|H]%elem_of_cons|]; [|done|done].
        by rewrite E.
Qed.

Lemma filled_renders (d : ResourceData) (fields : list gostring) (cs : list chunk) :
  [] ∉ fields ->
  (forall n, n ∈ token_names cs -> n <> [] -> n ∈ fields) ->
  chunks_text (filled d fields <$> cs) = render d cs.
Proof.
  intros Hnil. unfold chunks_text, render.
  induction cs as [|c cs IH]; intros Hin; [done|]. rewrite fmap_cons. cbn [flat_map].
  destruct c as [t|n]; cbn [token_names] in Hin.
  - by rewrite IH.
  - rewrite IH by (intros m Hm; apply Hin; by right). f_equal.
    cbn beta iota. destruct n as [|x n].
    + by rewrite decide_False.
    + rewrite decide_True by (apply Hin; [left|done]). cbn [render_chunk].
      by destruct (GetOk d (x :: n)).
Qed.

Lemma resolve_renders (d : ResourceData) (cs : list chunk) :
  forallb chunk_ok cs = true ->
  (forall n v, n ∈ token_names cs -> d !! n = Some v -> brace_free v = true) ->
  resolve d (chunks_text cs) = render d cs.
Proof.
  intros Hcs Hval. unfold resolve.
  rewrite substitute_filled; [|apply FieldsFunc_brace_free|done|done].
  apply filled_renders.
  - intros Hin. pose proof (FieldsFunc_brace_free (chunks_text cs)) as H.
    rewrite Forall_forall in H. by destruct (H _ Hin).
  - intros n Hn Hne. by apply token_names_fields.
Qed.

Lemma render_brace_free (d : ResourceData) (cs : list chunk) :
  forallb chunk_ok cs = true ->
  (forall n v, n ∈ token_names cs -> d !! n = Some v -> brace_free v = true) ->
  (forall n, n ∈ token_names cs -> n <> [] /\ is_Some (GetOk d n)) ->
  brace_free (render d cs) = true.
Proof.
  unfold render. induction cs as [|c cs IH]; intros Hcs Hval Hset; [done|].
  cbn [forallb] in Hcs. apply andb_true_iff in Hcs as [Hc Hcs]. cbn [flat_map].
  rewrite brace_free_app. apply andb_true_iff.
  destruct c as [t|n]; cbn [token_names] in *.
  - split; [done|]. by apply IH.
  - split; [|apply IH; [done|intros m w Hm; apply Hval; by right
                         |intros m Hm; apply Hset; by right]].
    destruct (Hset n) as [Hne [v Hv]]; [left|]. destruct n as [|x n]; [done|].
    cbn [render_chunk]. rewrite Hv. apply (Hval (x :: n)); [left|by apply GetOk_Some].
Qed.

(** X1.  On a path of literal text and placeholders [{name}] with no other brace,
    where the values of the placeholders' fields have no brace, [ParsePath]
    returns the path with every placeholder whose field is set to a value
    other than the empty string replaced by that value, and everything else
    as it is; when every placeholder has a name and is set, no brace is
    left. *)
Theorem ParsePath_fills_placeholders (mount endpoint : gostring) (cs : list chunk)
    (d : ResourceData) :
  "/" ∈ endpoint ->
  forallb chunk_ok cs = true ->
  "/"%char :: Join (mount :: drop 2 (Split endpoint "/")) ["/"%char] = chunks_text cs ->
  (forall name value,
     name ∈ token_names cs -> d !! name = Some value -> brace_free value = true) ->
  ParsePath mount endpoint d = Returns (render d cs) /\
  ((forall name, name ∈ token_names cs -> name <> [] /\ is_Some (GetOk d name)) ->
   brace_free (render d cs) = true).
Proof.
  intros Hin Hcs Htext Hval. split; [|by apply render_brace_free].
  destruct (Split_with_sep _ _ Hin) as (a & b & rest & Hs & _).
  unfold ParsePath. rewrite Hs in *.
  change (drop 2 (a :: b :: rest)) with rest in Htext. rewrite Htext.
  f_equal. by apply resolve_renders.
Qed.

Lemma ParsePath_fills_placeholders_witness :
  ParsePath (str "transform") (str "/transform/{kind}/{name}")
    {[str "name" := str "my-role"]}
  = Returns (render {[str "name" := str "my-role"]}
               [Text (str "/transform/"); Token (str "kind"); Text (str "/");
                Token (str "name")]) /\
  ((forall name,
      name ∈ token_names [Text (str "/transform/"); Token (str "kind"); Text (str "/");
                          Token (str "name")] ->
      name <> [] /\ is_Some (GetOk {[str "name" := str "my-role"]} name)) ->
   brace_free (render {[str "name" := str "my-role"]}
                 [Text (str "/transform/"); Token (str "kind"); Text (str "/");
                  Token (str "name")]) = true).
Proof.
  apply (ParsePath_fills_placeholders (str "transform") (str "/transform/{kind}/{name}")
           [Text (str "/transform/"); Token (str "kind"); Text (str "/");
            Token (str "name")]).
  - vm_compute. left.
  - reflexivity.
  - reflexivity.
  - intros name value _ Hl.
    destruct (decide (name = str "name")) as [->|Hne].
    + rewrite lookup_singleton_eq in Hl. by injection Hl as <-.
    + by rewrite lookup_singleton_ne in Hl.
Defined.

End rendering.

(** ** The round trip, in full *)

Section round_trip_exact.

Import strings regexp.





End round_trip_exact.

(** ** What [PathParameters] reads *)

Section extracted_map.

Import strings regexp.

Lemma matches_substrings (re : Regexp) (m : gostring) (caps : list gostring) :
  matches re m caps ->
  Forall (fun cap => no_newline cap = true /\ exists pre post, m = pre ++ cap ++ post) caps.
Proof.
  induction 1 as [|c re s caps _ IH|name re cap s caps Hne Hall _ IH
                 |name re cap s caps Hall _ IH]; [done| | |].
  - eapply Forall_impl; [exact IH|]. intros cap [Hn (pre & post & ->)].
    split; [done|]. by exists (c :: pre), post.
  - constructor.
    + split; [|by exists [], s]. unfold no_newline. apply forallb_forall.
      intros c Hc. rewrite Forall_forall in Hall. apply negb_true_iff, Hall.
      by apply list_elem_of_In.
    + eapply Forall_impl; [exact IH|]. intros cap' [Hn (pre & post & ->)].
      split; [done|]. exists (cap ++ pre), post. by rewrite <- app_assoc.
  - constructor.
    + split; [|by exists [], s]. unfold no_newline. apply forallb_forall.
      intros c Hc. rewrite Forall_forall in Hall. apply negb_true_iff, Hall.
      by apply list_elem_of_In.
    + eapply Forall_impl; [exact IH|]. intros cap' [Hn (pre & post & ->)].
      split; [done|]. exists (cap ++ pre), post. by rewrite <- app_assoc.
Qed.

Lemma collect_keys vaultPath endpoint names i match_ result m :
  0 < i -> collect vaultPath endpoint names i match_ result = Extracted m ->
  forall k, is_Some (m !! k) <-> is_Some (result !! k) \/ (k ∈ names /\ k <> []).
Proof.
  revert i result. induction names as [|n names IH]; intros i result Hi; cbn [collect].
  - intros [= <-] k. split; [by left|]. intros [|[H%elem_of_nil _]]; done.
  - destruct (Nat.eqb_spec i 0) as [->|_]; [lia|]. cbn [orb].
    case_bool_decide as Hn.
    + intros Hc k. rewrite (IH (S i) result) by (done || lia).
      rewrite elem_of_cons. split; [intros [|[? ?]]; auto|].
      intros [|[[->|?] ?]]; [by left|done|by right].
    + destruct (match_ !! i) as [v|]; [|done]. intros Hc k.
      rewrite (IH (S i) (<[n := v]> result)) by (done || lia).
      rewrite elem_of_cons. destruct (decide (k = n)) as [->|Hk].
      * rewrite lookup_insert_eq. split; [by right; split; [left|]|by left].
      * rewrite lookup_insert_ne by done. split; [intros [|[? ?]]; auto|].
        intros [|[[->|?] ?]]; [by left|done|by right].
Qed.

(** X3.  Whenever [PathParameters] succeeds, the map it returns has the key
    "path" and no empty key, and every value in it is a piece of the path
    that was given, with no newline in it. *)
Theorem extraction_reads_pieces_of_path (endpoint vaultPath : gostring)
    (result : gmap gostring gostring) :
  PathParameters endpoint vaultPath = Extracted result ->
  is_Some (result !! str "path") /\
  result !! [] = None /\
  (forall name value,
     result !! name = Some value ->
     no_newline value = true /\ exists pre post, vaultPath = pre ++ value ++ post).
Proof.
  intros H. apply PathParameters_Extracted in H as (a & b & rest & re & Hs & Hre & Hc).
  assert ("/" ∉ a) as Ha.
  { pose proof (Split_segments_no_sep endpoint "/") as Hall. rewrite Hs in Hall.
    by inversion Hall. }
  pose proof (pattern_has_path a b rest re Ha Hre) as Hpath.
  unfold SubexpNames in Hc. cbn [collect Nat.eqb orb] in Hc.
  pose proof (collect_keys _ _ _ _ _ _ _ Nat.lt_0_1 Hc) as Hkeys.
  split; [apply Hkeys; by right|]. split.
  - apply eq_None_not_Some. rewrite Hkeys, lookup_empty. intros [[? [=]]|[_ ?]]; done.
  - eapply collect_values; [| |exact Hc].
    + intros k v. by rewrite lookup_empty.
    + intros j v Hj. unfold FindStringSubmatch.
      destruct (find re vaultPath) as [[m caps]|] eqn:E; [|done].
      apply find_sound in E as [Hm (pre & post & ->)].
      apply matches_substrings in Hm. destruct j as [|j]; [lia|]. simpl. intros Hl.
      rewrite Forall_forall in Hm.
      destruct (Hm v) as [Hn (pre' & post' & ->)]; [by eapply list_elem_of_lookup_2|].
      split; [done|]. exists (pre ++ pre'), (post' ++ post). by rewrite <- !app_assoc.
Qed.

Lemma extraction_reads_pieces_of_path_witness :
  is_Some ((<[str "name" := str "my-role"]> (<[str "path" := str "transform"]> ∅)
              : gmap gostring gostring) !! str "path") /\
  (<[str "name" := str "my-role"]> (<[str "path" := str "transform"]> ∅)
     : gmap gostring gostring) !! [] = None /\
  (forall name value,
     (<[str "name" := str "my-role"]> (<[str "path" := str "transform"]> ∅)
        : gmap gostring gostring) !! name = Some value ->
     no_newline value = true /\
     exists pre post, str "v1/transform/role/my-role" = pre ++ value ++ post).
Proof.
  apply (extraction_reads_pieces_of_path (str "/transform/role/{name}")
           (str "v1/transform/role/my-role")).
  vm_compute. reflexivity.
Defined.

End extracted_map.

(** ** Creating a token *)

Section token_creation.

Import token token_create.

Local Open Scope Z_scope.

Variable Parse : gostring -> option Z.
Variable Format : Z -> gostring.
Variable Create : TokenCreateRequest -> option SecretAuth.
Variable CreateWithRole : TokenCreateRequest -> gostring -> option SecretAuth.
Variable LookupAccessor : gostring -> option Secret.
Variable Renew : gostring -> Z -> option Secret.
Variable store_response : Secret -> ResourceData -> ResourceData.

Local Abbreviation create :=
  (tokenCreate Parse Format Create CreateWithRole LookupAccessor Renew store_response).

(** What the create call for [cfg] answers. *)
Local Abbreviation issued cfg :=
  (match role_name cfg with
   | [] => Create (createRequest cfg)
   | _ => CreateWithRole (createRequest cfg) (role_name cfg)
   end).

Lemma createRequest_fields (cfg : Config) :
  createRequest cfg
  = mkRequest (policies cfg) (ttl cfg) (explicit_max_ttl cfg) (period cfg)
      (no_parent cfg) (no_default_policy cfg) (display_name cfg) (num_uses cfg)
      (if renewable cfg then Some true else None).
Proof.
  unfold createRequest, GetOk_string, GetOk_bool, GetOk_int. f_equal.
  - by destruct (policies cfg).
  - by destruct (ttl cfg).
  - by destruct (explicit_max_ttl cfg).
  - by destruct (period cfg).
  - by destruct (no_parent cfg).
  - by destruct (no_default_policy cfg).
  - by destruct (display_name cfg).
  - destruct (Z.eqb_spec (num_uses cfg) 0); congruence.
  - by destruct (renewable cfg).
Qed.

(** X21.  The request [tokenCreate] sends is the configuration, field by field:
    leaving out the fields at their zero value changes nothing, except for
    [renewable], which is sent as true or not at all, never as false.  The
    request goes to [Create] when the role name is empty and to
    [CreateWithRole] with the role otherwise, and when that call fails
    nothing is read or renewed. *)
Theorem tokenCreate_request (cfg : Config) (d : ResourceData) (now : Z) :
  createRequest cfg
  = mkRequest (policies cfg) (ttl cfg) (explicit_max_ttl cfg) (period cfg)
      (no_parent cfg) (no_default_policy cfg) (display_name cfg) (num_uses cfg)
      (if renewable cfg then Some true else None) /\
  Renewable (createRequest cfg) <> Some false /\
  (create cfg d now).1
  = (if decide (role_name cfg = []) then CallCreate (createRequest cfg)
     else CallCreateWithRole (createRequest cfg) (role_name cfg)) /\
  (issued cfg = None -> (create cfg d now).2 = None).
Proof.
  split; [apply createRequest_fields|]. split.
  { rewrite createRequest_fields. simpl. by destruct (renewable cfg). }
  unfold tokenCreate. destruct (role_name cfg) as [|c role].
  - split; [by destruct (Create _)|]. by intros ->.
  - split; [by destruct (CreateWithRole _ _)|]. by intros ->.
Qed.

Lemma tokenCreate_issued (cfg : Config) (d : ResourceData) (now : Z) (auth : SecretAuth) :
  issued cfg = Some auth ->
  (create cfg d now).2
  = Some (tokenRead Parse Format LookupAccessor Renew store_response
            (SetId (Accessor auth)
               (set_client_token (ClientToken auth)
                  (set_lease_started (Format now)
                     (set_lease_duration (LeaseDuration auth) d)))) now).
Proof.
  unfold tokenCreate. destruct (role_name cfg) as [|c role]; by intros ->.
Qed.

(** X22.  After a successful create call, when the lease duration is not negative
    and its nanoseconds fit the duration type, and the formatted start time
    parses to an instant less than five minutes before now, [tokenCreate]
    makes one more call, the lookup of the new accessor, and no renewal;
    when that lookup fails the id in the state is empty although the token
    was created, and the client token and lease duration stay recorded. *)
Theorem tokenCreate_reads_once (cfg : Config) (d : ResourceData) (now : Z)
    (auth : SecretAuth) :
  issued cfg = Some auth ->
  0 <= LeaseDuration auth -> Second * LeaseDuration auth < 2 ^ 63 ->
  (forall started, Parse (Format now) = Some started -> now - 5 * Minute < started) ->
  exists d',
    (create cfg d now).2 = Some (d', [CallLookupAccessor (Accessor auth)]) /\
    (LookupAccessor (Accessor auth) = None ->
     Id d' = [] /\ client_token d' = ClientToken auth /\
     lease_duration d' = LeaseDuration auth /\ lease_started d' = Format now).
Proof.
  intros Hissued Hpos Hfit Hparse. rewrite (tokenCreate_issued cfg d now auth Hissued).
  set (d0 := SetId _ _). unfold tokenRead. change (Id d0) with (Accessor auth).
  destruct (LookupAccessor (Accessor auth)) as [resp|].
  - destruct (tokenCheckLease Parse d0 now) as [[] d1] eqn:E.
    + pose proof (tokenCheckLease_true Parse d0 now) as H. rewrite E in H.
      destruct (H eq_refl) as (started & _ & Hp & He).
      change (lease_started d0) with (Format now) in Hp.
      change (lease_duration d0) with (LeaseDuration auth) in He.
      rewrite lease_expiry_exact in He by (unfold Second in *; lia).
      apply Hparse in Hp. unfold Second in *. nia.
    + eexists. split; [done|]. done.
  - eexists. split; [done|]. done.
Qed.

End token_creation.

Lemma tokenCreate_reads_once_witness :
  exists d',
    (token_create.tokenCreate (fun _ => Some 0%Z) (fun _ => str "1970-01-01T00:00:00Z")
       (fun _ => Some (token_create.mkAuth 3600 (str "s.token") (str "acc")))
       (fun _ _ => None) (fun _ => None) (fun _ _ => None) (fun _ d => d)
       (token_create.mkConfig [] [] [] [] [] false false false (str "token") 0)
       (token.mkData [] [] 0 []) 0).2
    = Some (d', [token.CallLookupAccessor (str "acc")]) /\
    ((fun _ : gostring => @None token.Secret) (str "acc") = None ->
     token.Id d' = [] /\ token.client_token d' = str "s.token" /\
     token.lease_duration d' = 3600%Z /\
     token.lease_started d' = str "1970-01-01T00:00:00Z").
Proof.
  apply (tokenCreate_reads_once (fun _ => Some 0%Z) (fun _ => str "1970-01-01T00:00:00Z")
           (fun _ => Some (token_create.mkAuth 3600 (str "s.token") (str "acc")))
           (fun _ _ => None) (fun _ => None) (fun _ _ => None) (fun _ d => d)
           (token_create.mkConfig [] [] [] [] [] false false false (str "token") 0)
           (token.mkData [] [] 0 []) 0
           (token_create.mkAuth 3600 (str "s.token") (str "acc"))).
  - reflexivity.
  - simpl. lia.
  - vm_compute. reflexivity.
  - intros started [= <-]. vm_compute. reflexivity.
Defined.

(** ** The error checks of package [util] *)

Section error_checks.

Import strings util.

Lemma Contains_wrapped (msg pre post substr : gostring) :
  Contains msg substr = true -> Contains (pre ++ msg ++ post) substr = true.
Proof.
  rewrite !Contains_spec. intros (a & b & ->). exists (pre ++ a), (b ++ post).
  by rewrite <- !app_assoc.
Qed.

(** X14.  [Is404] panics on the nil error, where [IsExpiredTokenErr] answers
    false.  Both look for their text anywhere in the message, so an error
    they recognise is still recognised after it has been wrapped in more
    text, and an error [IsExpiredTokenErr] recognises has one of its two
    texts in it. *)
Theorem error_checks_survive_wrapping :
  Is404 None = PanicNilDereference /\
  IsExpiredTokenErr None = false /\
  (forall msg pre post,
     Is404 (Some msg) = Answer true -> Is404 (Some (pre ++ msg ++ post)) = Answer true) /\
  (forall msg pre post,
     IsExpiredTokenErr (Some msg) = true ->
     IsExpiredTokenErr (Some (pre ++ msg ++ post)) = true) /\
  (forall msg,
     IsExpiredTokenErr (Some msg) = true <->
     exists pre post,
       msg = pre ++ str "invalid accessor" ++ post \/
       msg = pre ++ str "failed to find accessor entry" ++ post).
Proof.
  split; [done|]. split; [done|]. split; [|split].
  - intros msg pre post. cbn [Is404]. intros [= H]. f_equal.
    by apply Contains_wrapped.
  - intros msg pre post. cbn [IsExpiredTokenErr].
    destruct (Contains msg (str "invalid accessor")) eqn:E1.
    + intros _. by rewrite (Contains_wrapped msg pre post (str "invalid accessor") E1).
    + destruct (Contains msg (str "failed to find accessor entry")) eqn:E2; [|done].
      rewrite (Contains_wrapped msg pre post (str "failed to find accessor entry") E2).
      intros _. by destruct (Contains (pre ++ msg ++ post) (str "invalid accessor")).
  - intros msg. cbn [IsExpiredTokenErr]. split.
    + destruct (Contains msg (str "invalid accessor")) eqn:E1.
      * apply Contains_spec in E1 as (pre & post & ->). intros _. exists pre, post. by left.
      * destruct (Contains msg (str "failed to find accessor entry")) eqn:E2; [|done].
        apply Contains_spec in E2 as (pre & post & ->). intros _. exists pre, post. by right.
    + intros (pre & post & [->| ->]).
      * by rewrite (proj2 (Contains_spec _ (str "invalid accessor"))) by eauto.
      * rewrite (proj2 (Contains_spec _ (str "failed to find accessor entry"))) by eauto.
        by destruct (Contains _ (str "invalid accessor")).
Qed.

End error_checks.

(** ** Reading an auth backend *)

Section auth_backend_read.

Import gostrings authbackend.

Variable store_tune : AuthMount -> ResourceData -> outcome.

(** The keys [strings.TrimSuffix] turns into [target]. *)
Lemma TrimSuffix_slash_eq (key target : gostring) :
  TrimSuffix key ["/"%char] = target <->
  key = target ++ ["/"%char] \/ (key = target /\ HasSuffix target ["/"%char] = false).
Proof.
  split.
  - intros <-. destruct (HasSuffix key ["/"%char]) eqn:E.
    + left. apply HasSuffix_spec in E as [x ->]. by rewrite TrimSuffix_app.
    + right. by rewrite TrimSuffix_other.
  - intros [->|[-> H]]; [apply TrimSuffix_app|by apply TrimSuffix_other].
Qed.

Lemma range_auths_not_found (target : gostring) (auths : list (gostring * AuthMount))
    (d : ResourceData) :
  (forall key, key ∈ auths.*1 -> TrimSuffix key ["/"%char] <> target) ->
  range_auths store_tune target auths d = Nil (SetId [] d).
Proof.
  induction auths as [|[key auth] auths IH]; intros H; [done|]. cbn [range_auths].
  rewrite bool_decide_eq_false_2 by (apply H; left). apply IH.
  intros k Hk. apply H. by right.
Qed.

Lemma range_auths_found (target : gostring) (auths : list (gostring * AuthMount))
    (d : ResourceData) (key : gostring) :
  key ∈ auths.*1 -> TrimSuffix key ["/"%char] = target ->
  exists key' auth,
    (key', auth) ∈ auths /\ TrimSuffix key' ["/"%char] = target /\
    range_auths store_tune target auths d
    = store_tune auth
        (set_accessor (Accessor auth)
           (set_local (Local auth)
              (set_description (Description auth)
                 (set_path target (set_type (AuthType auth) d))))).
Proof.
  induction auths as [|[k auth] auths IH]; intros Hin Hkey; [by apply elem_of_nil in Hin|].
  cbn [range_auths]. case_bool_decide as Hk.
  - exists k, auth. split; [left|]. split; [done|]. by rewrite Hk.
  - rewrite fmap_cons in Hin. apply elem_of_cons in Hin as [->|Hin]; [done|].
    destruct (IH Hin Hkey) as (k' & a' & Hin' & Hk' & Hr).
    exists k', a'. split; [by right|]. done.
Qed.

(** X20.  [authBackendRead] finds the backend of id [target] exactly when the
    listing has the key [target/], or the key [target] itself and [target]
    does not end in ['/'].  When it has neither, the id is cleared and
    nothing else changes; an id that ends in ['/'] is found only under a
    key with one more ['/'].  When it has one, the fields are set from an
    entry whose key, trimmed, is the id, and the field "path" becomes the
    id.  When the listing fails the error is returned and the state is
    untouched. *)
Theorem authBackendRead_trims_one_slash (auths : list (gostring * AuthMount))
    (d : ResourceData) :
  ((Id d ++ ["/"%char]) ∉ auths.*1 ->
   (Id d ∉ auths.*1 \/ HasSuffix (Id d) ["/"%char] = true) ->
   authBackendRead (Some auths) store_tune d = Nil (SetId [] d)) /\
  ((Id d ++ ["/"%char]) ∈ auths.*1 \/
   (Id d ∈ auths.*1 /\ HasSuffix (Id d) ["/"%char] = false) ->
   exists key auth,
     (key, auth) ∈ auths /\ TrimSuffix key ["/"%char] = Id d /\
     authBackendRead (Some auths) store_tune d
     = store_tune auth
         (set_accessor (Accessor auth)
            (set_local (Local auth)
               (set_description (Description auth)
                  (set_path (Id d) (set_type (AuthType auth) d)))))) /\
  authBackendRead None store_tune d = Error d.
Proof.
  split; [|split; [|done]].
  - intros Hslash Hself. apply range_auths_not_found.
    intros key Hkey [->|[-> Hs]]%TrimSuffix_slash_eq; [done|].
    destruct Hself as [Hself|Hself]; [done|congruence].
  - intros H. unfold authBackendRead.
    destruct H as [H|[H Hs]].
    + apply (range_auths_found _ _ _ _ H). apply TrimSuffix_app.
    + apply (range_auths_found _ _ _ _ H). by apply TrimSuffix_other.
Qed.

End auth_backend_read.

(** An id imported with its ['/'] is not found under the key Vault lists. *)
Example authBackendRead_imported_with_slash :
  authbackend.authBackendRead
    (Some [(str "approle/", authbackend.mkMount (str "approle") [] false (str "acc"))])
    (fun _ d => authbackend.Nil d)
    (authbackend.mkData (str "approle/") [] [] [] false [])
  = authbackend.Nil (authbackend.mkData [] [] [] [] false []).
Proof. vm_compute. reflexivity. Qed.

(** ** The keys [PathParameters] returns *)

Section extracted_keys.

Import strings regexp.

Lemma group_names_segment (seg : segment) (k : gostring) :
  k ∈ group_names (segment_insts seg) <-> Placeholder k = seg.
Proof.
  destruct seg as [t|n]; simpl.
  - rewrite <- (app_nil_r (Lit <$> t)), group_names_lits. simpl.
    split; [by intros ?%elem_of_nil|done].
  - rewrite list_elem_of_singleton. split; [by intros ->|by intros [= ->]].
Qed.

Lemma group_names_template (segs : list segment) (k : gostring) :
  k ∈ group_names (template_insts segs) <-> Placeholder k ∈ segs.
Proof.
  induction segs as [|seg [|seg' segs] IH].
  - simpl. split; by intros ?%elem_of_nil.
  - cbn [template_insts]. rewrite group_names_segment, list_elem_of_singleton. done.
  - change (template_insts (seg :: seg' :: segs))
      with (segment_insts seg ++ Lit "/" :: template_insts (seg' :: segs)).
    rewrite group_names_app, elem_of_app. cbn [group_names].
    rewrite IH, group_names_segment, (elem_of_cons (seg' :: segs)). done.
Qed.

Lemma placeholder_names_elem (segs : list segment) (k : gostring) :
  k ∈ placeholder_names segs <-> Placeholder k ∈ segs.
Proof.
  induction segs as [|[t|n] segs IH]; cbn [placeholder_names].
  - split; by intros ?%elem_of_nil.
  - rewrite IH, elem_of_cons. split; [by right|by intros [|]].
  - rewrite !elem_of_cons, IH. split; [intros [->|]; auto|intros [[= ->]|]; auto].
Qed.

Lemma extraction_keys (segs : list segment) (vaultPath : gostring)
    (result : gmap gostring gostring) :
  forallb plain_segment segs = true ->
  PathParameters (endpoint_of segs) vaultPath = Extracted result ->
  forall key,
    is_Some (result !! key) <-> Placeholder key ∈ <[1 := Placeholder (str "path")]> segs.
Proof.
  intros Hplain H key.
  apply PathParameters_Extracted in H as (a & b & rest & re & Hs & Hre & Hc).
  assert (segs <> []) as Hne by (intros ->; discriminate).
  rewrite <- Hs, plain_template_pattern in Hre by done. injection Hre as <-.
  unfold SubexpNames in Hc. cbn [collect Nat.eqb orb] in Hc.
  rewrite (collect_keys _ _ _ _ _ _ _ Nat.lt_0_1 Hc), lookup_empty.
  unfold endpoint_regexp. rewrite group_names_template. split.
  - intros [[? [=]]|[? _]]; done.
  - intros Hin. right. split; [done|].
    assert (forallb plain_segment (<[1:=Placeholder (str "path")]> segs) = true) as Hall
      by (by apply forallb_insert).
    rewrite forallb_forall in Hall. apply list_elem_of_In, Hall in Hin.
    by destruct (valid_name_word _ Hin).
Qed.

(** X4.  For a template of plain segments, the keys of the map [PathParameters]
    returns are "path" and the names of the template's placeholders, the
    segment at index 1 not counted: it is read as the placeholder of the
    mount path whatever it is. *)
Theorem extraction_keys_are_placeholders (segs : list segment) (vaultPath : gostring)
    (result : gmap gostring gostring) :
  forallb plain_segment segs = true ->
  PathParameters (endpoint_of segs) vaultPath = Extracted result ->
  dom result
  = list_to_set (placeholder_names (<[1 := Placeholder (str "path")]> segs)).
Proof.
  intros Hplain H. apply set_eq. intros key.
  rewrite elem_of_dom, elem_of_list_to_set, placeholder_names_elem.
  by apply (extraction_keys segs vaultPath).
Qed.

Lemma extraction_keys_are_placeholders_witness :
  dom (<[str "name" := str "my-role"]> (<[str "path" := str "transform"]> ∅)
         : gmap gostring gostring)
  = list_to_set
      (placeholder_names
         (<[1 := Placeholder (str "path")]>
            [Literal []; Literal (str "transform"); Literal (str "role");
             Placeholder (str "name")])).
Proof.
  apply (extraction_keys_are_placeholders
           [Literal []; Literal (str "transform"); Literal (str "role");
            Placeholder (str "name")] (str "/transform/role/my-role")).
  - reflexivity.
  - vm_compute. reflexivity.
Defined.

End extracted_keys.
